(** * Calculator: infix evaluation by shunting yard, verified

    A shallow embedding of [calculator.cpp] (namespace [Calculator]):
    the symbol classifier, the [Part] token with its two constructors,
    the infix-to-postfix conversion [rpn] and the evaluator [eval].

    Conventions of the embedding.
    - A [std::string] is a [list ascii]; [s[i]] is [nth i s Symbol.null]
      (a [std::string] is followed by a NUL character).
    - Indices ([int i], [int& end]) are [nat]: no index of the source goes
      below zero on the paths where it is read, and inputs are shorter than
      [INT_MAX] characters.
    - A [const char*] into the input is its offset from [s.data()].
    - [std::vector<Part> expr] is a list in vector order ([emplace_back]
      appends); the vectors used as stacks ([oprs], [evld]) are lists whose
      head is [back()].
    - [abort()] and a failed [assert] both stop the process; the outcome
      [Fatal] records which one.  Assertions are enabled (no [NDEBUG]), as
      the self-test of [main] relies on them.
    - Places where the source reads memory it must not read are the
      outcome [Undefined].
    - [double] is IEEE 754 binary64, here [spec_float] with precision 53
      and maximal exponent 1024.
    - Names are those of the source; [end] and [mod] are [end_] and
      [mod_], and the enumerators stand in modules of the name of their
      [enum class]. *)

From Stdlib Require Import String Ascii List ZArith Lia Bool Arith.
From Stdlib Require Import Sorted Permutation.
From Stdlib Require Import Floats.SpecFloat.
From Equations Require Import Equations.
From Equations.Prop Require Import Logic.
Import ListNotations.

Set Implicit Arguments.

(** ** Outcomes of a computation that may stop the process *)

(** The places of the source that stop the process. *)
Inductive fault : Set :=
| abort_type            (* type(): default: abort() *)
| abort_prec            (* prec(): default: abort() *)
| abort_associa         (* associa(): default: abort() *)
| abort_second_period   (* Part value constructor: second period *)
| abort_rpn             (* rpn(): switch default: abort() *)
| assert_oprs_nonempty  (* rpn(): assert(!oprs.empty()) *)
| assert_back_is_open   (* rpn(): assert(oprs.back().symbol == Symbol::open) *)
| assert_back_not_open  (* rpn(): assert(oprs.back().symbol != Symbol::open) *)
| abort_applyOperator   (* applyOperator(): default: abort() *)
| abort_eval            (* eval(): switch default: abort() *)
| assert_evld_size.     (* eval(): assert(evld.size() == 1) *)

(** The places of the source whose behaviour the language leaves undefined. *)
Inductive undefined : Set :=
| evld_out_of_bounds    (* eval(): evld[evld.size() - 2] with fewer than two values *)
| result_uninitialised. (* computeVal(): from_chars left [result] unset *)

Inductive outcome (A : Type) : Type :=
| Ok (a : A)
| Fatal (f : fault)
| Undefined (u : undefined).

Arguments Ok {A} a.
Arguments Fatal {A} f.
Arguments Undefined {A} u.

Definition bind {A B : Type} (m : outcome A) (k : A -> outcome B) : outcome B :=
  match m with
  | Ok a => k a
  | Fatal f => Fatal f
  | Undefined u => Undefined u
  end.

Notation "x <- m ;; k" := (bind m (fun x => k))
  (at level 61, m at next level, right associativity).
Notation "' p <- m ;; k" := (bind m (fun x => let p := x in k))
  (at level 61, p pattern, m at next level, right associativity).

(** ** IEEE 754 binary64 *)

Definition double : Set := spec_float.

Definition prec64 : Z := 53.
Definition emax64 : Z := 1024.

Definition dadd : double -> double -> double := SFadd prec64 emax64.
Definition dsub : double -> double -> double := SFsub prec64 emax64.
Definition dmul : double -> double -> double := SFmul prec64 emax64.
Definition ddiv : double -> double -> double := SFdiv prec64 emax64.

(** The double nearest to [m * 2^e], and to the integer [n]. *)
Definition double_of_dyadic (m e : Z) : double :=
  binary_normalize prec64 emax64 m e false.
Definition double_of_Z (n : Z) : double := double_of_dyadic n 0.

(** The double nearest to [n / 10^k], ties to even ([0 <= n]). *)
Definition round_decimal (n : Z) (k : nat) : double :=
  match n with
  | Z0 => S754_zero false
  | Zpos _ =>
      let '(q, e, l) := SFdiv_core_binary prec64 emax64 n 0 (10 ^ Z.of_nat k) 0 in
      binary_round_aux prec64 emax64 false q e l
  | Zneg _ => S754_nan
  end.

(** ** [std::from_chars] on the spans of this program

    The library call [std::from_chars(first, last, value)] for [double]
    reads the longest prefix of the range that matches the decimal pattern
    and stores the nearest double.  The spans this program passes hold
    digits and periods only, so the pattern is modelled as
    [digits [. digits]] with at least one digit.  When nothing matches, or
    when the value is out of the range of [double], [value] is left
    unmodified: that is [None]. *)

Definition digit_value (c : ascii) : option Z :=
  let code := Z.of_N (N_of_ascii c) in
  if ((48 <=? code) && (code <=? 57))%Z then Some (code - 48)%Z else None.

(** Reads a run of digits after the [count] digits whose value is [n]. *)
Fixpoint read_digits (cs : list ascii) (n : Z) (count : nat) : Z * nat * list ascii :=
  match cs with
  | [] => (n, count, [])
  | c :: cs' =>
      match digit_value c with
      | Some d => read_digits cs' (10 * n + d) (S count)
      | None => (n, count, cs)
      end
  end.

(** The matched prefix as [(n, k)], standing for [n / 10^k]. *)
Definition decimal_prefix (cs : list ascii) : option (Z * nat) :=
  let '(n, ni, rest) := read_digits cs 0 0 in
  match rest with
  | "."%char :: rest' =>
      let '(m, nf, _) := read_digits rest' n 0 in
      if (ni + nf =? 0)%nat then None else Some (m, nf)
  | _ => if (ni =? 0)%nat then None else Some (n, 0%nat)
  end.

Definition from_chars (cs : list ascii) : option double :=
  match decimal_prefix cs with
  | None => None
  | Some (n, k) =>
      match round_decimal n k with
      | S754_finite s m e => Some (S754_finite s m e)
      | S754_zero s => if (n =? 0)%Z then Some (S754_zero s) else None
      | _ => None
      end
  end.

Module Calculator.

(** ** Symbols *)

(** [enum class Symbol]: a character code; the enumerators name the
    characters of the language. *)
Definition Symbol : Set := ascii.

Module Symbol.
Definition null : Symbol := "000"%char.
Definition v0 : Symbol := "0"%char.
Definition v1 : Symbol := "1"%char.
Definition v2 : Symbol := "2"%char.
Definition v3 : Symbol := "3"%char.
Definition v4 : Symbol := "4"%char.
Definition v5 : Symbol := "5"%char.
Definition v6 : Symbol := "6"%char.
Definition v7 : Symbol := "7"%char.
Definition v8 : Symbol := "8"%char.
Definition v9 : Symbol := "9"%char.
Definition plus : Symbol := "+"%char.
Definition minus : Symbol := "-"%char.
Definition mul : Symbol := "*"%char.
Definition div : Symbol := "/"%char.
Definition exp : Symbol := "^"%char.
Definition mod_ : Symbol := "%"%char.
Definition open : Symbol := "("%char.
Definition close : Symbol := ")"%char.
Definition period : Symbol := "."%char.
Definition space : Symbol := " "%char.
Definition newline : Symbol := "010"%char.
Definition tab : Symbol := "009"%char.
End Symbol.

Module SymbolType.
Inductive t : Set := null | val | opr | open | close | period | blank.
End SymbolType.

Module Associativity.
Inductive t : Set := left | right.
End Associativity.

(** [type(sym)]: the symbol's type; any other character aborts. *)
Definition type (sym : Symbol) : outcome SymbolType.t :=
  match sym with
  | "0" | "1" | "2" | "3" | "4" | "5" | "6" | "7" | "8" | "9" => Ok SymbolType.val
  | "+" | "-" | "*" | "/" | "^" | "%" => Ok SymbolType.opr
  | "(" => Ok SymbolType.open
  | ")" => Ok SymbolType.close
  | "." => Ok SymbolType.period
  | " " | "010" | "009" => Ok SymbolType.blank
  | _ => Fatal abort_type
  end%char.

(** [prec(op)]: the operator's precedence, lower binds tighter. *)
Definition prec (op : Symbol) : outcome Z :=
  match op with
  | "^" => Ok 1
  | "*" | "/" | "%" => Ok 2
  | "+" | "-" => Ok 3
  | _ => Fatal abort_prec
  end%char%Z.

(** [associa(op)]: the operator's associativity. *)
Definition associa (op : Symbol) : outcome Associativity.t :=
  match op with
  | "^" => Ok Associativity.right
  | "+" | "-" | "*" | "/" | "%" => Ok Associativity.left
  | _ => Fatal abort_associa
  end%char.

(** ** Parts *)

(** [struct Part]: [start] and [end] are offsets into the input, [end] one
    past the last character. *)
Record Part : Set := mkPart { start : nat; end_ : nat; symbol : Symbol }.

(** The loop of the value constructor: [rest] is the input from index
    [end_] on; the result is the value of [end] at [loopEnd]. *)
Fixpoint value_end (rest : list Symbol) (end_ : nat) (notFloatingPoint : bool)
  : outcome nat :=
  match rest with
  | [] => Ok end_
  | c :: rest' =>
      t <- type c ;;
      match t with
      | SymbolType.val => value_end rest' (S end_) notFloatingPoint
      | SymbolType.period =>
          if notFloatingPoint then value_end rest' (S end_) false
          else Fatal abort_second_period
      | _ => Ok end_
      end
  end.

(** [Part(s, start, end)]: the part and the new value of [end], the index
    of the last character of the value. *)
Definition Part_value (s : list Symbol) (start end_ : nat) : outcome (Part * nat) :=
  e <- value_end (skipn end_ s) end_ true ;;
  Ok (mkPart start e (nth start s Symbol.null), e - 1).

(** [Part(s, start)]: an operator or a parenthesis, one character. *)
Definition Part_opr (s : list Symbol) (start : nat) : Part :=
  mkPart start (start + 1) (nth start s Symbol.null).

(** The characters between [start] and [end]. *)
Definition span (s : list Symbol) (p : Part) : list Symbol :=
  firstn (end_ p - start p) (skipn (start p) s).

(** [computeVal()]: [double result; std::from_chars(start, end, result);
    return result;].  When [from_chars] stores nothing the function returns
    an uninitialised [double]. *)
Definition computeVal (s : list Symbol) (p : Part) : outcome double :=
  match from_chars (span s p) with
  | Some v => Ok v
  | None => Undefined result_uninitialised
  end.

(** ** Conversion to postfix *)

(** The state of the main loop of [rpn]: the index [i], the output
    [expr] and the operator stack [oprs]. *)
Record scan : Set := mkScan { i : nat; expr : list Part; oprs : list Part }.

(** The [while] loop of the operator case: pops to the output the
    operators that bind tighter than [sym], and those that bind as tight
    when [sym] associates to the left. *)
Fixpoint pop_operators (sym : Symbol) (expr oprs : list Part)
  : outcome (list Part * list Part) :=
  match oprs with
  | [] => Ok (expr, oprs)
  | back :: oprs' =>
      if Ascii.eqb (symbol back) Symbol.open then Ok (expr, oprs)
      else
        pb <- prec (symbol back) ;;
        ps <- prec sym ;;
        if (pb <? ps)%Z then pop_operators sym (expr ++ [back]) oprs'
        else
          a <- associa sym ;;
          match a with
          | Associativity.left =>
              pb' <- prec (symbol back) ;;
              ps' <- prec sym ;;
              if (pb' =? ps')%Z then pop_operators sym (expr ++ [back]) oprs'
              else Ok (expr, oprs)
          | Associativity.right => Ok (expr, oprs)
          end
  end.

(** The [while] loop of the close case: pops to the output down to an
    open parenthesis. *)
Fixpoint pop_to_open (expr oprs : list Part) : list Part * list Part :=
  match oprs with
  | [] => (expr, oprs)
  | back :: oprs' =>
      if Ascii.eqb (symbol back) Symbol.open then (expr, oprs)
      else pop_to_open (expr ++ [back]) oprs'
  end.

(** One iteration of the [for] loop of [rpn], with its [i++]. *)
Definition rpn_step (s : list Symbol) (st : scan) : outcome scan :=
  let sym := nth (i st) s Symbol.null in
  t <- type sym ;;
  match t with
  | SymbolType.val =>
      '(p, i') <- Part_value s (i st) (i st) ;;
      Ok (mkScan (S i') (expr st ++ [p]) (oprs st))
  | SymbolType.opr =>
      '(expr', oprs') <- pop_operators sym (expr st) (oprs st) ;;
      Ok (mkScan (S (i st)) expr' (Part_opr s (i st) :: oprs'))
  | SymbolType.open =>
      Ok (mkScan (S (i st)) (expr st) (Part_opr s (i st) :: oprs st))
  | SymbolType.close =>
      let '(expr', oprs') := pop_to_open (expr st) (oprs st) in
      match oprs' with
      | [] => Fatal assert_oprs_nonempty
      | back :: oprs'' =>
          if Ascii.eqb (symbol back) Symbol.open
          then Ok (mkScan (S (i st)) expr' oprs'')
          else Fatal assert_back_is_open
      end
  | SymbolType.blank => Ok (mkScan (S (i st)) (expr st) (oprs st))
  | _ => Fatal abort_rpn
  end.

(** The final [while] loop of [rpn]: pops what is left, asserting that no
    open parenthesis is among it. *)
Fixpoint rpn_drain (expr oprs : list Part) : outcome (list Part) :=
  match oprs with
  | [] => Ok expr
  | back :: oprs' =>
      if Ascii.eqb (symbol back) Symbol.open then Fatal assert_back_not_open
      else rpn_drain (expr ++ [back]) oprs'
  end.

(** Every iteration of the loop moves the index forward: the source of
    the termination of [rpn]. *)
Lemma value_end_le (rest : list Symbol) (e : nat) (nfp : bool) (e' : nat) :
  value_end rest e nfp = Ok e' -> e <= e'.
Proof.
  revert e nfp.
  induction rest as [|c rest IH]; intros e nfp H; simpl in H.
  - injection H as <-. lia.
  - destruct (type c) as [t| |]; simpl in H; try discriminate.
    destruct t; try (injection H as <-; lia); try discriminate.
    + apply IH in H. lia.
    + destruct nfp; [apply IH in H; lia | discriminate].
Qed.

Lemma type_nth_in_range (s : list Symbol) (n : nat) (t : SymbolType.t) :
  type (nth n s Symbol.null) = Ok t -> n < length s.
Proof.
  intros H.
  destruct (Nat.lt_ge_cases n (length s)) as [Hlt|Hge]; [exact Hlt|].
  rewrite (nth_overflow s Symbol.null Hge) in H. discriminate.
Qed.

Lemma skipn_nth (s : list Symbol) (n : nat) :
  n < length s -> skipn n s = nth n s Symbol.null :: skipn (S n) s.
Proof.
  revert n. induction s as [|c s IH]; intros [|n] H; simpl in *; try lia.
  - reflexivity.
  - apply IH. lia.
Qed.

Lemma rpn_step_progress (s : list Symbol) (st st' : scan) :
  rpn_step s st = Ok st' -> i st < i st'.
Proof.
  unfold rpn_step. intros H.
  destruct (type (nth (i st) s Symbol.null)) as [t| |] eqn:Ht; simpl in H;
    try discriminate.
  destruct t; try discriminate.
  - unfold Part_value in H.
    rewrite (skipn_nth s (type_nth_in_range s (i st) Ht)) in H.
    simpl in H. rewrite Ht in H. simpl in H.
    destruct (value_end _ _ _) as [e| |] eqn:He; simpl in H; try discriminate.
    injection H as <-. simpl. apply value_end_le in He. lia.
  - destruct (pop_operators _ _ _) as [[e o]| |]; simpl in H; try discriminate.
    injection H as <-. simpl. lia.
  - injection H as <-. simpl. lia.
  - destruct (pop_to_open _ _) as [e o].
    destruct o as [|b o]; try discriminate.
    destruct (Ascii.eqb _ _); try discriminate.
    injection H as <-. simpl. lia.
  - injection H as <-. simpl. lia.
Qed.

(** The [for] loop of [rpn] from the state [st], followed by the final
    [while] loop.  The index moves forward by one character, or by a whole
    value, until it reaches [s.size()]. *)
Equations? rpn_loop (s : list Symbol) (st : scan) : outcome (list Part)
  by wf (length s - i st) lt :=
rpn_loop s st with lt_dec (i st) (length s) := {
  | right _ => rpn_drain (expr st) (oprs st)
  | left _ with inspect (rpn_step s st) := {
      | exist _ (Ok st') _ => rpn_loop s st'
      | exist _ (Fatal f) _ => Fatal f
      | exist _ (Undefined u) _ => Undefined u } }.
Proof.
  pose proof (rpn_step_progress s st e). lia.
Qed.

(** [rpn(s, expr)]: appends to [expr] the postfix form of [s]. *)
Definition rpn (s : list Symbol) (expr : list Part) : outcome (list Part) :=
  rpn_loop s (mkScan 0 expr []).

(** ** Evaluation *)

Section Evaluator.

(** The two functions of [<cmath>] the evaluator calls.  They belong to
    the C library, not to this program, and stay abstract. *)
Variable fmod : double -> double -> double.
Variable pow : double -> double -> double.

(** [applyOperator(a, b, opr)]: the new value of [a]. *)
Definition applyOperator (a b : double) (opr : Symbol) : outcome double :=
  match opr with
  | "+" => Ok (dadd a b)
  | "-" => Ok (dsub a b)
  | "*" => Ok (dmul a b)
  | "/" => Ok (ddiv a b)
  | "%" => Ok (fmod a b)
  | "^" => Ok (pow a b)
  | _ => Fatal abort_applyOperator
  end%char.

(** The [for] loop of [eval] over the parts of the postfix expression,
    from the value stack [evld].  The loop runs over the range of [expr]
    taken when it begins.  The [expr.pop_back()] of the operator case
    shortens the vector from its back, never an empty one: before the k-th
    part at most k - 1 parts were popped.  The storage of the parts popped
    is not written again, and the loop reads it unchanged.  With fewer than
    two values, [evld[evld.size() - 2]] is an access out of the bounds of
    the vector: nothing checks it. *)
Fixpoint eval_loop (s : list Symbol) (expr : list Part) (evld : list double)
  : outcome (list double) :=
  match expr with
  | [] => Ok evld
  | p :: expr' =>
      t <- type (symbol p) ;;
      match t with
      | SymbolType.val =>
          v <- computeVal s p ;;
          eval_loop s expr' (v :: evld)
      | SymbolType.opr =>
          match evld with
          | b :: a :: evld' =>
              a' <- applyOperator a b (symbol p) ;;
              eval_loop s expr' (a' :: evld')
          | _ => Undefined evld_out_of_bounds
          end
      | _ => Fatal abort_eval
      end
  end.

(** [eval(s)]: the value of the infix expression [s]. *)
Definition eval (s : list Symbol) : outcome double :=
  expr <- rpn s [] ;;
  evld <- eval_loop s expr [] ;;
  match evld with
  | [result] => Ok result
  | _ => Fatal assert_evld_size
  end.

End Evaluator.

End Calculator.

(** * The vocabulary of the properties

    The definitions the statements below are made of.  None of them is
    part of the program. *)

Import Calculator.

(** The characters of a string literal, as the program reads them. *)
Definition chars (s : string) : list Symbol := list_ascii_of_string s.

(** ** Characters and numbers *)

(** The digits and the period of the classifier. *)
Definition is_val (c : Symbol) : bool :=
  match type c with Ok SymbolType.val => true | _ => false end.

Definition is_period (c : Symbol) : bool :=
  match type c with Ok SymbolType.period => true | _ => false end.

(** The three characters the classifier takes for blanks. *)
Definition whitespace (c : Symbol) : Prop :=
  c = Symbol.space \/ c = Symbol.tab \/ c = Symbol.newline.

(** A character a value goes on with: a digit or a period. *)
Definition in_value (c : Symbol) : bool := is_val c || is_period c.

(** The number of periods of a string. *)
Definition periods (l : list Symbol) : nat := length (filter is_period l).

(** What the value constructor accepts as a value: a digit, then digits
    and at most one period. *)
Definition is_literal (l : list Symbol) : bool :=
  match l with
  | [] => false
  | c :: _ => is_val c && forallb in_value l && (periods l <=? 1)
  end.

(** The value constructor stops in front of [rest] without a fault: at the
    end of the input, or at a known character that is no digit and no
    period. *)
Definition stops_value (rest : list Symbol) : bool :=
  match rest with
  | [] => true
  | c :: _ =>
      match type c with
      | Ok SymbolType.val | Ok SymbolType.period => false
      | Ok _ => true
      | _ => false
      end
  end.

(** The longest prefix of [r] made of digits and periods. *)
Fixpoint value_run (r : list Symbol) : list Symbol :=
  match r with
  | [] => []
  | c :: r' => if in_value c then c :: value_run r' else []
  end.

(** The value of the characters of a number, as [computeVal] reads it. *)
Definition literal_value (l : list Symbol) : outcome double :=
  match from_chars l with
  | Some v => Ok v
  | None => Undefined result_uninitialised
  end.

(** Digits only. *)
Fixpoint all_digits (l : list Symbol) : bool :=
  match l with
  | [] => true
  | c :: l' => is_val c && all_digits l'
  end.

(** The number of the grammar of the specification,
    [number := digit+ ("." digit+)?]: behind the digits, nothing or a
    period and at least one digit. *)
Definition grammar_fraction (l : list Symbol) : bool :=
  match l with
  | [] => true
  | c :: l' =>
      if is_period c then (match l' with [] => false | _ => all_digits l' end)
      else false
  end.

(** [seen_digit] tells whether a digit was read. *)
Fixpoint grammar_number_from (seen_digit : bool) (l : list Symbol) : bool :=
  match l with
  | [] => seen_digit
  | c :: l' =>
      if is_val c then grammar_number_from true l'
      else seen_digit && grammar_fraction l
  end.

Definition grammar_number (l : list Symbol) : bool := grammar_number_from false l.

(** ** The decimal value of a number

    The characters of a number stand for the decimal
    [numerator l / 10 ^ places l]. *)









(** ** The iterations of [rpn] as a relation

    One constructor for each case of the [switch] that goes on: what the
    index stands on, and the state the iteration leaves. *)

Inductive step (s : list Symbol) : scan -> scan -> Prop :=
| step_val (n : nat) (e o : list Part) (l rest : list Symbol) :
    skipn n s = l ++ rest -> is_literal l = true -> stops_value rest = true ->
    step s (mkScan n e o)
      (mkScan (n + length l)
         (e ++ [mkPart n (n + length l) (hd Symbol.null l)]) o)
| step_opr (n : nat) (e o : list Part) (c : Symbol) (rest : list Symbol)
    (e' o' : list Part) :
    skipn n s = c :: rest -> type c = Ok SymbolType.opr ->
    pop_operators c e o = Ok (e', o') ->
    step s (mkScan n e o) (mkScan (S n) e' (mkPart n (n + 1) c :: o'))
| step_open (n : nat) (e o : list Part) (rest : list Symbol) :
    skipn n s = Symbol.open :: rest ->
    step s (mkScan n e o) (mkScan (S n) e (mkPart n (n + 1) Symbol.open :: o))
| step_close (n : nat) (e o : list Part) (rest : list Symbol)
    (e' : list Part) (back : Part) (o' : list Part) :
    skipn n s = Symbol.close :: rest ->
    pop_to_open e o = (e', back :: o') -> symbol back = Symbol.open ->
    step s (mkScan n e o) (mkScan (S n) e' o')
| step_blank (n : nat) (e o : list Part) (c : Symbol) (rest : list Symbol) :
    skipn n s = c :: rest -> type c = Ok SymbolType.blank ->
    step s (mkScan n e o) (mkScan (S n) e o).

(** Several iterations, one after the other. *)
Inductive steps (s : list Symbol) : scan -> scan -> Prop :=
| steps_refl (st : scan) : steps s st st
| steps_next (st st' st'' : scan) :
    step s st st' -> steps s st' st'' -> steps s st st''.

(** ** Parts of the output and of the stack *)

(** A part that is no open parenthesis. *)
Definition not_open (p : Part) : Prop := symbol p <> Symbol.open.

(** A part of the output is a number or an operator when its symbol is a
    digit or an operator symbol. *)
Definition number_or_operator (p : Part) : Prop :=
  type (symbol p) = Ok SymbolType.val \/ type (symbol p) = Ok SymbolType.opr.

(** What the operator stack holds. *)
Definition operator_or_open (p : Part) : Prop :=
  type (symbol p) = Ok SymbolType.opr \/ symbol p = Symbol.open.

Definition parenthesis (p : Part) : Prop :=
  symbol p = Symbol.open \/ symbol p = Symbol.close.

(** The invariant of the loop: numbers and operators in the output,
    operators and open parentheses on the stack. *)
Definition parts_sorted_out (st : scan) : Prop :=
  Forall number_or_operator (expr st) /\ Forall operator_or_open (oprs st).

(** The open parentheses on a stack. *)
Definition opens (o : list Part) : nat :=
  length (filter (fun p => Ascii.eqb (symbol p) Symbol.open) o).

(** The operators on a stack: its parts that are no open parenthesis. *)
Definition operators (o : list Part) : nat := length o - opens o.

(** ** Parentheses *)

(** The depth of parentheses after [s], from the depth [d]; [None] when a
    close parenthesis has no open parenthesis before it. *)
Fixpoint paren_depth (s : list Symbol) (d : nat) : option nat :=
  match s with
  | [] => Some d
  | c :: s' =>
      if Ascii.eqb c Symbol.open then paren_depth s' (S d)
      else if Ascii.eqb c Symbol.close then
             match d with
             | 0 => None
             | S d' => paren_depth s' d'
             end
           else paren_depth s' d
  end.

(** The parentheses of [s] balance. *)
Definition balanced (s : list Symbol) : bool :=
  match paren_depth s 0 with
  | Some 0 => true
  | _ => false
  end.

(** The open parentheses on the stack are those the input read so far
    leaves open. *)
Definition depth_on_stack (s : list Symbol) (st : scan) : Prop :=
  i st <= length s /\
  paren_depth (firstn (i st) s) 0 = Some (opens (oprs st)).

(** ** The value stack *)

(** The loop of [eval] with every value replaced by its mere presence:
    the size of [evld] after the parts of [expr], from the size [n].
    [None] when an operator finds fewer than two values, or a part is
    neither a number nor an operator. *)
Fixpoint stack_run (expr : list Part) (n : nat) : option nat :=
  match expr with
  | [] => Some n
  | p :: expr' =>
      match type (symbol p) with
      | Ok SymbolType.val => stack_run expr' (S n)
      | Ok SymbolType.opr =>
          match n with
          | S (S m) => stack_run expr' (S m)
          | _ => None
          end
      | _ => None
      end
  end.

(** ** Operands and operators in turn *)

(** Where the reading of an infix expression stands: in front of an
    operand, inside a number, or behind an operand. *)
Inductive position : Set := want_operand | in_number | after_operand.

(** The position after the character [c], or [None] when [c] may not
    stand at the position [q]: a number or an open parenthesis stands where
    an operand is wanted, an operator or a close parenthesis behind an
    operand. *)
Definition next_position (q : position) (c : Symbol) : option position :=
  match type c with
  | Ok SymbolType.val =>
      match q with
      | after_operand => None
      | _ => Some in_number
      end
  | Ok SymbolType.period =>
      match q with
      | in_number => Some in_number
      | _ => None
      end
  | Ok SymbolType.opr =>
      match q with
      | want_operand => None
      | _ => Some want_operand
      end
  | Ok SymbolType.open =>
      match q with
      | want_operand => Some want_operand
      | _ => None
      end
  | Ok SymbolType.close =>
      match q with
      | want_operand => None
      | _ => Some after_operand
      end
  | Ok SymbolType.blank =>
      match q with
      | in_number => Some after_operand
      | _ => Some q
      end
  | _ => None
  end.

(** The position after the characters of [s], from the position [q]. *)
Fixpoint positions (q : position) (s : list Symbol) : option position :=
  match s with
  | [] => Some q
  | c :: s' =>
      match next_position q c with
      | Some q' => positions q' s'
      | None => None
      end
  end.

(** Operands and operators take turns all along [s], which ends behind
    an operand. *)
Definition alternates (s : list Symbol) : bool :=
  match positions want_operand s with
  | Some in_number | Some after_operand => true
  | _ => false
  end.

(** One value is there for the operand just read. *)
Definition operand_read (q : position) : nat :=
  match q with
  | want_operand => 0
  | _ => 1
  end.

(** The state of the loop when operands and operators take turns: the
    output, run as postfix, leaves one value for each operator that waits
    on the stack, and one more behind an operand. *)
Definition in_turn (s : list Symbol) (qf : position) (st : scan) : Prop :=
  exists q,
    i st <= length s /\
    positions q (skipn (i st) s) = Some qf /\
    (q = in_number -> stops_value (skipn (i st) s) = true) /\
    Forall operator_or_open (oprs st) /\
    stack_run (expr st) 0 = Some (operators (oprs st) + operand_read q).

(** ** Shapes of postfix expressions *)

(** The postfix form [a b c * +]: three numbers with the characters [a],
    [b] and [c], then the two operators. *)
Definition sum_of_product (s : list Symbol) (a b c : list Symbol)
  (expr : list Part) : Prop :=
  exists A B C M P,
    expr = [A; B; C; M; P] /\
    (type (symbol A) = Ok SymbolType.val /\ span s A = a) /\
    (type (symbol B) = Ok SymbolType.val /\ span s B = b) /\
    (type (symbol C) = Ok SymbolType.val /\ span s C = c) /\
    symbol M = Symbol.mul /\ symbol P = Symbol.plus.

(** The postfix form [a b op1 c op2]: the first operator is applied to
    [a] and [b], the second to the result and [c]. *)
Definition grouped_left (s : list Symbol) (a b c : list Symbol)
  (op1 op2 : Symbol) (expr : list Part) : Prop :=
  exists A B C P1 P2,
    expr = [A; B; P1; C; P2] /\
    (type (symbol A) = Ok SymbolType.val /\ span s A = a) /\
    (type (symbol B) = Ok SymbolType.val /\ span s B = b) /\
    (type (symbol C) = Ok SymbolType.val /\ span s C = c) /\
    symbol P1 = op1 /\ symbol P2 = op2.

(** The postfix form [a b c op2 op1]: the second operator is applied to
    [b] and [c], the first to [a] and the result. *)
Definition grouped_right (s : list Symbol) (a b c : list Symbol)
  (op1 op2 : Symbol) (expr : list Part) : Prop :=
  exists A B C P1 P2,
    expr = [A; B; C; P2; P1] /\
    (type (symbol A) = Ok SymbolType.val /\ span s A = a) /\
    (type (symbol B) = Ok SymbolType.val /\ span s B = b) /\
    (type (symbol C) = Ok SymbolType.val /\ span s C = c) /\
    symbol P1 = op1 /\ symbol P2 = op2.

(** The postfix form [a b +]. *)
Definition sum_of_two (s : list Symbol) (a b : list Symbol)
  (expr : list Part) : Prop :=
  exists A B P,
    expr = [A; B; P] /\
    (type (symbol A) = Ok SymbolType.val /\ span s A = a) /\
    (type (symbol B) = Ok SymbolType.val /\ span s B = b) /\
    symbol P = Symbol.plus.

(** ** The two functions of the C library, for the examples

    [fmod_exact] is [fmod]: the remainder of the division of the
    magnitudes, with the sign of [x]; it is exact.  [pow_integer] is [pow]
    where the exponent is a whole number that is not negative and the
    products are exact; it stands for [pow] in examples only. *)

Definition fmod_exact (x y : double) : double :=
  match x, y with
  | S754_nan, _ | _, S754_nan => S754_nan
  | S754_infinity _, _ => S754_nan
  | _, S754_zero _ => S754_nan
  | _, S754_infinity _ => x
  | S754_zero _, _ => x
  | S754_finite sx mx ex, S754_finite _ my ey =>
      let e := Z.min ex ey in
      let r := Z.rem (Zpos mx * 2 ^ (ex - e)) (Zpos my * 2 ^ (ey - e)) in
      binary_normalize prec64 emax64 (if sx then - r else r) e sx
  end%Z.

(** The whole number a double is, if it is one and not negative. *)
Definition whole_number (b : double) : option nat :=
  match b with
  | S754_zero _ => Some 0
  | S754_finite false m e =>
      if (0 <=? e)%Z then Some (Z.to_nat (Zpos m * 2 ^ e))
      else if (Zpos m mod 2 ^ (- e) =? 0)%Z
           then Some (Z.to_nat (Zpos m / 2 ^ (- e)))
           else None
  | _ => None
  end.

Definition pow_integer (a b : double) : double :=
  match whole_number b with
  | Some n => Nat.iter n (dmul a) (double_of_Z 1)
  | None => S754_nan
  end.

(** ** The places where the conversion stops *)

(** The places where [rpn] can stop the process. *)
Definition rpn_fault (f : fault) : bool :=
  match f with
  | abort_type | abort_second_period | abort_rpn
  | assert_oprs_nonempty | assert_back_not_open => true
  | _ => false
  end.

(** ** Known characters, and an output given to the conversion *)

(** A character the classifier knows. *)
Definition known (c : Symbol) : bool :=
  match type c with Ok _ => true | _ => false end.

(** The characters the loop has gone over are known. *)
Definition known_so_far (s : list Symbol) (st : scan) : Prop :=
  i st <= length s /\ forallb known (firstn (i st) s) = true.

(** The state with [e0] in front of its output. *)
Definition onto (e0 : list Part) (st : scan) : scan :=
  mkScan (i st) (e0 ++ expr st) (oprs st).

(** ** Parts as pieces of the input *)

(** A part that stands for a number. *)
Definition is_number (p : Part) : bool := is_val (symbol p).

(** What a part has to do with the input [s]: it spans characters of
    [s], its symbol is the first of them, a number spans a value and any
    other part one character. *)
Definition part_of_input (s : list Symbol) (p : Part) : Prop :=
  start p < end_ p /\ end_ p <= length s /\
  symbol p = nth (start p) s Symbol.null /\
  (if is_number p then is_literal (span s p) = true
   else end_ p = start p + 1).

(** The parts of the output and of the stack are pieces of the input. *)
Definition parts_of_input (s : list Symbol) (st : scan) : Prop :=
  Forall (part_of_input s) (expr st) /\ Forall (part_of_input s) (oprs st).

(** ** Numbers and operators of a postfix expression *)

(** The numbers of a postfix expression, in its order. *)
Definition numbers (expr : list Part) : list Part := filter is_number expr.

(** [p] ends in the input before [q] begins, a character at least
    between them. *)
Definition apart (p q : Part) : Prop := end_ p < start q.

(** The numbers of the output stand in the order of the input, each of
    them read before the index, and the stack holds none. *)
Definition numbers_in_order (s : list Symbol) (st : scan) : Prop :=
  StronglySorted apart (numbers (expr st)) /\
  Forall (fun p => end_ p < i st \/
                   (end_ p = i st /\ stops_value (skipn (i st) s) = true))
    (numbers (expr st)) /\
  numbers (oprs st) = [].

(** An operator symbol. *)
Definition is_operator (c : Symbol) : bool :=
  match type c with Ok SymbolType.opr => true | _ => false end.

(** The operator symbols among the symbols of parts. *)
Definition operator_symbols (ps : list Part) : list Symbol :=
  filter is_operator (map symbol ps).

(** Every operator read so far is in the output or on the stack. *)
Definition operators_kept (s : list Symbol) (st : scan) : Prop :=
  Permutation (operator_symbols (expr st) ++ operator_symbols (oprs st))
    (filter is_operator (firstn (i st) s)).

(** ** Expressions as trees *)

(** An expression as a tree: a number with its characters, an expression
    in parentheses, or an operator and its two operands. *)
Inductive term : Set :=
| lit (l : list Symbol)
| par (z : term)
| bin (op : Symbol) (x y : term).

(** The expression as it is written. *)
Fixpoint text (z : term) : list Symbol :=
  match z with
  | lit l => l
  | par z' => Symbol.open :: text z' ++ [Symbol.close]
  | bin op x y => text x ++ op :: text y
  end.

(** The operator of an expression that stands in no parentheses. *)
Definition root (z : term) : option Symbol :=
  match z with
  | bin op _ _ => Some op
  | _ => None
  end.

(** The condition of the [while] loop of the operator case: the operator
    [sym] that comes in pops the operator [back] off the stack. *)
Definition pops (sym back : Symbol) : bool :=
  match prec back, prec sym, associa sym with
  | Ok pb, Ok ps, Ok a =>
      (pb <? ps)%Z ||
      match a with
      | Associativity.left => (pb =? ps)%Z
      | Associativity.right => false
      end
  | _, _, _ => false
  end.

(** The tree is the grouping of its text: the numbers are values, the
    operators are operators, a left operand without parentheses has an
    operator that the operator behind it pops, and a right operand without
    parentheses has an operator that leaves the operator before it on the
    stack. *)
Fixpoint grouped (z : term) : bool :=
  match z with
  | lit l => is_literal l
  | par z' => grouped z'
  | bin op x y =>
      is_operator op && grouped x && grouped y &&
      match root x with Some ox => pops op ox | None => true end &&
      match root y with Some oy => negb (pops oy op) | None => true end
  end.

(** The operator of [z], when it comes in, leaves the stack [g] as it
    is. *)
Definition holds (g : list Part) (z : term) : Prop :=
  match root z, g with
  | Some oz, back :: _ =>
      symbol back = Symbol.open \/
      (type (symbol back) = Ok SymbolType.opr /\ pops oz (symbol back) = false)
  | _, _ => True
  end.

(** The operators [sz] that [z] has left on the stack go to the output
    with the operator of [z]. *)
Definition waits (z : term) (sz : list Part) : Prop :=
  forall c e o,
    match root z with Some oz => pops c oz = true | None => True end ->
    pop_operators c e (sz ++ o) = pop_operators c (e ++ sz) o.

Section Terms.

Variable fmod : double -> double -> double.
Variable pow : double -> double -> double.

(** The value of an expression: the operands from left to right, then
    the operator. *)
Fixpoint value (z : term) : outcome double :=
  match z with
  | lit l => literal_value l
  | par z' => value z'
  | bin op x y =>
      a <- value x ;; b <- value y ;; applyOperator fmod pow a b op
  end.

(** The loop of [eval] over [ps] puts the value of [z] on the stack. *)
Definition pushes (s : list Symbol) (ps : list Part) (z : term) : Prop :=
  forall evld,
    eval_loop fmod pow s ps evld = (v <- value z ;; Ok (v :: evld)).

(** The loop of [rpn] over the text of [z]: the parts [pz] go to the
    output and the operators [sz] stay on the stack. *)
Definition reads (z : term) : Prop :=
  forall s pre suf e0 g,
    s = pre ++ text z ++ suf -> stops_value suf = true -> holds g z ->
    exists pz sz,
      rpn_loop s (mkScan (length pre) e0 g) =
      rpn_loop s (mkScan (length (pre ++ text z)) (e0 ++ pz) (sz ++ g)) /\
      Forall not_open sz /\ pushes s (pz ++ sz) z /\ waits z sz.

End Terms.

(** ** Tokens *)

(** A blank of the classifier. *)
Definition is_blank (c : Symbol) : bool :=
  match type c with Ok SymbolType.blank => true | _ => false end.

(** The run of digits and periods read last, if there is one. *)
Definition close_run (run : list Symbol) : list (list Symbol) :=
  match run with
  | [] => []
  | _ => [run]
  end.

(** The tokens of [s] behind the digits and periods [run]: every run of
    digits and periods that nothing interrupts is one token, every other
    character that is no blank is one token, and blanks are none. *)
Fixpoint tokens_from (run : list Symbol) (s : list Symbol) : list (list Symbol) :=
  match s with
  | [] => close_run run
  | c :: s' =>
      if in_value c then tokens_from (run ++ [c]) s'
      else close_run run ++ (if is_blank c then [] else [[c]]) ++ tokens_from [] s'
  end.

(** The tokens of an input. *)
Definition tokens (s : list Symbol) : list (list Symbol) := tokens_from [] s.

(** Two parts, of two inputs, with the same symbol and characters. *)
Definition same_part (s s' : list Symbol) (p p' : Part) : Prop :=
  symbol p = symbol p' /\ span s p = span s' p'.

(** Part by part the same. *)
Definition same_parts (s s' : list Symbol) : list Part -> list Part -> Prop :=
  Forall2 (same_part s s').

(** Two outcomes that stop at the same place, or return results that
    [R] relates. *)
Definition same_outcome {A B : Type} (R : A -> B -> Prop)
  (m : outcome A) (m' : outcome B) : Prop :=
  match m, m' with
  | Ok a, Ok a' => R a a'
  | Fatal f, Fatal f' => f = f'
  | Undefined u, Undefined u' => u = u'
  | _, _ => False
  end.

(** The same output and the same stack. *)
Definition same_pair (s s' : list Symbol) (r r' : list Part * list Part) : Prop :=
  same_parts s s' (fst r) (fst r') /\ same_parts s s' (snd r) (snd r').

(** The last character of [l] and the first of [r] would be read as
    parts of one number. *)
Definition joined (l r : list Symbol) : bool :=
  in_value (last l Symbol.space) && in_value (hd Symbol.space r).

(** ** The operator stack as frames of an expression *)

(** The tokens of the text of an expression. *)
Fixpoint term_tokens (z : term) : list (list Symbol) :=
  match z with
  | lit l => [l]
  | par z' => [Symbol.open] :: term_tokens z' ++ [[Symbol.close]]
  | bin op x y => term_tokens x ++ [op] :: term_tokens y
  end.

(** What an entry of the operator stack stands for: an open parenthesis,
    or an operator with the operand that was read before it. *)
Inductive frame : Set :=
| left_open
| left_operand (t : term) (op : Symbol).

Definition frame_symbol (f : frame) : Symbol :=
  match f with
  | left_open => Symbol.open
  | left_operand _ op => op
  end.

Definition frame_tokens (f : frame) : list (list Symbol) :=
  match f with
  | left_open => [[Symbol.open]]
  | left_operand t op => term_tokens t ++ [[op]]
  end.

(** The tokens of the frames of a stack, its top being the head. *)
Fixpoint frames_tokens (G : list frame) : list (list Symbol) :=
  match G with
  | [] => []
  | f :: G' => frames_tokens G' ++ frame_tokens f
  end.

(** The operator of [u] leaves the operator on top of [G] where it is. *)
Definition rests (u : term) (G : list frame) : Prop :=
  match root u, G with
  | Some r, left_operand _ op :: _ => pops r op = false
  | _, _ => True
  end.

(** The frames of a stack as the loop builds it: every operand is
    grouped, its operator pops the operator of the operand, and leaves the
    operator under it. *)
Fixpoint chain (G : list frame) : Prop :=
  match G with
  | [] => True
  | left_open :: G' => chain G'
  | left_operand t op :: G' =>
      grouped t = true /\ type op = Ok SymbolType.opr /\
      match root t with Some r => pops op r = true | None => True end /\
      match G' with left_operand _ op0 :: _ => pops op op0 = false | _ => True end /\
      chain G'
  end.

(** The operators that leave the stack, down to the first that [stop]
    holds or to an open parenthesis, take their operands: [u] is the right
    operand of the first. *)
Fixpoint unwind (stop : Symbol -> bool) (G : list frame) (u : term)
  : list frame * term :=
  match G with
  | left_operand t op :: G' =>
      if stop op then (G, u) else unwind stop G' (bin op t u)
  | _ => (G, u)
  end.

(** The operand read last, if the loop stands behind one: a number or an
    expression in parentheses. *)
Definition operand_read_last (cur : option term) : Prop :=
  match cur with
  | None => True
  | Some u => grouped u = true /\ root u = None
  end.

Definition operand_tokens (cur : option term) : list (list Symbol) :=
  match cur with
  | None => []
  | Some u => term_tokens u
  end.

(** The state of the loop over an input in which operands and operators
    take turns: the stack stands for the frames [G], and the tokens read
    are those of the frames and of the operand read last. *)
Definition parsed (s : list Symbol) (qf : position) (st : scan) : Prop :=
  exists q G cur,
    positions q (skipn (i st) s) = Some qf /\
    (q = in_number -> stops_value (skipn (i st) s) = true) /\
    (cur = None <-> q = want_operand) /\
    operand_read_last cur /\
    map symbol (oprs st) = map frame_symbol G /\
    chain G /\
    tokens (firstn (i st) s) = frames_tokens G ++ operand_tokens cur /\
    joined (firstn (i st) s) (skipn (i st) s) = false.

(** No number of the input has two periods. *)
Definition single_periods (s : list Symbol) : bool :=
  forallb (fun t => periods t <=? 1) (tokens s).

(** What holds of every state of the loop over an input in turn. *)
Definition in_turn_state (s : list Symbol) (qf : position) (st : scan) : Prop :=
  parsed s qf st /\ depth_on_stack s st /\ parts_sorted_out st.

(** * Properties of the conversion *)

Lemma Ok_inj (A : Type) (a b : A) : Ok a = Ok b -> a = b.
Proof. intros H. injection H as H. exact H. Qed.

(** ** The loop of [rpn], one iteration at a time *)

Lemma rpn_loop_eq (s : list Symbol) (st : scan) :
  rpn_loop s st =
  if lt_dec (i st) (length s) then st' <- rpn_step s st ;; rpn_loop s st'
  else rpn_drain (expr st) (oprs st).
Proof.
  rewrite rpn_loop_equation_1.
  destruct (lt_dec (i st) (length s)); simpl; [|reflexivity].
  destruct (rpn_step s st); reflexivity.
Qed.

Lemma rpn_loop_end (s : list Symbol) (st : scan) :
  length s <= i st -> rpn_loop s st = rpn_drain (expr st) (oprs st).
Proof.
  intros H. rewrite rpn_loop_eq. destruct lt_dec; [lia | reflexivity].
Qed.

Lemma rpn_loop_next (s : list Symbol) (st : scan) :
  i st < length s -> rpn_loop s st = (st' <- rpn_step s st ;; rpn_loop s st').
Proof.
  intros H. rewrite rpn_loop_eq. destruct lt_dec; [reflexivity | lia].
Qed.

(** Induction along the loop: a property of a state follows from the
    property of the state after one more iteration. *)
Lemma scan_ind (s : list Symbol) (P : scan -> Prop) :
  (forall st,
      (forall st', i st < length s -> rpn_step s st = Ok st' -> P st') -> P st) ->
  forall st, P st.
Proof.
  intros Hstep st.
  remember (length s - i st) as m eqn:Hm.
  revert st Hm. induction m as [m IH] using lt_wf_ind. intros st Hm.
  apply Hstep. intros st' Hlt Hst.
  apply (IH (length s - i st')); [|reflexivity].
  apply rpn_step_progress in Hst. lia.
Qed.

(** ** Characters and the input around the index *)

Lemma skipn_cons_nth (s : list Symbol) (n : nat) (c : Symbol) (rest : list Symbol) :
  skipn n s = c :: rest ->
  n < length s /\ nth n s Symbol.null = c /\ skipn (S n) s = rest.
Proof.
  revert n. induction s as [|x s IH]; intros n H.
  - rewrite skipn_nil in H. discriminate.
  - destruct n as [|n]; simpl in *.
    + injection H as -> ->. repeat split. lia.
    + destruct (IH n H) as (? & ? & ?). repeat split; try assumption. lia.
Qed.

Lemma skipn_app_length (s : list Symbol) (n : nat) (l rest : list Symbol) :
  skipn n s = l ++ rest -> l <> [] ->
  skipn (n + length l) s = rest /\ firstn (n + length l) s = firstn n s ++ l /\
  n + length l <= length s.
Proof.
  intros H Hl.
  assert (Hn : n < length s).
  { destruct (Nat.lt_ge_cases n (length s)) as [?|Hge]; [assumption|].
    rewrite (skipn_all2 s Hge) in H. destruct l; [congruence | discriminate]. }
  pose proof (firstn_skipn n s) as Hs.
  rewrite H in Hs.
  assert (Hlen : length (firstn n s) = n) by (apply firstn_length_le; lia).
  assert (Hsplit : s = (firstn n s ++ l) ++ rest) by (rewrite <- app_assoc; auto).
  assert (Hlen2 : length (firstn n s ++ l) = n + length l)
    by (rewrite length_app; lia).
  repeat split.
  - rewrite Hsplit at 1. rewrite <- Hlen2.
    rewrite skipn_app, skipn_all, Nat.sub_diag. reflexivity.
  - rewrite Hsplit at 1. rewrite <- Hlen2.
    rewrite firstn_app, firstn_all, Nat.sub_diag. simpl. apply app_nil_r.
  - rewrite Hsplit, length_app, Hlen2. lia.
Qed.

Lemma periods_cons (c : Symbol) (l : list Symbol) :
  periods (c :: l) = (if is_period c then 1 else 0) + periods l.
Proof. unfold periods. simpl. destruct (is_period c); reflexivity. Qed.

Lemma in_value_type (c : Symbol) :
  in_value c = true ->
  (type c = Ok SymbolType.val /\ is_period c = false) \/
  (type c = Ok SymbolType.period /\ is_period c = true).
Proof.
  unfold in_value, is_val, is_period.
  destruct (type c) as [t| |]; try discriminate.
  destruct t; try discriminate; auto.
Qed.

(** The loop of the value constructor over a value and what follows it. *)
Lemma value_end_app (l rest : list Symbol) (e : nat) (nfp : bool) :
  forallb in_value l = true ->
  periods l <= (if nfp then 1 else 0) ->
  stops_value rest = true ->
  value_end (l ++ rest) e nfp = Ok (e + length l).
Proof.
  revert e nfp. induction l as [|c l IH]; intros e nfp Hall Hper Hstop.
  - simpl. rewrite Nat.add_0_r.
    destruct rest as [|c rest]; [reflexivity|].
    simpl in *. destruct (type c) as [t| |]; try discriminate.
    destruct t; simpl; try discriminate; reflexivity.
  - simpl in Hall. apply andb_prop in Hall as [Hc Hall].
    rewrite periods_cons in Hper.
    destruct (in_value_type c Hc) as [[Ht Hp]|[Ht Hp]];
      rewrite Hp in Hper; simpl; rewrite Ht; simpl.
    + rewrite IH by assumption. f_equal. lia.
    + destruct nfp; [|lia].
      rewrite IH; [f_equal; lia | assumption | lia | assumption].
Qed.

Lemma value_end_inv (r : list Symbol) (e0 : nat) (nfp : bool) (e : nat) :
  value_end r e0 nfp = Ok e ->
  exists l rest,
    r = l ++ rest /\ forallb in_value l = true /\
    periods l <= (if nfp then 1 else 0) /\ stops_value rest = true /\
    e = e0 + length l.
Proof.
  revert e0 nfp. induction r as [|c r IH]; intros e0 nfp H; simpl in H.
  - injection H as <-. exists [], []. simpl. repeat split; try lia.
    unfold periods. simpl. lia.
  - destruct (type c) as [t| |] eqn:Ht; simpl in H; try discriminate.
    assert (Hstop : forall t', t = t' -> t' <> SymbolType.val ->
                               t' <> SymbolType.period -> Ok e0 = Ok e ->
              exists l rest, c :: r = l ++ rest /\ forallb in_value l = true /\
                periods l <= (if nfp then 1 else 0) /\ stops_value rest = true /\
                e = e0 + length l).
    { intros t' -> Hv Hp He. injection He as <-. exists [], (c :: r).
      simpl. rewrite Ht. repeat split; try lia.
      - unfold periods; simpl; lia.
      - destruct t'; congruence. }
    destruct t; try (apply (Hstop _ eq_refl); [discriminate | discriminate | exact H]).
    + destruct (IH _ _ H) as (l & rest & -> & Hall & Hper & Hs & ->).
      exists (c :: l), rest. rewrite periods_cons.
      unfold in_value at 1, is_val, is_period. simpl. rewrite Ht. simpl.
      repeat split; auto; lia.
    + destruct nfp; [|discriminate].
      destruct (IH _ _ H) as (l & rest & -> & Hall & Hper & Hs & ->).
      exists (c :: l), rest. rewrite periods_cons.
      unfold in_value at 1, is_val, is_period. simpl. rewrite Ht. simpl.
      repeat split; auto; simpl in Hper; lia.
Qed.

Lemma type_open (c : Symbol) : type c = Ok SymbolType.open -> c = Symbol.open.
Proof.
  destruct c as [[] [] [] [] [] [] [] []]; simpl; intros H;
    try discriminate; reflexivity.
Qed.

Lemma type_close (c : Symbol) : type c = Ok SymbolType.close -> c = Symbol.close.
Proof.
  destruct c as [[] [] [] [] [] [] [] []]; simpl; intros H;
    try discriminate; reflexivity.
Qed.

(** ** The relation and the function agree *)

Lemma is_literal_cons (c : Symbol) (l : list Symbol) :
  is_literal (c :: l) = true ->
  type c = Ok SymbolType.val /\ forallb in_value (c :: l) = true /\
  periods (c :: l) <= 1.
Proof.
  unfold is_literal. intros H.
  apply andb_prop in H as [H Hper]. apply andb_prop in H as [Hc Hall].
  apply Nat.leb_le in Hper. repeat split; try assumption.
  unfold is_val in Hc. destruct (type c) as [t| |]; try discriminate.
  destruct t; try discriminate. reflexivity.
Qed.

(** The relation describes the iterations that go on. *)
Lemma step_rpn_step (s : list Symbol) (st st' : scan) :
  step s st st' -> i st < length s /\ rpn_step s st = Ok st'.
Proof.
  intros H. destruct H as [n e o l rest Hs Hl Hstop | n e o c rest e' o' Hs Ht Hp
                          | n e o rest Hs | n e o rest e' back o' Hs Hp Hb
                          | n e o c rest Hs Ht].
  - destruct l as [|c l]; [discriminate|].
    destruct (skipn_cons_nth s n Hs) as (Hn & Hc & _).
    destruct (is_literal_cons c l Hl) as (Ht & Hall & Hper).
    split; [exact Hn|]. unfold rpn_step. simpl. rewrite Hc, Ht. simpl.
    unfold Part_value. rewrite Hs.
    rewrite (value_end_app (c :: l) rest n true Hall Hper Hstop). simpl.
    rewrite Hc. do 3 f_equal. lia.
  - destruct (skipn_cons_nth s n Hs) as (Hn & Hc & _).
    split; [exact Hn|]. unfold rpn_step, Part_opr. simpl.
    rewrite Hc, Ht. simpl. rewrite Hp. reflexivity.
  - destruct (skipn_cons_nth s n Hs) as (Hn & Hc & _).
    split; [exact Hn|]. unfold rpn_step, Part_opr. simpl.
    rewrite Hc. reflexivity.
  - destruct (skipn_cons_nth s n Hs) as (Hn & Hc & _).
    split; [exact Hn|]. unfold rpn_step. simpl.
    rewrite Hc. simpl. rewrite Hp, Hb. reflexivity.
  - destruct (skipn_cons_nth s n Hs) as (Hn & Hc & _).
    split; [exact Hn|]. unfold rpn_step. simpl.
    rewrite Hc, Ht. reflexivity.
Qed.

Lemma rpn_step_step (s : list Symbol) (st st' : scan) :
  rpn_step s st = Ok st' -> step s st st'.
Proof.
  destruct st as [n e o]. unfold rpn_step. simpl. intros H.
  destruct (type (nth n s Symbol.null)) as [t| |] eqn:Ht; simpl in H;
    try discriminate.
  pose proof (skipn_nth s (type_nth_in_range s n Ht)) as Hs.
  destruct t; try discriminate.
  - unfold Part_value in H.
    destruct (value_end (skipn n s) n true) as [e1| |] eqn:He; simpl in H;
      try discriminate.
    injection H as <-.
    destruct (value_end_inv _ _ _ He) as (l & rest & Hl & Hall & Hper & Hstop & ->).
    destruct l as [|c l].
    { simpl in Hl. rewrite Hs in Hl. rewrite <- Hl in Hstop.
      simpl in Hstop. rewrite Ht in Hstop. discriminate. }
    assert (Hc : nth n s Symbol.null = c).
    { rewrite Hs in Hl. simpl in Hl. congruence. }
    subst c.
    replace (S (n + length (nth n s Symbol.null :: l) - 1))
      with (n + length (nth n s Symbol.null :: l)) by (simpl; lia).
    apply (step_val s n e o (nth n s Symbol.null :: l) rest Hl); [|exact Hstop].
    unfold is_literal. rewrite Hall. unfold is_val. rewrite Ht.
    simpl. apply Nat.leb_le. exact Hper.
  - destruct (pop_operators _ e o) as [[e' o']| |] eqn:Hp; simpl in H;
      try discriminate.
    injection H as <-. unfold Part_opr.
    eapply step_opr; eauto.
  - injection H as <-. unfold Part_opr.
    rewrite (type_open _ Ht) in *. eapply step_open; eauto.
  - destruct (pop_to_open e o) as [e' o'] eqn:Hp.
    destruct o' as [|back o']; try discriminate.
    destruct (Ascii.eqb (symbol back) Symbol.open) eqn:Hb; try discriminate.
    injection H as <-. rewrite (type_close _ Ht) in *.
    apply Ascii.eqb_eq in Hb. eapply step_close; eauto.
  - injection H as <-. eapply step_blank; eauto.
Qed.

(** ** What the loops move from the stack to the output *)

Lemma pop_operators_split (c : Symbol) (o e e' o' : list Part) :
  pop_operators c e o = Ok (e', o') ->
  exists popped, o = popped ++ o' /\ e' = e ++ popped /\ Forall not_open popped.
Proof.
  revert e. induction o as [|back o IH]; intros e H; simpl in H.
  - injection H as <- <-. exists []. simpl. rewrite ?app_nil_r. auto.
  - assert (Hstop : Ok (e, back :: o) = Ok (e', o') ->
                    exists popped, back :: o = popped ++ o' /\
                                   e' = e ++ popped /\ Forall not_open popped).
    { intros H'. injection H' as <- <-. exists []. simpl. rewrite ?app_nil_r. auto. }
    assert (Hpop : symbol back <> Symbol.open ->
                   pop_operators c (e ++ [back]) o = Ok (e', o') ->
                   exists popped, back :: o = popped ++ o' /\
                                  e' = e ++ popped /\ Forall not_open popped).
    { intros Hb H'. destruct (IH _ H') as (popped & -> & -> & Hall).
      exists (back :: popped). rewrite <- app_assoc. simpl. auto. }
    destruct (Ascii.eqb (symbol back) Symbol.open) eqn:Hb; [auto|].
    apply Ascii.eqb_neq in Hb.
    destruct (prec (symbol back)) as [pb| |]; simpl in H; try discriminate.
    destruct (prec c) as [ps| |]; simpl in H; try discriminate.
    destruct (pb <? ps)%Z; [auto|].
    destruct (associa c) as [a| |]; simpl in H; try discriminate.
    destruct a; [|auto].
    destruct (pb =? ps)%Z; auto.
Qed.

Lemma pop_to_open_split (o e e' o' : list Part) :
  pop_to_open e o = (e', o') ->
  exists popped, o = popped ++ o' /\ e' = e ++ popped /\ Forall not_open popped.
Proof.
  revert e. induction o as [|back o IH]; intros e H; simpl in H.
  - injection H as <- <-. exists []. simpl. rewrite ?app_nil_r. auto.
  - destruct (Ascii.eqb (symbol back) Symbol.open) eqn:Hb.
    + injection H as <- <-. exists []. simpl. rewrite ?app_nil_r. auto.
    + apply Ascii.eqb_neq in Hb.
      destruct (IH _ H) as (popped & -> & -> & Hall).
      exists (back :: popped). rewrite <- app_assoc. simpl. auto.
Qed.

(** The loop of the close case stops at an open parenthesis or at the
    bottom of the stack: of the two assertions behind it, the second never
    fails. *)
Lemma pop_to_open_stops (o e e' : list Part) (back : Part) (o' : list Part) :
  pop_to_open e o = (e', back :: o') -> symbol back = Symbol.open.
Proof.
  revert e. induction o as [|q o IH]; intros e H; simpl in H.
  - discriminate.
  - destruct (Ascii.eqb (symbol q) Symbol.open) eqn:Hq.
    + injection H as _ <- _. apply Ascii.eqb_eq. exact Hq.
    + exact (IH _ H).
Qed.

Lemma rpn_drain_split (o e e' : list Part) :
  rpn_drain e o = Ok e' -> e' = e ++ o /\ Forall not_open o.
Proof.
  revert e. induction o as [|back o IH]; intros e H; simpl in H.
  - injection H as <-. rewrite app_nil_r. auto.
  - destruct (Ascii.eqb (symbol back) Symbol.open) eqn:Hb; [discriminate|].
    apply Ascii.eqb_neq in Hb.
    destruct (IH _ H) as (-> & Hall). rewrite <- app_assoc. auto.
Qed.

(** ** The conversion stops the process or returns *)

Lemma value_end_defined (r : list Symbol) (e : nat) (nfp : bool) (u : undefined) :
  value_end r e nfp <> Undefined u.
Proof.
  revert e nfp. induction r as [|c r IH]; intros e nfp; simpl; [discriminate|].
  destruct c as [[] [] [] [] [] [] [] []]; simpl; try discriminate;
    try apply IH.
  destruct nfp; [apply IH | discriminate].
Qed.

Lemma pop_operators_defined (c : Symbol) (o e : list Part) (u : undefined) :
  pop_operators c e o <> Undefined u.
Proof.
  revert e. induction o as [|back o IH]; intros e; simpl; [discriminate|].
  destruct (Ascii.eqb _ _); [discriminate|].
  destruct (prec (symbol back)) as [pb| |] eqn:Hpb; simpl; try discriminate.
  - destruct (prec c) as [ps| |] eqn:Hps; simpl; try discriminate.
    + destruct (pb <? ps)%Z; [apply IH|].
      destruct (associa c) as [a| |] eqn:Ha; simpl; try discriminate.
      * destruct a; [|discriminate].
        destruct (pb =? ps)%Z; [apply IH | discriminate].
      * destruct c as [[] [] [] [] [] [] [] []]; discriminate.
    + destruct c as [[] [] [] [] [] [] [] []]; discriminate.
  - destruct (symbol back) as [[] [] [] [] [] [] [] []]; discriminate.
Qed.

Lemma type_defined (c : Symbol) (u : undefined) : type c <> Undefined u.
Proof. destruct c as [[] [] [] [] [] [] [] []]; discriminate. Qed.

Lemma rpn_step_defined (s : list Symbol) (st : scan) (u : undefined) :
  rpn_step s st <> Undefined u.
Proof.
  unfold rpn_step.
  destruct (type (nth (i st) s Symbol.null)) as [t| |] eqn:Ht; simpl;
    try discriminate; [|exfalso; exact (type_defined _ Ht)].
  destruct t; try discriminate.
  - unfold Part_value.
    destruct (value_end _ _ _) as [e| |] eqn:He; simpl; try discriminate.
    intros H. injection H as ->. exact (value_end_defined _ _ _ He).
  - destruct (pop_operators _ _ _) as [[e o]| |] eqn:Hp; simpl; try discriminate.
    intros H. injection H as ->. exact (pop_operators_defined _ _ _ Hp).
  - destruct (pop_to_open _ _) as [e o]. destruct o as [|b o]; [discriminate|].
    destruct (Ascii.eqb _ _); discriminate.
Qed.

Lemma rpn_drain_defined (o e : list Part) (u : undefined) :
  rpn_drain e o <> Undefined u.
Proof.
  revert e. induction o as [|b o IH]; intros e; simpl; [discriminate|].
  destruct (Ascii.eqb _ _); [discriminate | apply IH].
Qed.

Lemma rpn_loop_defined (s : list Symbol) (u : undefined) (st : scan) :
  rpn_loop s st <> Undefined u.
Proof.
  induction st as [st IH] using (scan_ind s).
  rewrite rpn_loop_eq. destruct lt_dec as [Hlt|Hge].
  - destruct (rpn_step s st) as [st'| |] eqn:Hst; simpl; try discriminate.
    + apply IH; auto.
    + intros H. injection H as ->. exact (rpn_step_defined _ _ Hst).
  - apply rpn_drain_defined.
Qed.

(** A conversion that is not stopped returns. *)
Lemma rpn_Ok_or_Fatal (s : list Symbol) (expr0 : list Part) :
  (exists expr, rpn s expr0 = Ok expr) \/ (exists f, rpn s expr0 = Fatal f).
Proof.
  destruct (rpn s expr0) as [e|f|u] eqn:H; eauto.
  exfalso. exact (rpn_loop_defined _ _ H).
Qed.

(** ** Invariants of the loop *)

(** A property that every iteration keeps holds when the loop is left,
    and the result is what the final loop makes of that state. *)
Lemma rpn_loop_invariant (s : list Symbol) (Inv : scan -> Prop) :
  (forall st st', Inv st -> step s st st' -> Inv st') ->
  forall st expr',
    Inv st -> rpn_loop s st = Ok expr' ->
    exists st', Inv st' /\ length s <= i st' /\
                rpn_drain (expr st') (oprs st') = Ok expr'.
Proof.
  intros Hkeep st. induction st as [st IH] using (scan_ind s).
  intros expr' Hinv H. rewrite rpn_loop_eq in H.
  destruct lt_dec as [Hlt|Hge].
  - destruct (rpn_step s st) as [st'| |] eqn:Hst; simpl in H; try discriminate.
    apply (IH st' Hlt eq_refl expr'); [|exact H].
    apply (Hkeep st st' Hinv). apply rpn_step_step. exact Hst.
  - exists st. repeat split; [exact Hinv | lia | exact H].
Qed.

(** ** The output holds numbers and operators only *)

Lemma number_or_operator_no_parenthesis (p : Part) :
  number_or_operator p -> ~ parenthesis p.
Proof.
  unfold number_or_operator, parenthesis.
  intros [H|H] [Hp|Hp]; rewrite Hp in H; discriminate.
Qed.

Lemma popped_operators (popped : list Part) :
  Forall operator_or_open popped -> Forall not_open popped ->
  Forall number_or_operator popped.
Proof.
  intros Ho Hn. induction popped as [|p popped IH]; constructor.
  - inversion Ho as [|? ? [Hp|Hp] _]; inversion Hn as [|? ? Hq _]; subst.
    + right. exact Hp.
    + contradiction.
  - inversion Ho; inversion Hn; auto.
Qed.

Lemma parts_sorted_out_step (s : list Symbol) (st st' : scan) :
  parts_sorted_out st -> step s st st' -> parts_sorted_out st'.
Proof.
  unfold parts_sorted_out.
  intros [He Ho] H.
  destruct H as [n e o l rest Hs Hl Hstop | n e o c rest e' o' Hs Ht Hp
                | n e o rest Hs | n e o rest e' back o' Hs Hp Hb
                | n e o c rest Hs Ht]; simpl in *.
  - split; [|exact Ho]. apply Forall_app. split; [exact He|].
    constructor; [|constructor].
    destruct l as [|c l]; [discriminate|].
    left. simpl. apply (is_literal_cons c l Hl).
  - destruct (pop_operators_split _ _ _ Hp) as (popped & -> & -> & Hn).
    apply Forall_app in Ho as [Hpo Ho'].
    split.
    + apply Forall_app. split; [exact He|]. apply popped_operators; assumption.
    + constructor; [left; exact Ht | exact Ho'].
  - split; [exact He|]. constructor; [right; reflexivity | exact Ho].
  - destruct (pop_to_open_split _ _ Hp) as (popped & -> & -> & Hn).
    apply Forall_app in Ho as [Hpo Ho']. inversion Ho'; subst.
    split; [|assumption].
    apply Forall_app. split; [exact He|]. apply popped_operators; assumption.
  - split; assumption.
Qed.

Lemma rpn_number_or_operator (s : list Symbol) (expr0 expr : list Part) :
  Forall number_or_operator expr0 ->
  rpn s expr0 = Ok expr -> Forall number_or_operator expr.
Proof.
  intros H0 H.
  destruct (@rpn_loop_invariant s parts_sorted_out (@parts_sorted_out_step s)
              (mkScan 0 expr0 []) expr) as (st & [He Ho] & _ & Hd).
  - split; [exact H0 | constructor].
  - exact H.
  - destruct (rpn_drain_split _ _ Hd) as (-> & Hn).
    apply Forall_app. split; [exact He|]. apply popped_operators; assumption.
Qed.

(** ** Parentheses that do not balance *)

Lemma paren_depth_app (l r : list Symbol) (d : nat) :
  paren_depth (l ++ r) d =
  match paren_depth l d with
  | Some d' => paren_depth r d'
  | None => None
  end.
Proof.
  revert d. induction l as [|c l IH]; intros d; simpl; [reflexivity|].
  destruct (Ascii.eqb c Symbol.open); [apply IH|].
  destruct (Ascii.eqb c Symbol.close); [|apply IH].
  destruct d; [reflexivity | apply IH].
Qed.

Lemma type_not_parenthesis (c : Symbol) (t : SymbolType.t) :
  type c = Ok t -> t <> SymbolType.open -> t <> SymbolType.close ->
  Ascii.eqb c Symbol.open = false /\ Ascii.eqb c Symbol.close = false.
Proof.
  destruct c as [[] [] [] [] [] [] [] []]; simpl; intros H Ho Hc;
    try discriminate; try (split; reflexivity);
    injection H as <-; congruence.
Qed.

Lemma paren_depth_other (c : Symbol) (t : SymbolType.t) (d : nat) :
  type c = Ok t -> t <> SymbolType.open -> t <> SymbolType.close ->
  paren_depth [c] d = Some d.
Proof.
  intros H Ho Hc. destruct (type_not_parenthesis c H Ho Hc) as [E1 E2].
  simpl. rewrite E1, E2. reflexivity.
Qed.

Lemma paren_depth_value (l : list Symbol) (d : nat) :
  forallb in_value l = true -> paren_depth l d = Some d.
Proof.
  induction l as [|c l IH]; intros H; [reflexivity|].
  simpl in H. apply andb_prop in H as [Hc Hl].
  change (c :: l) with ([c] ++ l). rewrite paren_depth_app.
  destruct (in_value_type c Hc) as [[Ht _]|[Ht _]];
    rewrite (paren_depth_other c d Ht) by discriminate; auto.
Qed.

Lemma opens_app (a b : list Part) : opens (a ++ b) = opens a + opens b.
Proof. unfold opens. rewrite filter_app, length_app. reflexivity. Qed.

Lemma opens_not_open (popped : list Part) :
  Forall not_open popped -> opens popped = 0.
Proof.
  unfold opens. induction 1 as [|p popped Hp _ IH]; [reflexivity|].
  simpl. apply Ascii.eqb_neq in Hp. rewrite Hp. exact IH.
Qed.

Lemma opens_cons (p : Part) (o : list Part) :
  opens (p :: o) = (if Ascii.eqb (symbol p) Symbol.open then 1 else 0) + opens o.
Proof. unfold opens. simpl. destruct (Ascii.eqb _ _); reflexivity. Qed.

Lemma firstn_next (s : list Symbol) (n : nat) (c : Symbol) (rest : list Symbol) :
  skipn n s = c :: rest ->
  firstn (S n) s = firstn n s ++ [c] /\ S n <= length s.
Proof.
  intros H.
  destruct (@skipn_app_length s n [c] rest H) as (_ & Hf & Hle); [discriminate|].
  simpl in Hf, Hle. rewrite Nat.add_1_r in Hf, Hle. auto.
Qed.

Lemma depth_on_stack_step (s : list Symbol) (st st' : scan) :
  depth_on_stack s st -> step s st st' -> depth_on_stack s st'.
Proof.
  unfold depth_on_stack.
  intros [_ Hd] H.
  destruct H as [n e o l rest Hs Hl Hstop | n e o c rest e' o' Hs Ht Hp
                | n e o rest Hs | n e o rest e' back o' Hs Hp Hb
                | n e o c rest Hs Ht]; cbn [i expr oprs] in *.
  - destruct l as [|c l]; [discriminate|].
    destruct (@skipn_app_length s n (c :: l) rest Hs) as (_ & Hf & Hle);
      [discriminate|].
    split; [exact Hle|]. rewrite Hf, paren_depth_app, Hd.
    apply paren_depth_value. apply (is_literal_cons c l Hl).
  - destruct (firstn_next s n Hs) as [Hf Hle].
    split; [exact Hle|]. rewrite Hf, paren_depth_app, Hd.
    destruct (pop_operators_split _ _ _ Hp) as (popped & -> & -> & Hn).
    rewrite (paren_depth_other c _ Ht) by discriminate.
    destruct (type_not_parenthesis c Ht) as [E _]; try discriminate.
    rewrite opens_app, (opens_not_open Hn), opens_cons. cbn [symbol].
    rewrite E. reflexivity.
  - destruct (firstn_next s n Hs) as [Hf Hle].
    split; [exact Hle|]. rewrite Hf, paren_depth_app, Hd.
    rewrite opens_cons. reflexivity.
  - destruct (firstn_next s n Hs) as [Hf Hle].
    split; [exact Hle|]. rewrite Hf, paren_depth_app, Hd.
    destruct (pop_to_open_split _ _ Hp) as (popped & -> & -> & Hn).
    rewrite opens_app, (opens_not_open Hn), opens_cons, Hb. reflexivity.
  - destruct (firstn_next s n Hs) as [Hf Hle].
    split; [exact Hle|]. rewrite Hf, paren_depth_app, Hd.
    apply (paren_depth_other c _ Ht); discriminate.
Qed.

(** A conversion that returns has read balanced parentheses. *)
Lemma rpn_Ok_balanced (s : list Symbol) (expr0 expr : list Part) :
  rpn s expr0 = Ok expr -> balanced s = true.
Proof.
  intros H.
  destruct (@rpn_loop_invariant s (depth_on_stack s) (@depth_on_stack_step s)
              (mkScan 0 expr0 []) expr) as (st & [Hle Hd] & Hge & Hdrain).
  - split; [simpl; lia | reflexivity].
  - exact H.
  - destruct (rpn_drain_split _ _ Hdrain) as (_ & Hn).
    rewrite firstn_all2 in Hd by exact Hge.
    unfold balanced. rewrite Hd, (opens_not_open Hn). reflexivity.
Qed.

(** ** Several iterations *)

Lemma rpn_loop_step (s : list Symbol) (st st' : scan) :
  step s st st' -> rpn_loop s st = rpn_loop s st'.
Proof.
  intros H. destruct (step_rpn_step H) as [Hlt Hst].
  rewrite (rpn_loop_next s st Hlt), Hst. reflexivity.
Qed.

Lemma rpn_loop_steps (s : list Symbol) (st st' : scan) :
  steps s st st' -> rpn_loop s st = rpn_loop s st'.
Proof.
  induction 1 as [st | st st' st'' H _ IH]; [reflexivity|].
  rewrite (rpn_loop_step H). exact IH.
Qed.

(** An iteration that stops the process stops the conversion. *)
Lemma rpn_loop_fault (s : list Symbol) (st : scan) (f : fault) :
  i st < length s -> rpn_step s st = Fatal f -> rpn_loop s st = Fatal f.
Proof.
  intros Hlt H. rewrite (rpn_loop_next s st Hlt), H. reflexivity.
Qed.

(** ** Blank input *)

Lemma whitespace_blank (c : Symbol) : whitespace c -> type c = Ok SymbolType.blank.
Proof. intros [->|[->| ->]]; reflexivity. Qed.

Lemma rpn_loop_whitespace (s : list Symbol) :
  Forall whitespace s ->
  forall st, rpn_loop s st = rpn_drain (expr st) (oprs st).
Proof.
  intros Hall st. induction st as [st IH] using (scan_ind s).
  rewrite rpn_loop_eq. destruct lt_dec as [Hlt|Hge]; [|reflexivity].
  assert (Ht : type (nth (i st) s Symbol.null) = Ok SymbolType.blank).
  { apply whitespace_blank. rewrite Forall_forall in Hall.
    apply Hall. apply nth_In. exact Hlt. }
  assert (Hst : rpn_step s st = Ok (mkScan (S (i st)) (expr st) (oprs st))).
  { unfold rpn_step. rewrite Ht. reflexivity. }
  rewrite Hst. simpl. apply (IH _ Hlt Hst).
Qed.

Lemma rpn_whitespace (s : list Symbol) (expr0 : list Part) :
  Forall whitespace s -> rpn s expr0 = Ok expr0.
Proof.
  intros H. unfold rpn. rewrite (rpn_loop_whitespace H). reflexivity.
Qed.

(** ** The sizes of the value stack *)

Lemma stack_run_app (e1 e2 : list Part) (n : nat) :
  stack_run (e1 ++ e2) n =
  match stack_run e1 n with
  | Some m => stack_run e2 m
  | None => None
  end.
Proof.
  revert n. induction e1 as [|p e1 IH]; intros n; simpl; [reflexivity|].
  destruct (type (symbol p)) as [t| |]; try reflexivity.
  destruct t; try reflexivity; [apply IH|].
  destruct n as [|[|m]]; try reflexivity. apply IH.
Qed.

(** Operators popped one after the other each take one value away. *)
Lemma stack_run_operators (popped : list Part) (m : nat) :
  Forall (fun p => type (symbol p) = Ok SymbolType.opr) popped ->
  stack_run popped (length popped + S m) = Some (S m).
Proof.
  induction 1 as [|p popped Hp _ IH]; [reflexivity|].
  simpl. rewrite Hp.
  destruct (length popped + S m) as [|k] eqn:Hk; [lia|]. exact IH.
Qed.

Section EvaluatorFacts.

Variable fmod : double -> double -> double.
Variable pow : double -> double -> double.

Lemma computeVal_span (s : list Symbol) (p : Part) :
  computeVal s p = literal_value (span s p).
Proof. reflexivity. Qed.

Lemma applyOperator_opr (a b : double) (c : Symbol) :
  type c = Ok SymbolType.opr -> exists r, applyOperator fmod pow a b c = Ok r.
Proof.
  destruct c as [[] [] [] [] [] [] [] []]; simpl; intros H;
    try discriminate; eexists; reflexivity.
Qed.

(** [stack_run] follows the sizes of [evld] along the loop of [eval]. *)
Lemma eval_loop_stack_run (s : list Symbol) (expr : list Part)
  (evld evld' : list double) :
  eval_loop fmod pow s expr evld = Ok evld' ->
  stack_run expr (length evld) = Some (length evld').
Proof.
  revert evld. induction expr as [|p expr IH]; intros evld H; simpl in *.
  - injection H as <-. reflexivity.
  - destruct (type (symbol p)) as [t| |]; simpl in H; try discriminate.
    destruct t; try discriminate.
    + destruct (computeVal s p) as [v| |]; simpl in H; try discriminate.
      apply (IH (v :: evld) H).
    + destruct evld as [|b [|a evld]]; try discriminate.
      destruct (applyOperator fmod pow a b (symbol p)) as [r| |];
        simpl in H; try discriminate.
      apply (IH (r :: evld) H).
Qed.

(** Where the sizes allow every operator its two values, the loop
    returns a stack of the final size, unless a number is out of the range
    of [double]. *)
Lemma stack_run_eval_loop (s : list Symbol) (expr : list Part)
  (evld : list double) (n : nat) :
  stack_run expr (length evld) = Some n ->
  (exists evld', eval_loop fmod pow s expr evld = Ok evld' /\ length evld' = n) \/
  eval_loop fmod pow s expr evld = Undefined result_uninitialised.
Proof.
  revert evld. induction expr as [|p expr IH]; intros evld H; simpl in *.
  - injection H as <-. left. eauto.
  - destruct (type (symbol p)) as [t| |] eqn:Ht; try discriminate.
    destruct t; try discriminate; simpl.
    + unfold computeVal.
      destruct (from_chars (span s p)) as [v|]; simpl; [|auto].
      apply (IH (v :: evld) H).
    + destruct evld as [|b [|a evld]]; try discriminate.
      destruct (applyOperator_opr a b (symbol p) Ht) as [r ->]. simpl.
      apply (IH (r :: evld) H).
Qed.

(** An operator with fewer than two values: the access the source makes
    is out of the bounds of [evld], and nothing stops the process. *)
Lemma eval_loop_underflow (s : list Symbol) (p : Part) (expr : list Part)
  (evld : list double) :
  type (symbol p) = Ok SymbolType.opr -> length evld < 2 ->
  eval_loop fmod pow s (p :: expr) evld = Undefined evld_out_of_bounds.
Proof.
  intros Ht Hlen. simpl. rewrite Ht. simpl.
  destruct evld as [|b [|a evld]]; try reflexivity. simpl in Hlen. lia.
Qed.

Lemma eval_loop_app (s : list Symbol) (e1 e2 : list Part) (evld : list double) :
  eval_loop fmod pow s (e1 ++ e2) evld =
  (evld' <- eval_loop fmod pow s e1 evld ;; eval_loop fmod pow s e2 evld').
Proof.
  revert evld. induction e1 as [|p e1 IH]; intros evld; simpl; [reflexivity|].
  destruct (type (symbol p)) as [t| |]; simpl; try reflexivity.
  destruct t; simpl; try reflexivity.
  - destruct (computeVal s p); simpl; try reflexivity. apply IH.
  - destruct evld as [|b [|a evld]]; try reflexivity.
    destruct (applyOperator fmod pow a b (symbol p)); simpl; try reflexivity.
    apply IH.
Qed.

End EvaluatorFacts.

(** ** Operands and operators in turn *)

Lemma positions_app (l r : list Symbol) (q : position) :
  positions q (l ++ r) =
  match positions q l with
  | Some q' => positions q' r
  | None => None
  end.
Proof.
  revert q. induction l as [|c l IH]; intros q; simpl; [reflexivity|].
  destruct (next_position q c); [apply IH | reflexivity].
Qed.

Lemma positions_in_number (l : list Symbol) :
  forallb in_value l = true -> positions in_number l = Some in_number.
Proof.
  induction l as [|c l IH]; intros H; [reflexivity|].
  simpl in H. apply andb_prop in H as [Hc Hl]. simpl.
  unfold next_position.
  destruct (in_value_type c Hc) as [[-> _]|[-> _]]; auto.
Qed.

Lemma opens_le_length (o : list Part) : opens o <= length o.
Proof. unfold opens. apply filter_length_le. Qed.

Lemma operators_app (a b : list Part) : operators (a ++ b) = operators a + operators b.
Proof.
  unfold operators. rewrite opens_app, length_app.
  pose proof (opens_le_length a). pose proof (opens_le_length b). lia.
Qed.

Lemma operators_not_open (popped : list Part) :
  Forall not_open popped -> operators popped = length popped.
Proof. intros H. unfold operators. rewrite (opens_not_open H). lia. Qed.

Lemma operators_cons (p : Part) (o : list Part) :
  operators (p :: o) =
  (if Ascii.eqb (symbol p) Symbol.open then 0 else 1) + operators o.
Proof.
  unfold operators. rewrite opens_cons. simpl length.
  pose proof (opens_le_length o).
  destruct (Ascii.eqb _ _); lia.
Qed.

Lemma popped_are_operators (popped : list Part) :
  Forall operator_or_open popped -> Forall not_open popped ->
  Forall (fun p => type (symbol p) = Ok SymbolType.opr) popped.
Proof.
  intros Ho Hn. induction popped as [|p popped IH]; constructor.
  - inversion Ho as [|? ? [Hp|Hp] _]; inversion Hn as [|? ? Hq _]; subst.
    + exact Hp.
    + contradiction.
  - inversion Ho; inversion Hn; auto.
Qed.

Lemma skipn_next (s : list Symbol) (n : nat) (c : Symbol) (rest : list Symbol) :
  skipn n s = c :: rest -> skipn (S n) s = rest /\ S n <= length s.
Proof.
  intros H. destruct (skipn_cons_nth s n H) as (Hlt & _ & Hs). split; [exact Hs | lia].
Qed.

Lemma in_turn_step (s : list Symbol) (qf : position) (st st' : scan) :
  in_turn s qf st -> step s st st' -> in_turn s qf st'.
Proof.
  unfold in_turn.
  intros (q & _ & Hq & Hstops & Hoo & Hrun) H.
  destruct H as [n e o l rest Hs Hl Hstop | n e o c rest e' o' Hs Ht Hp
                | n e o rest Hs | n e o rest e' back o' Hs Hp Hb
                | n e o c rest Hs Ht]; cbn [i expr oprs] in *.
  - (* a number *)
    destruct l as [|c l]; [discriminate|].
    destruct (is_literal_cons c l Hl) as (Ht & Hall & _).
    destruct (@skipn_app_length s n (c :: l) rest Hs) as (Hs' & _ & Hle);
      [discriminate|].
    rewrite Hs in Hq, Hstops.
    assert (Hwant : q = want_operand).
    { destruct q; [reflexivity | |].
      - specialize (Hstops eq_refl). simpl in Hstops. rewrite Ht in Hstops.
        discriminate.
      - simpl in Hq. unfold next_position in Hq. rewrite Ht in Hq. discriminate. }
    subst q. exists in_number. rewrite Hs'.
    simpl in Hq. unfold next_position in Hq. rewrite Ht in Hq.
    simpl in Hall. apply andb_prop in Hall as [_ Hall].
    rewrite positions_app, (positions_in_number l Hall) in Hq.
    repeat split; auto.
    rewrite stack_run_app, Hrun. simpl. rewrite Ht. f_equal. simpl. lia.
  - (* an operator *)
    destruct (skipn_next s n Hs) as [Hs' Hle].
    rewrite Hs in Hq. simpl in Hq. unfold next_position in Hq. rewrite Ht in Hq.
    exists want_operand. rewrite Hs'.
    destruct (pop_operators_split _ _ _ Hp) as (popped & -> & -> & Hn).
    apply Forall_app in Hoo as [Hpo Hoo].
    destruct (type_not_parenthesis c Ht) as [E _]; try discriminate.
    assert (Hread : operand_read q = 1) by (destruct q; [discriminate | | ]; reflexivity).
    repeat split.
    + exact Hle.
    + destruct q; [discriminate | exact Hq | exact Hq].
    + discriminate.
    + constructor; [left; exact Ht | exact Hoo].
    + rewrite stack_run_app, Hrun, operators_app, (operators_not_open Hn), Hread.
      rewrite operators_cons. cbn [symbol]. rewrite E.
      replace (length popped + operators o' + 1)
        with (length popped + S (operators o')) by lia.
      rewrite (stack_run_operators _ (popped_are_operators Hpo Hn)).
      f_equal. simpl. lia.
  - (* an open parenthesis *)
    destruct (skipn_next s n Hs) as [Hs' Hle].
    rewrite Hs in Hq. simpl in Hq.
    exists want_operand. rewrite Hs'.
    destruct q; try discriminate.
    repeat split; try discriminate.
    + exact Hle.
    + exact Hq.
    + constructor; [right; reflexivity | exact Hoo].
    + rewrite Hrun, operators_cons. reflexivity.
  - (* a close parenthesis *)
    destruct (skipn_next s n Hs) as [Hs' Hle].
    rewrite Hs in Hq. simpl in Hq.
    exists after_operand. rewrite Hs'.
    destruct (pop_to_open_split _ _ Hp) as (popped & -> & -> & Hn).
    apply Forall_app in Hoo as [Hpo Hoo]. inversion Hoo as [|? ? _ Hoo']; subst.
    assert (Hread : operand_read q = 1) by (destruct q; [discriminate | | ]; reflexivity).
    repeat split.
    + exact Hle.
    + destruct q; [discriminate | exact Hq | exact Hq].
    + discriminate.
    + exact Hoo'.
    + rewrite stack_run_app, Hrun, operators_app, (operators_not_open Hn), Hread.
      rewrite operators_cons, Hb. simpl.
      replace (length popped + operators o' + 1)
        with (length popped + S (operators o')) by lia.
      rewrite (stack_run_operators _ (popped_are_operators Hpo Hn)).
      f_equal. simpl. lia.
  - (* a blank *)
    destruct (skipn_next s n Hs) as [Hs' Hle].
    rewrite Hs in Hq. simpl in Hq. unfold next_position in Hq. rewrite Ht in Hq.
    rewrite Hs'.
    destruct q.
    + exists want_operand. repeat split; auto; discriminate.
    + exists after_operand. repeat split; auto; discriminate.
    + exists after_operand. repeat split; auto; discriminate.
Qed.

(** A conversion of operands and operators in turn returns a postfix
    expression that leaves one value and never lacks one on the way. *)
Lemma rpn_in_turn (s : list Symbol) (expr : list Part) :
  alternates s = true -> rpn s [] = Ok expr -> stack_run expr 0 = Some 1.
Proof.
  unfold alternates. intros Halt H.
  destruct (positions want_operand s) as [qf|] eqn:Hqf; [|discriminate].
  destruct (@rpn_loop_invariant s (in_turn s qf) (@in_turn_step s qf)
              (mkScan 0 [] []) expr)
    as (st & (q & _ & Hq & _ & Hoo & Hrun) & Hge & Hdrain).
  - exists want_operand. simpl. repeat split; auto; try discriminate. lia.
  - exact H.
  - rewrite skipn_all2 in Hq by exact Hge. simpl in Hq. injection Hq as ->.
    destruct (rpn_drain_split _ _ Hdrain) as (-> & Hn).
    rewrite stack_run_app, Hrun, (operators_not_open Hn).
    assert (Hread : operand_read qf = 1) by (destruct qf; [discriminate | | ]; reflexivity).
    rewrite Hread.
    exact (stack_run_operators 0 (popped_are_operators Hoo Hn)).
Qed.

(** ** Reading an input piece by piece

    The input is split as [pre ++ suf], the index standing at
    [length pre]; each lemma moves one piece of [suf] over to [pre]. *)

Lemma skipn_at (s pre suf : list Symbol) :
  s = pre ++ suf -> skipn (length pre) s = suf.
Proof.
  intros ->. rewrite skipn_app, skipn_all, Nat.sub_diag. reflexivity.
Qed.

Lemma span_at (s pre l suf : list Symbol) (c : Symbol) :
  s = pre ++ l ++ suf ->
  span s (mkPart (length pre) (length (pre ++ l)) c) = l.
Proof.
  intros Hs. unfold span. cbn [start end_].
  rewrite (skipn_at pre (l ++ suf) Hs), length_app.
  replace (length pre + length l - length pre) with (length l) by lia.
  rewrite firstn_app, firstn_all, Nat.sub_diag. simpl. apply app_nil_r.
Qed.

Lemma span_value (s pre l suf : list Symbol) :
  s = pre ++ l ++ suf ->
  span s (mkPart (length pre) (length (pre ++ l)) (hd Symbol.null l)) = l.
Proof. apply span_at. Qed.

Lemma read_on (s pre l suf : list Symbol) :
  s = pre ++ l ++ suf -> s = (pre ++ l) ++ suf.
Proof. intros ->. apply app_assoc. Qed.

Lemma read_on_1 (s pre suf : list Symbol) (c : Symbol) :
  s = pre ++ c :: suf -> s = (pre ++ [c]) ++ suf.
Proof. intros ->. rewrite <- app_assoc. reflexivity. Qed.

Section Reading.

Variable s : list Symbol.
Variables pre suf : list Symbol.
Variables e o : list Part.

Lemma read_value (l : list Symbol) :
  s = pre ++ l ++ suf -> is_literal l = true -> stops_value suf = true ->
  rpn_loop s (mkScan (length pre) e o) =
  rpn_loop s (mkScan (length (pre ++ l))
                (e ++ [mkPart (length pre) (length (pre ++ l)) (hd Symbol.null l)])
                o).
Proof.
  intros Hs Hl Hstop.
  rewrite (rpn_loop_step
             (step_val s (length pre) e o l suf (skipn_at pre _ Hs) Hl Hstop)).
  rewrite <- length_app. reflexivity.
Qed.

Lemma read_operator (c : Symbol) (e' o' : list Part) :
  s = pre ++ c :: suf -> type c = Ok SymbolType.opr ->
  pop_operators c e o = Ok (e', o') ->
  rpn_loop s (mkScan (length pre) e o) =
  rpn_loop s (mkScan (length (pre ++ [c])) e'
                (mkPart (length pre) (length (pre ++ [c])) c :: o')).
Proof.
  intros Hs Ht Hp.
  rewrite (rpn_loop_step
             (step_opr s (length pre) e o (skipn_at pre _ Hs) Ht Hp)).
  rewrite length_app, !Nat.add_1_r. reflexivity.
Qed.

Lemma read_open :
  s = pre ++ Symbol.open :: suf ->
  rpn_loop s (mkScan (length pre) e o) =
  rpn_loop s (mkScan (length (pre ++ [Symbol.open])) e
                (mkPart (length pre) (length (pre ++ [Symbol.open])) Symbol.open
                   :: o)).
Proof.
  intros Hs.
  rewrite (rpn_loop_step (step_open s (length pre) e o (skipn_at pre _ Hs))).
  rewrite length_app, !Nat.add_1_r. reflexivity.
Qed.

Lemma read_close (e' : list Part) (back : Part) (o' : list Part) :
  s = pre ++ Symbol.close :: suf ->
  pop_to_open e o = (e', back :: o') -> symbol back = Symbol.open ->
  rpn_loop s (mkScan (length pre) e o) =
  rpn_loop s (mkScan (length (pre ++ [Symbol.close])) e' o').
Proof.
  intros Hs Hp Hb.
  rewrite (rpn_loop_step
             (step_close s (length pre) e o (skipn_at pre _ Hs) Hp Hb)).
  rewrite length_app, !Nat.add_1_r. reflexivity.
Qed.

Lemma read_blank (c : Symbol) :
  s = pre ++ c :: suf -> type c = Ok SymbolType.blank ->
  rpn_loop s (mkScan (length pre) e o) =
  rpn_loop s (mkScan (length (pre ++ [c])) e o).
Proof.
  intros Hs Ht.
  rewrite (rpn_loop_step
             (step_blank s (length pre) e o (skipn_at pre _ Hs) Ht)).
  rewrite length_app, !Nat.add_1_r. reflexivity.
Qed.

Lemma read_end :
  s = pre ++ [] -> rpn_loop s (mkScan (length pre) e o) = rpn_drain e o.
Proof.
  intros Hs. apply rpn_loop_end.
  simpl. rewrite Hs at 1. rewrite length_app. simpl. lia.
Qed.

End Reading.

(** Tactics that read the next piece of the input [Hs : s = pre ++ suf]
    in a goal about [rpn_loop s] at the index [length pre]. *)
Ltac read_literal Hs Hl Hspan :=
  rewrite (@read_value _ _ _ _ _ _ Hs Hl eq_refl);
  pose proof (@span_value _ _ _ _ Hs) as Hspan;
  apply read_on in Hs.
Ltac read_space Hs :=
  rewrite (@read_blank _ _ _ _ _ _ Hs eq_refl); apply read_on_1 in Hs.
Ltac read_symbol Hs :=
  erewrite (@read_operator _ _ _ _ _ _ _ _ Hs eq_refl) by (cbn; reflexivity);
  apply read_on_1 in Hs.
Ltac read_open_paren Hs :=
  rewrite (@read_open _ _ _ _ _ Hs); apply read_on_1 in Hs.
Ltac read_close_paren Hs :=
  erewrite (@read_close _ _ _ _ _ _ _ _ Hs) by (cbn; reflexivity);
  apply read_on_1 in Hs.
Ltac read_to_end Hs :=
  rewrite (@read_end _ _ _ _ Hs).

(** ** Multiplication binds tighter than addition *)

Lemma literal_head (l : list Symbol) :
  is_literal l = true -> type (hd Symbol.null l) = Ok SymbolType.val.
Proof.
  destruct l as [|c l]; [discriminate|]. intros H. apply (is_literal_cons c l H).
Qed.

Lemma rpn_sum_product (a b c : list Symbol) :
  is_literal a = true -> is_literal b = true -> is_literal c = true ->
  exists expr,
    rpn (a ++ chars " + " ++ b ++ chars " * " ++ c) [] = Ok expr /\
    sum_of_product (a ++ chars " + " ++ b ++ chars " * " ++ c) a b c expr.
Proof.
  intros Ha Hb Hc.
  remember (a ++ chars " + " ++ b ++ chars " * " ++ c) as s eqn:Hs.
  cbn in Hs. rewrite <- (app_nil_r c) in Hs.
  change (s = [] ++ a ++ " "%char :: "+"%char :: " "%char ::
                b ++ " "%char :: "*"%char :: " "%char :: c ++ []) in Hs.
  unfold rpn. change 0 with (length (@nil Symbol)).
  read_literal Hs Ha HA. read_space Hs. read_symbol Hs. read_space Hs.
  read_literal Hs Hb HB. read_space Hs. read_symbol Hs. read_space Hs.
  read_literal Hs Hc HC. read_to_end Hs. cbn.
  eexists. split; [reflexivity|].
  do 5 eexists. split; [reflexivity|].
  cbn [symbol]. auto 10 using literal_head.
Qed.

Lemma rpn_sum_parenthesised_product (a b c : list Symbol) :
  is_literal a = true -> is_literal b = true -> is_literal c = true ->
  exists expr,
    rpn (a ++ chars " + (" ++ b ++ chars " * " ++ c ++ chars ")") [] = Ok expr /\
    sum_of_product (a ++ chars " + (" ++ b ++ chars " * " ++ c ++ chars ")")
      a b c expr.
Proof.
  intros Ha Hb Hc.
  remember (a ++ chars " + (" ++ b ++ chars " * " ++ c ++ chars ")") as s eqn:Hs.
  cbn in Hs.
  change (s = [] ++ a ++ " "%char :: "+"%char :: " "%char :: "("%char ::
                b ++ " "%char :: "*"%char :: " "%char :: c ++ [")"%char]) in Hs.
  unfold rpn. change 0 with (length (@nil Symbol)).
  read_literal Hs Ha HA. read_space Hs. read_symbol Hs. read_space Hs.
  read_open_paren Hs.
  read_literal Hs Hb HB. read_space Hs. read_symbol Hs. read_space Hs.
  read_literal Hs Hc HC. read_close_paren Hs. read_to_end Hs. cbn.
  eexists. split; [reflexivity|].
  do 5 eexists. split; [reflexivity|].
  cbn [symbol]. auto 10 using literal_head.
Qed.

Section SumOfProduct.

Variable fmod : double -> double -> double.
Variable pow : double -> double -> double.

Lemma eval_sum_of_product (s a b c : list Symbol) (expr : list Part) :
  rpn s [] = Ok expr -> sum_of_product s a b c expr ->
  eval fmod pow s =
  (x <- literal_value a ;; y <- literal_value b ;; z <- literal_value c ;;
   Ok (dadd x (dmul y z))).
Proof.
  intros Hrpn (A & B & C & M & P & -> & [HtA HA] & [HtB HB] & [HtC HC] & HM & HP).
  unfold eval. rewrite Hrpn. cbn [bind eval_loop].
  rewrite HtA, HtB, HtC, HM, HP, !computeVal_span, HA, HB, HC.
  cbn [bind type Symbol.mul Symbol.plus].
  destruct (literal_value a) as [x| |]; cbn [bind]; try reflexivity.
  destruct (literal_value b) as [y| |]; cbn [bind]; try reflexivity.
  destruct (literal_value c) as [z| |]; cbn [bind]; reflexivity.
Qed.

End SumOfProduct.

(** ** Two operators of one precedence *)

Lemma prec_operator (c : Symbol) (p : Z) :
  prec c = Ok p -> type c = Ok SymbolType.opr.
Proof.
  destruct c as [[] [] [] [] [] [] [] []]; simpl; intros H;
    try discriminate; reflexivity.
Qed.

Lemma associa_operator (c : Symbol) (a : Associativity.t) :
  associa c = Ok a -> exists p, prec c = Ok p.
Proof.
  destruct c as [[] [] [] [] [] [] [] []]; simpl; intros H;
    try discriminate; eexists; reflexivity.
Qed.

Lemma stops_value_operator (c : Symbol) (rest : list Symbol) :
  type c = Ok SymbolType.opr -> stops_value (c :: rest) = true.
Proof. intros H. simpl. rewrite H. reflexivity. Qed.

Lemma pop_operators_empty (c : Symbol) (e : list Part) :
  pop_operators c e [] = Ok (e, []).
Proof. reflexivity. Qed.

Lemma pop_operators_right (e : list Part) (back : Part) (o : list Part) :
  symbol back = Symbol.exp ->
  pop_operators Symbol.exp e (back :: o) = Ok (e, back :: o).
Proof. intros H. simpl. rewrite H. reflexivity. Qed.

Lemma pop_operators_left (c : Symbol) (e : list Part) (back : Part)
  (o : list Part) :
  associa c = Ok Associativity.left -> prec (symbol back) = prec c ->
  pop_operators c e (back :: o) = pop_operators c (e ++ [back]) o.
Proof.
  intros Ha Hp. simpl.
  destruct (associa_operator c Ha) as [ps Hps].
  assert (Hb : Ascii.eqb (symbol back) Symbol.open = false).
  { apply Ascii.eqb_neq. intros Hb. rewrite Hb, Hps in Hp. discriminate. }
  rewrite Hb, Hp, Ha, Hps. cbn [bind].
  rewrite Z.eqb_refl. destruct (ps <? ps)%Z; reflexivity.
Qed.

(** An operator that associates to the left, behind an operator of its
    precedence: the first operator is popped, and applied, first. *)
Lemma rpn_grouped_left (a b c : list Symbol) (op1 op2 : Symbol) :
  is_literal a = true -> is_literal b = true -> is_literal c = true ->
  associa op2 = Ok Associativity.left -> prec op1 = prec op2 ->
  exists expr,
    rpn (a ++ op1 :: b ++ op2 :: c) [] = Ok expr /\
    grouped_left (a ++ op1 :: b ++ op2 :: c) a b c op1 op2 expr.
Proof.
  intros Ha Hb Hc Hassoc Hprec.
  destruct (associa_operator op2 Hassoc) as [p Hp2].
  assert (Ht2 : type op2 = Ok SymbolType.opr) by exact (prec_operator op2 Hp2).
  assert (Ht1 : type op1 = Ok SymbolType.opr)
    by (apply (prec_operator op1 (p := p)); congruence).
  remember (a ++ op1 :: b ++ op2 :: c) as s eqn:Hs.
  rewrite <- (app_nil_r c) in Hs.
  change (s = [] ++ a ++ op1 :: b ++ op2 :: c ++ []) in Hs.
  unfold rpn. change 0 with (length (@nil Symbol)).
  rewrite (@read_value _ _ _ _ _ _ Hs Ha (stops_value_operator op1 _ Ht1)).
  pose proof (@span_value _ _ _ _ Hs) as HA. apply read_on in Hs.
  rewrite (@read_operator _ _ _ _ _ _ _ _ Hs Ht1 (pop_operators_empty op1 _)).
  apply read_on_1 in Hs.
  rewrite (@read_value _ _ _ _ _ _ Hs Hb (stops_value_operator op2 _ Ht2)).
  pose proof (@span_value _ _ _ _ Hs) as HB. apply read_on in Hs.
  erewrite (@read_operator _ _ _ _ _ _ _ _ Hs Ht2);
    [|rewrite pop_operators_left; [reflexivity | exact Hassoc | exact Hprec]].
  apply read_on_1 in Hs.
  read_literal Hs Hc HC. read_to_end Hs.
  cbn [rpn_drain app symbol].
  assert (Hopen : Ascii.eqb op2 Symbol.open = false).
  { apply Ascii.eqb_neq. intros ->. discriminate. }
  rewrite Hopen.
  eexists. split; [reflexivity|].
  do 5 eexists. split; [reflexivity|].
  cbn [symbol]. auto 10 using literal_head.
Qed.

(** A [^] behind a [^]: the first stays on the stack, the second is
    popped, and applied, first. *)
Lemma rpn_grouped_right (a b c : list Symbol) :
  is_literal a = true -> is_literal b = true -> is_literal c = true ->
  exists expr,
    rpn (a ++ chars "^" ++ b ++ chars "^" ++ c) [] = Ok expr /\
    grouped_right (a ++ chars "^" ++ b ++ chars "^" ++ c) a b c
      Symbol.exp Symbol.exp expr.
Proof.
  intros Ha Hb Hc.
  remember (a ++ chars "^" ++ b ++ chars "^" ++ c) as s eqn:Hs.
  cbn in Hs. rewrite <- (app_nil_r c) in Hs.
  change (s = [] ++ a ++ "^"%char :: b ++ "^"%char :: c ++ []) in Hs.
  unfold rpn. change 0 with (length (@nil Symbol)).
  read_literal Hs Ha HA. read_symbol Hs.
  read_literal Hs Hb HB. read_symbol Hs.
  read_literal Hs Hc HC. read_to_end Hs. cbn.
  eexists. split; [reflexivity|].
  do 5 eexists. split; [reflexivity|].
  cbn [symbol]. auto 10 using literal_head.
Qed.

Section Grouping.

Variable fmod : double -> double -> double.
Variable pow : double -> double -> double.

Lemma eval_grouped_left (s a b c : list Symbol) (op1 op2 : Symbol)
  (expr : list Part) :
  type op1 = Ok SymbolType.opr -> type op2 = Ok SymbolType.opr ->
  rpn s [] = Ok expr -> grouped_left s a b c op1 op2 expr ->
  eval fmod pow s =
  (x <- literal_value a ;; y <- literal_value b ;; z <- literal_value c ;;
   xy <- applyOperator fmod pow x y op1 ;; applyOperator fmod pow xy z op2).
Proof.
  intros Ht1 Ht2 Hrpn
    (A & B & C & P1 & P2 & -> & [HtA HA] & [HtB HB] & [HtC HC] & H1 & H2).
  unfold eval. rewrite Hrpn. cbn [bind eval_loop].
  rewrite HtA, HtB, HtC, H1, H2, Ht1, Ht2, !computeVal_span, HA, HB, HC.
  cbn [bind].
  destruct (literal_value a) as [x| |]; cbn [bind]; try reflexivity.
  destruct (literal_value b) as [y| |]; cbn [bind]; try reflexivity.
  destruct (applyOperator_opr fmod pow x y op1 Ht1) as [xy Hxy].
  rewrite Hxy. cbn [bind].
  destruct (literal_value c) as [z| |]; cbn [bind]; try reflexivity.
  destruct (applyOperator_opr fmod pow xy z op2 Ht2) as [r Hr].
  rewrite Hr. reflexivity.
Qed.

Lemma eval_grouped_right (s a b c : list Symbol) (expr : list Part) :
  rpn s [] = Ok expr -> grouped_right s a b c Symbol.exp Symbol.exp expr ->
  eval fmod pow s =
  (x <- literal_value a ;; y <- literal_value b ;; z <- literal_value c ;;
   Ok (pow x (pow y z))).
Proof.
  intros Hrpn
    (A & B & C & P1 & P2 & -> & [HtA HA] & [HtB HB] & [HtC HC] & H1 & H2).
  unfold eval. rewrite Hrpn. cbn [bind eval_loop].
  rewrite HtA, HtB, HtC, H1, H2, !computeVal_span, HA, HB, HC.
  cbn [bind type Symbol.exp].
  destruct (literal_value a) as [x| |]; cbn [bind]; try reflexivity.
  destruct (literal_value b) as [y| |]; cbn [bind]; try reflexivity.
  destruct (literal_value c) as [z| |]; cbn [bind]; reflexivity.
Qed.

End Grouping.

(** ** The run of digits and periods at a digit *)

Lemma value_run_prefix (r : list Symbol) :
  r = value_run r ++ skipn (length (value_run r)) r.
Proof.
  induction r as [|c r IH]; [reflexivity|].
  simpl. destruct (in_value c); [|reflexivity].
  simpl. f_equal. exact IH.
Qed.

Lemma type_fault (c : Symbol) (f : fault) : type c = Fatal f -> f = abort_type.
Proof.
  destruct c as [[] [] [] [] [] [] [] []]; simpl; intros H;
    try discriminate; injection H as <-; reflexivity.
Qed.

(** The loop of the value constructor reads the run: a second period in
    it is a fault, and so is an unknown character behind it. *)
Lemma value_end_run (r : list Symbol) (e : nat) (nfp : bool) :
  value_end r e nfp =
  if periods (value_run r) <=? (if nfp then 1 else 0) then
    if stops_value (skipn (length (value_run r)) r)
    then Ok (e + length (value_run r))
    else Fatal abort_type
  else Fatal abort_second_period.
Proof.
  revert e nfp. induction r as [|c r IH]; intros e nfp.
  - simpl. unfold periods. simpl. rewrite Nat.add_0_r.
    destruct nfp; reflexivity.
  - simpl. unfold in_value, is_val, is_period.
    destruct (type c) as [t|f|u] eqn:Ht; simpl.
    + destruct t; simpl; rewrite ?Ht; simpl;
        try (unfold periods; simpl; rewrite Nat.add_0_r;
             destruct nfp; reflexivity).
      * rewrite periods_cons. unfold is_period at 1. rewrite Ht. simpl.
        rewrite IH. rewrite Nat.add_succ_r. reflexivity.
      * rewrite periods_cons. unfold is_period at 1. rewrite Ht.
        destruct nfp.
        -- rewrite IH. rewrite Nat.add_succ_r. simpl.
           destruct (periods (value_run r)); reflexivity.
        -- reflexivity.
    + rewrite Ht. rewrite (type_fault c Ht).
      unfold periods. simpl. destruct nfp; reflexivity.
    + exfalso. exact (type_defined _ Ht).
Qed.

Lemma value_run_head (s : list Symbol) (n : nat) :
  is_val (nth n s Symbol.null) = true ->
  exists run', value_run (skipn n s) = nth n s Symbol.null :: run'.
Proof.
  intros H.
  assert (Ht : type (nth n s Symbol.null) = Ok SymbolType.val).
  { unfold is_val in H. destruct (type _) as [t| |]; try discriminate.
    destruct t; try discriminate. reflexivity. }
  rewrite (skipn_nth s (type_nth_in_range s n Ht)). simpl.
  unfold in_value. rewrite H. simpl. eauto.
Qed.

(** The iteration of [rpn] that stands on a digit. *)
Lemma rpn_step_digit (s : list Symbol) (st : scan) :
  is_val (nth (i st) s Symbol.null) = true ->
  rpn_step s st =
  let run := value_run (skipn (i st) s) in
  if periods run <=? 1 then
    if stops_value (skipn (i st + length run) s)
    then Ok (mkScan (i st + length run)
               (expr st ++
                  [mkPart (i st) (i st + length run) (nth (i st) s Symbol.null)])
               (oprs st))
    else Fatal abort_type
  else Fatal abort_second_period.
Proof.
  intros H. destruct (value_run_head s (i st) H) as [run' Hrun].
  unfold rpn_step, Part_value. unfold is_val in H.
  destruct (type (nth (i st) s Symbol.null)) as [t| |]; try discriminate.
  destruct t; try discriminate. cbn [bind].
  rewrite value_end_run. cbn zeta.
  rewrite skipn_skipn, (Nat.add_comm (length (value_run (skipn (i st) s)))).
  destruct (periods _ <=? 1); [|reflexivity].
  destruct (stops_value _); [|reflexivity].
  cbn [bind]. rewrite Hrun. simpl length.
  replace (S (i st + S (length run') - 1)) with (i st + S (length run')) by lia.
  reflexivity.
Qed.

(** The iteration of [rpn] that stands on a period. *)
Lemma rpn_step_period (s : list Symbol) (st : scan) :
  nth (i st) s Symbol.null = Symbol.period -> rpn_step s st = Fatal abort_rpn.
Proof. intros H. unfold rpn_step. rewrite H. reflexivity. Qed.

Lemma span_value_run (s : list Symbol) (n : nat) (c : Symbol) :
  span s (mkPart n (n + length (value_run (skipn n s))) c) =
  value_run (skipn n s).
Proof.
  unfold span. cbn [start end_].
  replace (n + length (value_run (skipn n s)) - n)
    with (length (value_run (skipn n s))) by lia.
  rewrite (value_run_prefix (skipn n s)) at 2.
  rewrite firstn_app, firstn_all, Nat.sub_diag. simpl. apply app_nil_r.
Qed.

(** ** A period at the end of a number *)

Lemma is_val_digit_value (c : Symbol) :
  is_val c = true -> exists d, digit_value c = Some d.
Proof.
  destruct c as [[] [] [] [] [] [] [] []]; simpl; intros H;
    try discriminate; eexists; reflexivity.
Qed.

Lemma read_digits_app (d rest : list Symbol) (n : Z) (k : nat) :
  all_digits d = true ->
  exists m,
    read_digits (d ++ rest) n k = read_digits rest m (k + length d) /\
    read_digits d n k = (m, k + length d, []).
Proof.
  revert n k. induction d as [|c d IH]; intros n k H.
  - exists n. simpl. rewrite Nat.add_0_r. auto.
  - simpl in H. apply andb_prop in H as [Hc Hd].
    destruct (is_val_digit_value c Hc) as [v Hv].
    destruct (IH (10 * n + v)%Z (S k) Hd) as (m & H1 & H2).
    exists m. cbn [read_digits app length]. rewrite Hv, H1, H2, Nat.add_succ_r. auto.
Qed.

(** [from_chars] reads digits and a period behind them as the digits. *)
Lemma from_chars_trailing_period (d : list Symbol) :
  all_digits d = true -> from_chars (d ++ ["."%char]) = from_chars d.
Proof.
  intros H. unfold from_chars, decimal_prefix.
  destruct (read_digits_app d ["."%char] 0 0 H) as (m & H1 & H2).
  rewrite H1, H2. simpl. rewrite Nat.add_0_r. reflexivity.
Qed.

Lemma all_digits_in_value (d : list Symbol) :
  all_digits d = true -> forallb in_value d = true /\ periods d = 0.
Proof.
  induction d as [|c d IH]; intros H; [split; reflexivity|].
  simpl in H. apply andb_prop in H as [Hc Hd]. destruct (IH Hd) as [Hall Hper].
  assert (Hp : is_period c = false).
  { unfold is_period. unfold is_val in Hc.
    destruct (type c) as [t| |]; try discriminate. destruct t; try discriminate.
    reflexivity. }
  rewrite periods_cons, Hper, Hp. cbn [forallb]. unfold in_value at 1.
  rewrite Hc, Hall. split; reflexivity.
Qed.

Lemma literal_trailing_period (c : Symbol) (d : list Symbol) :
  all_digits (c :: d) = true -> is_literal ((c :: d) ++ ["."%char]) = true.
Proof.
  intros H. destruct (all_digits_in_value _ H) as [Hall Hper].
  simpl in H. apply andb_prop in H as [Hc _].
  unfold is_literal. cbn [app]. rewrite Hc.
  change (c :: d ++ ["."%char]) with ((c :: d) ++ ["."%char]).
  rewrite forallb_app, Hall. unfold periods in *.
  rewrite filter_app, length_app, Hper. reflexivity.
Qed.

Lemma grammar_trailing_period (d : list Symbol) (seen : bool) :
  all_digits d = true -> grammar_number_from seen (d ++ ["."%char]) = false.
Proof.
  revert seen. induction d as [|c d IH]; intros seen H.
  - simpl. apply andb_false_r.
  - simpl in H. apply andb_prop in H as [Hc Hd].
    simpl. rewrite Hc. apply IH. exact Hd.
Qed.

(** A number of the grammar is a number for the value constructor. *)
Lemma grammar_number_from_value (l : list Symbol) (seen : bool) :
  grammar_number_from seen l = true ->
  forallb in_value l = true /\ periods l <= 1 /\
  (seen = false -> exists c l', l = c :: l' /\ is_val c = true).
Proof.
  revert seen. induction l as [|c l IH]; intros seen H; simpl in H.
  - subst seen. repeat split; [unfold periods; simpl; lia | discriminate].
  - destruct (is_val c) eqn:Hc.
    + destruct (IH true H) as (Hall & Hper & _).
      assert (Hp : is_period c = false).
      { unfold is_period. unfold is_val in Hc.
        destruct (type c) as [t| |]; try discriminate.
        destruct t; try discriminate. reflexivity. }
      rewrite periods_cons, Hp. cbn [forallb]. unfold in_value at 1.
      rewrite Hc, Hall. repeat split; [exact Hper | eauto].
    + apply andb_prop in H as [-> H].
      destruct (is_period c) eqn:Hp; [|discriminate].
      destruct l as [|d l]; [discriminate|].
      destruct (all_digits_in_value (d :: l) H) as [Hall Hper].
      rewrite periods_cons, Hp, Hper. cbn [forallb] in Hall |- *.
      unfold in_value at 1. rewrite Hc, Hp, Hall.
      repeat split; [lia | discriminate].
Qed.

Lemma grammar_number_literal (l : list Symbol) :
  grammar_number l = true -> is_literal l = true.
Proof.
  intros H.
  destruct (grammar_number_from_value l false H) as (Hall & Hper & Hhead).
  destruct (Hhead eq_refl) as (c & l' & -> & Hc).
  unfold is_literal. rewrite Hc, Hall. apply Nat.leb_le in Hper.
  rewrite Hper. reflexivity.
Qed.

(** ** An input that is one number *)

Section OneNumber.

Variable fmod : double -> double -> double.
Variable pow : double -> double -> double.



End OneNumber.

(** ** The self-test of [main]

    The first two expressions of the self-test hold whole exponents only,
    where [pow_integer] is [pow].  The first evaluates to 3.0001220703125,
    that is 24577 * 2^-13, the value the test expects; the second to the
    double nearest to the value the test expects, 5594229169961992 * 2^-52
    = 1.24216840590429.... *)

Example main_first_test :
  eval fmod_exact pow_integer (chars "3 + 4 * 2 / (1 - 5) ^ 2 ^ 3") =
  Ok (double_of_dyadic 24577 (-13)).
Proof. vm_compute. reflexivity. Qed.

Example main_second_test :
  eval fmod_exact pow_integer
    (chars "10 * 15 / 23 / (512 * 13 ^ 2 ^ 2 / 13 ^ 2) * 3213 + 1 * 2 - 11 + 10") =
  Ok (double_of_dyadic 5594229169961992 (-52)).
Proof. vm_compute. reflexivity. Qed.

(** * The claims *)

(** ** Equal precedence: associativity decides *)

(** C1.  Operators of equal precedence group by associativity.  An
    operator that associates to the left pops an operator of its precedence
    before it is pushed, so [a op1 b op2 c] is [(a op1 b) op2 c]; an
    incoming [^] leaves a [^] on the stack, so [a^b^c] is [a^(b^c)].
    ["2^3^2"] is ["2^(3^2)"], which is 512 and not 64 where [pow] is exact
    on 3^2 and 2^9, and ["8/4/2"] is ["(8/4)/2"], which is 1 and not 4. *)
Theorem associativity_groups_equal_precedence
  (fmod pow : double -> double -> double) :
  pow (double_of_Z 3) (double_of_Z 2) = double_of_Z 9 ->
  pow (double_of_Z 2) (double_of_Z 9) = double_of_Z 512 ->
  (eval fmod pow (chars "2^3^2") = eval fmod pow (chars "2^(3^2)") /\
   eval fmod pow (chars "2^3^2") = Ok (double_of_Z 512) /\
   eval fmod pow (chars "2^3^2") <> Ok (double_of_Z 64)) /\
  (eval fmod pow (chars "8/4/2") = eval fmod pow (chars "(8/4)/2") /\
   eval fmod pow (chars "8/4/2") = Ok (double_of_Z 1) /\
   eval fmod pow (chars "8/4/2") <> Ok (double_of_Z 4)) /\
  (forall a b c,
      is_literal a = true -> is_literal b = true -> is_literal c = true ->
      eval fmod pow (a ++ chars "^" ++ b ++ chars "^" ++ c) =
      (x <- literal_value a ;; y <- literal_value b ;; z <- literal_value c ;;
       Ok (pow x (pow y z)))) /\
  (forall a b c op1 op2,
      is_literal a = true -> is_literal b = true -> is_literal c = true ->
      associa op2 = Ok Associativity.left -> prec op1 = prec op2 ->
      eval fmod pow (a ++ op1 :: b ++ op2 :: c) =
      (x <- literal_value a ;; y <- literal_value b ;; z <- literal_value c ;;
       xy <- applyOperator fmod pow x y op1 ;;
       applyOperator fmod pow xy z op2)).
Proof.
  intros H32 H29.
  assert (Hright : eval fmod pow (chars "2^3^2") =
                   Ok (pow (double_of_Z 2) (pow (double_of_Z 3) (double_of_Z 2))))
    by (vm_compute; reflexivity).
  assert (Hparen : eval fmod pow (chars "2^(3^2)") =
                   Ok (pow (double_of_Z 2) (pow (double_of_Z 3) (double_of_Z 2))))
    by (vm_compute; reflexivity).
  assert (Hleft : eval fmod pow (chars "8/4/2") =
                  Ok (ddiv (ddiv (double_of_Z 8) (double_of_Z 4)) (double_of_Z 2)))
    by (vm_compute; reflexivity).
  assert (Hparen' : eval fmod pow (chars "(8/4)/2") =
                    Ok (ddiv (ddiv (double_of_Z 8) (double_of_Z 4)) (double_of_Z 2)))
    by (vm_compute; reflexivity).
  assert (Hquot : ddiv (ddiv (double_of_Z 8) (double_of_Z 4)) (double_of_Z 2) =
                  double_of_Z 1) by (vm_compute; reflexivity).
  assert (H512 : double_of_Z 512 <> double_of_Z 64) by (vm_compute; discriminate).
  assert (H1 : double_of_Z 1 <> double_of_Z 4) by (vm_compute; discriminate).
  rewrite Hright, Hparen, Hleft, Hparen', H32, H29, Hquot.
  split; [|split; [|split]].
  - split; [reflexivity|]. split; [reflexivity|].
    intros H. exact (H512 (Ok_inj H)).
  - split; [reflexivity|]. split; [reflexivity|].
    intros H. exact (H1 (Ok_inj H)).
  - intros a b c Ha Hb Hc.
    destruct (rpn_grouped_right a b c Ha Hb Hc) as (expr & Hrpn & Hexpr).
    exact (eval_grouped_right fmod pow Hrpn Hexpr).
  - intros a b c op1 op2 Ha Hb Hc Hassoc Hprec.
    destruct (rpn_grouped_left a b c op1 op2 Ha Hb Hc Hassoc Hprec)
      as (expr & Hrpn & Hexpr).
    destruct (associa_operator op2 Hassoc) as [p Hp2].
    refine (eval_grouped_left fmod pow _ _ Hrpn Hexpr).
    + apply (prec_operator op1 (p := p)). congruence.
    + exact (prec_operator op2 Hp2).
Qed.

Lemma associativity_groups_equal_precedence_witness :
  eval fmod_exact pow_integer (chars "2^3^2") = Ok (double_of_Z 512) /\
  eval fmod_exact pow_integer (chars "8/4/2") = Ok (double_of_Z 1).
Proof.
  assert (H32 : pow_integer (double_of_Z 3) (double_of_Z 2) = double_of_Z 9)
    by (vm_compute; reflexivity).
  assert (H29 : pow_integer (double_of_Z 2) (double_of_Z 9) = double_of_Z 512)
    by (vm_compute; reflexivity).
  pose proof (@associativity_groups_equal_precedence fmod_exact pow_integer H32 H29) as H.
  split; [apply H | apply H].
Defined.

(** ** Precedence *)

(** C2.  For all numbers [a], [b] and [c], ["a + b * c"] evaluates as
    ["a + (b * c)"]: both are the sum of [a] and the product of [b] and
    [c]. *)
Theorem multiplication_binds_tighter_than_addition
  (fmod pow : double -> double -> double) (a b c : list Symbol) :
  is_literal a = true -> is_literal b = true -> is_literal c = true ->
  eval fmod pow (a ++ chars " + " ++ b ++ chars " * " ++ c) =
  eval fmod pow (a ++ chars " + (" ++ b ++ chars " * " ++ c ++ chars ")") /\
  eval fmod pow (a ++ chars " + " ++ b ++ chars " * " ++ c) =
  (x <- literal_value a ;; y <- literal_value b ;; z <- literal_value c ;;
   Ok (dadd x (dmul y z))).
Proof.
  intros Ha Hb Hc.
  destruct (rpn_sum_product a b c Ha Hb Hc) as (expr & Hrpn & Hexpr).
  destruct (rpn_sum_parenthesised_product a b c Ha Hb Hc)
    as (expr' & Hrpn' & Hexpr').
  rewrite (eval_sum_of_product fmod pow Hrpn Hexpr).
  rewrite (eval_sum_of_product fmod pow Hrpn' Hexpr').
  split; reflexivity.
Qed.

Lemma multiplication_binds_tighter_than_addition_witness :
  eval fmod_exact pow_integer (chars "1 + 2 * 3") =
  eval fmod_exact pow_integer (chars "1 + (2 * 3)") /\
  eval fmod_exact pow_integer (chars "1 + 2 * 3") = Ok (double_of_Z 7).
Proof.
  destruct (@multiplication_binds_tighter_than_addition fmod_exact pow_integer
              (chars "1") (chars "2") (chars "3") eq_refl eq_refl eq_refl)
    as [H1 H2].
  split; [exact H1|]. refine (eq_trans H2 _). vm_compute. reflexivity.
Defined.

(** ** Clean conversion and the value stack *)

(** C3, as stated, fails: ["1+"] converts without a fault to the postfix
    [1 +], whose operator finds one value; the empty input converts to the
    empty postfix, which leaves no value; ["1 2"] converts to [1 2], which
    leaves two. *)
Lemma clean_conversion_may_lack_values :
  (rpn (chars "1+") [] = Ok [mkPart 0 1 "1"%char; mkPart 1 2 "+"%char] /\
   stack_run [mkPart 0 1 "1"%char; mkPart 1 2 "+"%char] 0 = None /\
   forall fmod pow,
     eval fmod pow (chars "1+") = Undefined evld_out_of_bounds) /\
  (rpn (chars "") [] = Ok [] /\ stack_run [] 0 = Some 0 /\
   forall fmod pow, eval fmod pow (chars "") = Fatal assert_evld_size) /\
  (rpn (chars "1 2") [] = Ok [mkPart 0 1 "1"%char; mkPart 2 3 "2"%char] /\
   stack_run [mkPart 0 1 "1"%char; mkPart 2 3 "2"%char] 0 = Some 2 /\
   forall fmod pow, eval fmod pow (chars "1 2") = Fatal assert_evld_size).
Proof.
  repeat split; try (vm_compute; reflexivity);
    intros fmod pow; vm_compute; reflexivity.
Qed.

(** C3, amended.  Where operands and operators take turns in the input
    and the conversion returns, the postfix expression never applies an
    operator to fewer than two values and leaves one value: [eval] returns
    it, unless a number is out of the range of [double]. *)
Theorem alternating_input_leaves_one_value
  (fmod pow : double -> double -> double) (s : list Symbol) (expr : list Part) :
  alternates s = true -> rpn s [] = Ok expr ->
  stack_run expr 0 = Some 1 /\
  eval_loop fmod pow s expr [] <> Undefined evld_out_of_bounds /\
  (forall evld, eval_loop fmod pow s expr [] = Ok evld -> length evld = 1) /\
  ((exists v, eval fmod pow s = Ok v) \/
   eval fmod pow s = Undefined result_uninitialised).
Proof.
  intros Halt Hrpn.
  pose proof (rpn_in_turn s Halt Hrpn) as Hrun.
  split; [exact Hrun|].
  unfold eval. rewrite Hrpn. cbn [bind].
  destruct (stack_run_eval_loop fmod pow s expr [] Hrun)
    as [(evld & Hloop & Hlen)| Hloop]; rewrite Hloop.
  - split; [discriminate|]. split.
    + intros evld' H. apply Ok_inj in H. subst evld'. exact Hlen.
    + left. destruct evld as [|v [|w evld]]; try discriminate.
      exists v. reflexivity.
  - split; [discriminate|]. split; [discriminate|]. right. reflexivity.
Qed.

Lemma alternating_input_leaves_one_value_witness :
  exists expr,
    rpn (chars "(1+2)*3") [] = Ok expr /\
    stack_run expr 0 = Some 1 /\
    ((exists v, eval fmod_exact pow_integer (chars "(1+2)*3") = Ok v) \/
     eval fmod_exact pow_integer (chars "(1+2)*3") = Undefined result_uninitialised).
Proof.
  assert (Halt : alternates (chars "(1+2)*3") = true)
    by (vm_compute; reflexivity).
  assert (Hrpn : rpn (chars "(1+2)*3") [] =
                 Ok [mkPart 1 2 "1"%char; mkPart 3 4 "2"%char; mkPart 2 3 "+"%char;
                     mkPart 6 7 "3"%char; mkPart 5 6 "*"%char])
    by (vm_compute; reflexivity).
  destruct (@alternating_input_leaves_one_value fmod_exact pow_integer _ _ Halt Hrpn)
    as (Hrun & _ & _ & Heval).
  eexists. split; [exact Hrpn|]. split; [exact Hrun | exact Heval].
Defined.

(** ** An operator that lacks a value *)

(** C4 does not hold of the source.  Where the loop of [eval] comes to an
    operator with fewer than two values, nothing stops the process: the
    source reads and writes [evld[evld.size() - 2]] out of the bounds of
    the vector.  ["1+"] is such an input. *)
Theorem operator_underflow_is_unchecked
  (fmod pow : double -> double -> double) (s : list Symbol)
  (before : list Part) (p : Part) (behind : list Part) (evld : list double) :
  rpn s [] = Ok (before ++ p :: behind) ->
  eval_loop fmod pow s before [] = Ok evld ->
  type (symbol p) = Ok SymbolType.opr -> length evld < 2 ->
  eval fmod pow s = Undefined evld_out_of_bounds /\
  forall f, eval fmod pow s <> Fatal f.
Proof.
  intros Hrpn Hbefore Ht Hlen.
  assert (H : eval fmod pow s = Undefined evld_out_of_bounds).
  { unfold eval. rewrite Hrpn. cbn [bind].
    rewrite eval_loop_app, Hbefore. cbn [bind].
    rewrite (eval_loop_underflow fmod pow s p behind evld Ht Hlen). reflexivity. }
  split; [exact H|]. intros f. rewrite H. discriminate.
Qed.

Lemma operator_underflow_is_unchecked_witness :
  eval fmod_exact pow_integer (chars "1+") = Undefined evld_out_of_bounds /\
  forall f, eval fmod_exact pow_integer (chars "1+") <> Fatal f.
Proof.
  apply (@operator_underflow_is_unchecked fmod_exact pow_integer (chars "1+")
           [mkPart 0 1 "1"%char] (mkPart 1 2 "+"%char) [] [double_of_Z 1]).
  - vm_compute. reflexivity.
  - vm_compute. reflexivity.
  - reflexivity.
  - simpl. lia.
Defined.

(** ** Unbalanced parentheses *)

(** The two places where the conversion finds parentheses that do not
    balance. *)
Lemma close_without_open (s : list Symbol) (st : scan) :
  nth (i st) s Symbol.null = Symbol.close -> Forall not_open (oprs st) ->
  rpn_loop s st = Fatal assert_oprs_nonempty.
Proof.
  intros Hc Hn.
  assert (Hlt : i st < length s)
    by (apply (@type_nth_in_range s (i st) SymbolType.close); rewrite Hc; reflexivity).
  apply (rpn_loop_fault s st Hlt).
  unfold rpn_step. rewrite Hc. cbn [type Symbol.close bind].
  destruct (pop_to_open (expr st) (oprs st)) as [e' o'] eqn:Hp.
  destruct o' as [|back o']; [reflexivity|].
  destruct (pop_to_open_split _ _ Hp) as (popped & Ho & _ & _).
  rewrite Ho in Hn. apply Forall_app in Hn as [_ Hn].
  inversion Hn as [|? ? Hb _]; subst.
  exfalso. exact (Hb (pop_to_open_stops _ _ Hp)).
Qed.

Lemma open_left_on_stack (s : list Symbol) (st : scan) :
  length s <= i st -> 0 < opens (oprs st) ->
  rpn_loop s st = Fatal assert_back_not_open.
Proof.
  intros Hge Hopen. rewrite (rpn_loop_end s st Hge).
  generalize (expr st). induction (oprs st) as [|q o IH]; intros e.
  - unfold opens in Hopen. simpl in Hopen. lia.
  - simpl. rewrite opens_cons in Hopen.
    destruct (Ascii.eqb (symbol q) Symbol.open); [reflexivity|].
    apply IH. simpl in Hopen. exact Hopen.
Qed.

(** C5.  An input whose parentheses do not balance is fatal: [eval]
    returns no value.  A close parenthesis that finds no open parenthesis
    on the stack fails [assert(!oprs.empty())], as in ["1+2)"]; an open
    parenthesis left on the stack at the end of the input fails the
    assertion of the final loop, as in ["(1+2"]. *)
Theorem unbalanced_parentheses_are_fatal
  (fmod pow : double -> double -> double) :
  (forall s, balanced s = false ->
             exists f, rpn s [] = Fatal f /\ eval fmod pow s = Fatal f) /\
  (forall s st,
      steps s (mkScan 0 [] []) st ->
      nth (i st) s Symbol.null = Symbol.close -> Forall not_open (oprs st) ->
      eval fmod pow s = Fatal assert_oprs_nonempty) /\
  (forall s st,
      steps s (mkScan 0 [] []) st ->
      length s <= i st -> 0 < opens (oprs st) ->
      eval fmod pow s = Fatal assert_back_not_open) /\
  eval fmod pow (chars "1+2)") = Fatal assert_oprs_nonempty /\
  eval fmod pow (chars "(1+2") = Fatal assert_back_not_open.
Proof.
  split; [|split; [|split; [|split]]].
  - intros s Hs.
    destruct (rpn_Ok_or_Fatal s []) as [[expr H]|[f H]].
    + rewrite (rpn_Ok_balanced s [] H) in Hs. discriminate.
    + exists f. split; [exact H|]. unfold eval. rewrite H. reflexivity.
  - intros s st Hsteps Hc Hn. unfold eval, rpn.
    rewrite (rpn_loop_steps Hsteps), (close_without_open s st Hc Hn). reflexivity.
  - intros s st Hsteps Hge Hopen. unfold eval, rpn.
    rewrite (rpn_loop_steps Hsteps), (open_left_on_stack s st Hge Hopen).
    reflexivity.
  - vm_compute. reflexivity.
  - vm_compute. reflexivity.
Qed.

Lemma unbalanced_parentheses_are_fatal_witness :
  exists f,
    rpn (chars "((1+2)") [] = Fatal f /\
    eval fmod_exact pow_integer (chars "((1+2)") = Fatal f.
Proof.
  apply (proj1 (unbalanced_parentheses_are_fatal fmod_exact pow_integer)
           (chars "((1+2)")).
  reflexivity.
Defined.

(** ** Decimal numbers *)














Section Decimals.

Variable fmod : double -> double -> double.
Variable pow : double -> double -> double.



End Decimals.




(** ** Where a number begins *)

(** C7, as stated, fails: the main loop of [rpn] has no case for a
    period, so the input [".5"] is fatal at its first character and no
    number is made of it. *)
Lemma leading_period_aborts :
  type Symbol.period = Ok SymbolType.period /\
  rpn_step (chars ".5") (mkScan 0 [] []) = Fatal abort_rpn /\
  rpn (chars ".5") [] = Fatal abort_rpn.
Proof. repeat split; vm_compute; reflexivity. Qed.

(** C7, amended.  Where the main loop stands on a digit it reads the
    longest run of digits and periods that begins there.  With at most one
    period in the run, and the end of the input or a known character behind
    it, the run becomes one number whose characters are the run, and the
    loop goes on behind it; a second period in the run is fatal, and so is
    an unknown character behind it.  Where the main loop stands on a period
    the conversion is fatal: no number begins with a period. *)
Theorem main_loop_reads_number_at_digit (s : list Symbol) (st : scan) :
  (is_val (nth (i st) s Symbol.null) = true ->
   let run := value_run (skipn (i st) s) in
   let number := mkPart (i st) (i st + length run) (nth (i st) s Symbol.null) in
   span s number = run /\
   rpn_step s st =
   if periods run <=? 1 then
     if stops_value (skipn (i st + length run) s)
     then Ok (mkScan (i st + length run) (expr st ++ [number]) (oprs st))
     else Fatal abort_type
   else Fatal abort_second_period) /\
  (nth (i st) s Symbol.null = Symbol.period ->
   rpn_step s st = Fatal abort_rpn /\
   (i st < length s -> rpn_loop s st = Fatal abort_rpn)).
Proof.
  split.
  - intros Hval. split.
    + apply span_value_run.
    + apply (rpn_step_digit s st Hval).
  - intros Hp. pose proof (rpn_step_period s st Hp) as H.
    split; [exact H|]. intros Hlt. apply (rpn_loop_fault s st Hlt H).
Qed.

Lemma main_loop_reads_number_at_digit_witness :
  rpn_step (chars "1+12.5*3") (mkScan 2 [mkPart 0 1 "1"%char] [mkPart 1 2 "+"%char]) =
  Ok (mkScan 6 [mkPart 0 1 "1"%char; mkPart 2 6 "1"%char] [mkPart 1 2 "+"%char]) /\
  span (chars "1+12.5*3") (mkPart 2 6 "1"%char) = chars "12.5" /\
  rpn_step (chars "1+.5") (mkScan 2 [mkPart 0 1 "1"%char] [mkPart 1 2 "+"%char]) =
  Fatal abort_rpn.
Proof.
  destruct (main_loop_reads_number_at_digit (chars "1+12.5*3")
              (mkScan 2 [mkPart 0 1 "1"%char] [mkPart 1 2 "+"%char]))
    as [Hdigit _].
  destruct (Hdigit eq_refl) as [Hspan Hstep].
  destruct (main_loop_reads_number_at_digit (chars "1+.5")
              (mkScan 2 [mkPart 0 1 "1"%char] [mkPart 1 2 "+"%char]))
    as [_ Hperiod].
  destruct (Hperiod eq_refl) as [Hfatal _].
  split; [exact Hstep|]. split; [exact Hspan | exact Hfatal].
Defined.

(** ** No parenthesis in the output *)

(** C8.  Where the conversion returns, every part of the postfix
    expression is a number or an operator: no open and no close
    parenthesis is among them. *)
Theorem postfix_has_numbers_and_operators_only (s : list Symbol)
  (expr : list Part) :
  rpn s [] = Ok expr ->
  Forall number_or_operator expr /\ Forall (fun p => ~ parenthesis p) expr.
Proof.
  intros H.
  pose proof (rpn_number_or_operator s (Forall_nil _) H) as Hall.
  split; [exact Hall|].
  apply (Forall_impl _ number_or_operator_no_parenthesis Hall).
Qed.

Lemma postfix_has_numbers_and_operators_only_witness :
  exists expr,
    rpn (chars "(1+2)*3") [] = Ok expr /\
    Forall number_or_operator expr /\ Forall (fun p => ~ parenthesis p) expr.
Proof.
  eexists. split; [vm_compute; reflexivity|].
  apply (@postfix_has_numbers_and_operators_only (chars "(1+2)*3")).
  vm_compute. reflexivity.
Defined.

(** ** Blank input *)

(** C9.  The empty input, and every input of spaces, tabs and newlines,
    converts to the empty postfix expression; [eval] then fails
    [assert(evld.size() == 1)] on the empty value stack. *)
Theorem blank_input_is_fatal (fmod pow : double -> double -> double)
  (s : list Symbol) :
  Forall whitespace s ->
  rpn s [] = Ok [] /\ eval fmod pow s = Fatal assert_evld_size.
Proof.
  intros H. pose proof (rpn_whitespace [] H) as Hrpn.
  split; [exact Hrpn|]. unfold eval. rewrite Hrpn. reflexivity.
Qed.

Lemma blank_input_is_fatal_witness :
  (rpn [] [] = Ok [] /\
   eval fmod_exact pow_integer [] = Fatal assert_evld_size) /\
  (rpn [Symbol.space; Symbol.tab; Symbol.newline] [] = Ok [] /\
   eval fmod_exact pow_integer [Symbol.space; Symbol.tab; Symbol.newline] =
   Fatal assert_evld_size).
Proof.
  split.
  - apply (@blank_input_is_fatal fmod_exact pow_integer []). constructor.
  - apply (@blank_input_is_fatal fmod_exact pow_integer
             [Symbol.space; Symbol.tab; Symbol.newline]).
    apply Forall_cons; [left; reflexivity|].
    apply Forall_cons; [right; left; reflexivity|].
    apply Forall_cons; [right; right; reflexivity | apply Forall_nil].
Defined.

(** ** A period with no digit behind it *)

Lemma rpn_trailing_period_plus (c : Symbol) (d b : list Symbol) :
  all_digits (c :: d) = true -> is_literal b = true ->
  exists expr,
    rpn ((c :: d) ++ chars ".+" ++ b) [] = Ok expr /\
    sum_of_two ((c :: d) ++ chars ".+" ++ b) ((c :: d) ++ chars ".") b expr.
Proof.
  intros Hd Hb.
  pose proof (literal_trailing_period c d Hd) as Hl.
  remember ((c :: d) ++ chars ".+" ++ b) as s eqn:Hs.
  assert (Hs' : s = [] ++ ((c :: d) ++ ["."%char]) ++ "+"%char :: b ++ []).
  { rewrite Hs, app_nil_r, <- app_assoc. reflexivity. }
  clear Hs. unfold rpn. change 0 with (length (@nil Symbol)).
  read_literal Hs' Hl HA. read_symbol Hs'. read_literal Hs' Hb HB.
  read_to_end Hs'. cbn.
  eexists. split; [reflexivity|].
  do 3 eexists. split; [reflexivity|].
  cbn [symbol]. repeat split.
  - exact (literal_head _ Hl).
  - exact HA.
  - exact (literal_head _ Hb).
  - exact HB.
Qed.

Section TrailingPeriod.

Variable fmod : double -> double -> double.
Variable pow : double -> double -> double.

Lemma eval_sum_of_two (s a b : list Symbol) (expr : list Part) :
  rpn s [] = Ok expr -> sum_of_two s a b expr ->
  eval fmod pow s =
  (x <- literal_value a ;; y <- literal_value b ;; Ok (dadd x y)).
Proof.
  intros Hrpn (A & B & P & -> & [HtA HA] & [HtB HB] & HP).
  unfold eval. rewrite Hrpn. cbn [bind eval_loop].
  rewrite HtA, HtB, HP, !computeVal_span, HA, HB.
  cbn [bind type Symbol.plus].
  destruct (literal_value a) as [x| |]; cbn [bind]; try reflexivity.
  destruct (literal_value b) as [y| |]; cbn [bind]; reflexivity.
Qed.

Lemma eval_trailing_period_plus (c : Symbol) (d b : list Symbol) :
  all_digits (c :: d) = true -> is_literal b = true ->
  eval fmod pow ((c :: d) ++ chars ".+" ++ b) =
  (x <- literal_value (c :: d) ;; y <- literal_value b ;; Ok (dadd x y)).
Proof.
  intros Hd Hb.
  destruct (rpn_trailing_period_plus c d b Hd Hb) as (expr & Hrpn & Hexpr).
  rewrite (@eval_sum_of_two _ _ _ _ Hrpn Hexpr).
  unfold literal_value at 1. cbn [chars list_ascii_of_string].
  rewrite (from_chars_trailing_period (c :: d) Hd). reflexivity.
Qed.

End TrailingPeriod.

(** C10.  Every [number] of the grammar is a number for the value
    constructor, and so are digits with a period behind them and no digit
    after it, which are no [number] of the grammar; [from_chars] reads them
    as the digits alone.  So ["3.+1"] converts to the postfix [3. 1 +] and
    evaluates to 4. *)
Theorem trailing_period_is_accepted (fmod pow : double -> double -> double) :
  (forall l, grammar_number l = true -> is_literal l = true) /\
  (forall c d,
      all_digits (c :: d) = true ->
      is_literal ((c :: d) ++ chars ".") = true /\
      grammar_number ((c :: d) ++ chars ".") = false /\
      literal_value ((c :: d) ++ chars ".") = literal_value (c :: d) /\
      forall b, is_literal b = true ->
                eval fmod pow ((c :: d) ++ chars ".+" ++ b) =
                (x <- literal_value (c :: d) ;; y <- literal_value b ;;
                 Ok (dadd x y))) /\
  rpn (chars "3.+1") [] =
  Ok [mkPart 0 2 "3"%char; mkPart 3 4 "1"%char; mkPart 2 3 "+"%char] /\
  span (chars "3.+1") (mkPart 0 2 "3"%char) = chars "3." /\
  eval fmod pow (chars "3.+1") = Ok (double_of_Z 4).
Proof.
  split; [exact grammar_number_literal|].
  split; [|repeat split; vm_compute; reflexivity].
  intros c d Hd. split; [|split; [|split]].
  - exact (literal_trailing_period c d Hd).
  - exact (grammar_trailing_period (c :: d) false Hd).
  - unfold literal_value. cbn [chars list_ascii_of_string].
    rewrite (from_chars_trailing_period (c :: d) Hd). reflexivity.
  - intros b Hb. exact (eval_trailing_period_plus fmod pow c d b Hd Hb).
Qed.

Lemma trailing_period_is_accepted_witness :
  is_literal (chars "12.") = true /\
  grammar_number (chars "12.") = false /\
  literal_value (chars "12.") = Ok (double_of_Z 12) /\
  eval fmod_exact pow_integer (chars "12.+30") = Ok (double_of_Z 42).
Proof.
  destruct (proj1 (proj2 (trailing_period_is_accepted fmod_exact pow_integer))
              "1"%char (chars "2") eq_refl) as (Hl & Hg & Hv & He).
  split; [exact Hl|]. split; [exact Hg|]. split.
  - refine (eq_trans Hv _). vm_compute. reflexivity.
  - refine (eq_trans (He (chars "30") eq_refl) _). vm_compute. reflexivity.
Defined.

(** * Further properties of the program *)

(** ** Where the process can stop *)

Lemma operator_prec_associa (c : Symbol) :
  type c = Ok SymbolType.opr ->
  exists p a, prec c = Ok p /\ associa c = Ok a.
Proof.
  destruct c as [[] [] [] [] [] [] [] []]; simpl; intros H;
    try discriminate; do 2 eexists; split; reflexivity.
Qed.

(** On a stack of operators and open parentheses the loop of the
    operator case calls [prec] and [associa] on operators only. *)
Lemma pop_operators_returns (c : Symbol) (o e : list Part) :
  type c = Ok SymbolType.opr -> Forall operator_or_open o ->
  exists e' o', pop_operators c e o = Ok (e', o').
Proof.
  intros Hc Ho. revert e.
  induction Ho as [|back o Hb _ IH]; intros e; simpl; [eauto|].
  destruct (Ascii.eqb (symbol back) Symbol.open) eqn:Hopen; [eauto|].
  apply Ascii.eqb_neq in Hopen.
  destruct Hb as [Hb|Hb]; [|contradiction].
  destruct (operator_prec_associa _ Hb) as (pb & _ & -> & _).
  destruct (operator_prec_associa _ Hc) as (ps & a & -> & ->).
  cbn [bind].
  destruct (pb <? ps)%Z; [apply IH|].
  destruct a; [|eauto].
  destruct (pb =? ps)%Z; [apply IH | eauto].
Qed.

Lemma value_end_fault (r : list Symbol) (e : nat) (nfp : bool) (f : fault) :
  value_end r e nfp = Fatal f -> f = abort_type \/ f = abort_second_period.
Proof.
  rewrite value_end_run.
  destruct (periods _ <=? _); [destruct (stops_value _)|]; intros H;
    try discriminate; injection H as <-; auto.
Qed.

Lemma rpn_step_fault (s : list Symbol) (st : scan) (f : fault) :
  Forall operator_or_open (oprs st) ->
  rpn_step s st = Fatal f -> rpn_fault f = true.
Proof.
  intros Ho. unfold rpn_step.
  destruct (type (nth (i st) s Symbol.null)) as [t|f'|u] eqn:Ht; cbn [bind].
  - destruct t; try (intros H; injection H as <-; reflexivity);
      try discriminate.
    + unfold Part_value.
      destruct (value_end _ _ _) as [e|f'|u] eqn:He; cbn [bind]; try discriminate.
      intros H. injection H as <-.
      destruct (value_end_fault _ _ _ He) as [-> | ->]; reflexivity.
    + destruct (@pop_operators_returns _ _ (expr st) Ht Ho) as (e' & o' & ->).
      discriminate.
    + destruct (pop_to_open (expr st) (oprs st)) as [e' o'] eqn:Hp.
      destruct o' as [|back o']; [intros H; injection H as <-; reflexivity|].
      rewrite (pop_to_open_stops _ _ Hp), Ascii.eqb_refl. discriminate.
  - intros H. injection H as <-. rewrite (type_fault _ Ht). reflexivity.
  - discriminate.
Qed.

Lemma rpn_drain_fault (o e : list Part) (f : fault) :
  rpn_drain e o = Fatal f -> f = assert_back_not_open.
Proof.
  revert e. induction o as [|back o IH]; intros e; simpl; [discriminate|].
  destruct (Ascii.eqb _ _); [|apply IH].
  intros H. injection H as <-. reflexivity.
Qed.

Lemma rpn_loop_faults (s : list Symbol) (f : fault) (st : scan) :
  parts_sorted_out st -> rpn_loop s st = Fatal f -> rpn_fault f = true.
Proof.
  induction st as [st IH] using (scan_ind s). intros Hinv.
  rewrite rpn_loop_eq. destruct lt_dec as [Hlt|Hge].
  - destruct (rpn_step s st) as [st'|f'|u] eqn:Hst; cbn [bind]; try discriminate.
    + apply (IH st' Hlt eq_refl).
      exact (parts_sorted_out_step Hinv (rpn_step_step s st Hst)).
    + intros H. injection H as <-.
      exact (rpn_step_fault s st (proj2 Hinv) Hst).
  - intros H. rewrite (rpn_drain_fault _ _ H). reflexivity.
Qed.

Section EvaluatorFaults.

Variable fmod : double -> double -> double.
Variable pow : double -> double -> double.

(** Over numbers and operators the loop of [eval] never comes to an
    [abort()]: not to its own, and not to that of [applyOperator]. *)
Lemma eval_loop_no_fault (s : list Symbol) (expr : list Part)
  (evld : list double) (f : fault) :
  Forall number_or_operator expr ->
  eval_loop fmod pow s expr evld = Fatal f -> False.
Proof.
  intros Hall. revert evld.
  induction Hall as [|p expr Hp _ IH]; intros evld; simpl; [discriminate|].
  destruct Hp as [Hp|Hp]; rewrite Hp; cbn [bind].
  - unfold computeVal. destruct (from_chars _); cbn [bind]; [apply IH | discriminate].
  - destruct evld as [|b [|a evld]]; try discriminate.
    destruct (applyOperator_opr fmod pow a b _ Hp) as [r ->]. apply IH.
Qed.

End EvaluatorFaults.

(** X1.  [eval] stops the process at six places, and at no other.  A
    fault of [eval] is a fault of [rpn], which is one of five: an unknown
    character, a second period in a number, a period where no number has
    begun, a close parenthesis that finds no open parenthesis, an open
    parenthesis left at the end; or the conversion has returned and the
    fault is the final assertion on the size of [evld].  Each of the six is
    reached by some input.  The [abort()] of [prec], of [associa], of
    [applyOperator] and of the [switch] of [eval], and the assertion that
    an open parenthesis is on top of the stack, are never reached from
    [eval]. *)
Theorem eval_stops_at_six_places (fmod pow : double -> double -> double) :
  (forall s f,
      eval fmod pow s = Fatal f ->
      (rpn s [] = Fatal f /\ rpn_fault f = true) \/
      ((exists expr, rpn s [] = Ok expr) /\ f = assert_evld_size)) /\
  eval fmod pow (chars "1 # 2") = Fatal abort_type /\
  eval fmod pow (chars "1.2.3") = Fatal abort_second_period /\
  eval fmod pow (chars ".5") = Fatal abort_rpn /\
  eval fmod pow (chars "1)") = Fatal assert_oprs_nonempty /\
  eval fmod pow (chars "(1") = Fatal assert_back_not_open /\
  eval fmod pow (chars "1 2") = Fatal assert_evld_size.
Proof.
  split; [|repeat split; vm_compute; reflexivity].
  intros s f. unfold eval. intros H.
  destruct (rpn s []) as [expr|f'|u] eqn:Hrpn; cbn [bind] in H; try discriminate.
  - right. split; [eauto|].
    pose proof (rpn_number_or_operator s (Forall_nil _) Hrpn) as Hall.
    destruct (eval_loop fmod pow s expr []) as [evld|f'|u] eqn:Hloop;
      cbn [bind] in H; try discriminate.
    + destruct evld as [|v [|w evld]]; try discriminate;
        injection H as <-; reflexivity.
    + destruct (@eval_loop_no_fault _ _ _ _ _ _ Hall Hloop).
  - injection H as <-. left. split; [reflexivity|].
    apply (@rpn_loop_faults s f' (mkScan 0 [] [])); [|exact Hrpn].
    split; constructor.
Qed.

Lemma eval_stops_at_six_places_witness :
  rpn (chars "2*(3+4") [] = Fatal assert_back_not_open /\
  rpn_fault assert_back_not_open = true.
Proof.
  destruct (proj1 (eval_stops_at_six_places fmod_exact pow_integer)
              (chars "2*(3+4") assert_back_not_open) as [H|[_ H]].
  - vm_compute. reflexivity.
  - exact H.
  - discriminate H.
Defined.

(** ** The tables of the operators *)

(** X2.  The four [switch] statements about operators agree: the
    symbols that [type] takes for operators are those that [prec] gives a
    precedence, those that [associa] gives an associativity, and those that
    [applyOperator] applies; and operators of one precedence associate to
    the same side. *)
Theorem operator_tables_agree (c : Symbol) :
  (type c = Ok SymbolType.opr <-> exists p, prec c = Ok p) /\
  (type c = Ok SymbolType.opr <-> exists a, associa c = Ok a) /\
  (forall fmod pow a b,
      type c = Ok SymbolType.opr <->
      exists r, applyOperator fmod pow a b c = Ok r) /\
  (forall c' p, prec c = Ok p -> prec c' = Ok p -> associa c = associa c').
Proof.
  assert (Hsame : forall c' p, prec c = Ok p -> prec c' = Ok p ->
                               associa c = associa c').
  { intros c' p Hc Hc'.
    destruct (operator_prec_associa c (prec_operator c Hc)) as (q & a & Hq & Ha).
    destruct (operator_prec_associa c' (prec_operator c' Hc')) as (q' & a' & Hq' & Ha').
    rewrite Ha, Ha'. f_equal.
    assert (Hp : prec c = prec c') by congruence.
    clear - Hp Ha Ha'.
    destruct c as [[] [] [] [] [] [] [] []]; try discriminate Ha;
      destruct c' as [[] [] [] [] [] [] [] []]; try discriminate Ha';
      try discriminate Hp; simpl in Ha, Ha'; congruence. }
  split; [|split; [|split; [|exact Hsame]]].
  - split; [intros H; destruct (operator_prec_associa c H) as (p & _ & Hp & _); eauto|].
    intros [p H]. exact (prec_operator c H).
  - split; [intros H; destruct (operator_prec_associa c H) as (_ & a & _ & Ha); eauto|].
    intros [a H]. destruct (associa_operator c H) as [p Hp]. exact (prec_operator c Hp).
  - intros fmod pow a b. split; [apply applyOperator_opr|].
    intros [r H]. destruct c as [[] [] [] [] [] [] [] []]; try discriminate H;
      reflexivity.
Qed.

(** ** Characters that are no symbol *)

Lemma in_value_known (l : list Symbol) :
  forallb in_value l = true -> forallb known l = true.
Proof.
  induction l as [|c l IH]; intros H; [reflexivity|].
  simpl in H. apply andb_prop in H as [Hc Hl]. simpl.
  rewrite (IH Hl), andb_true_r. unfold known.
  destruct (in_value_type c Hc) as [[-> _]|[-> _]]; reflexivity.
Qed.

Lemma known_so_far_next (s : list Symbol) (n : nat) (c : Symbol)
  (rest : list Symbol) (t : SymbolType.t) :
  skipn n s = c :: rest -> type c = Ok t ->
  forallb known (firstn n s) = true ->
  S n <= length s /\ forallb known (firstn (S n) s) = true.
Proof.
  intros Hs Ht Hk. destruct (firstn_next s n Hs) as [Hf Hle].
  split; [exact Hle|]. rewrite Hf, forallb_app, Hk. simpl.
  unfold known. rewrite Ht. reflexivity.
Qed.

Lemma known_so_far_step (s : list Symbol) (st st' : scan) :
  known_so_far s st -> step s st st' -> known_so_far s st'.
Proof.
  unfold known_so_far. intros [_ Hk] H.
  destruct H as [n e o l rest Hs Hl Hstop | n e o c rest e' o' Hs Ht Hp
                | n e o rest Hs | n e o rest e' back o' Hs Hp Hb
                | n e o c rest Hs Ht]; cbn [i expr oprs] in *.
  - destruct l as [|c l]; [discriminate|].
    destruct (@skipn_app_length s n (c :: l) rest Hs) as (_ & Hf & Hle);
      [discriminate|].
    split; [exact Hle|]. rewrite Hf, forallb_app, Hk.
    apply in_value_known. apply (is_literal_cons c l Hl).
  - exact (known_so_far_next s n Hs Ht Hk).
  - apply (known_so_far_next s n Hs (t := SymbolType.open)); [reflexivity | exact Hk].
  - apply (known_so_far_next s n Hs (t := SymbolType.close)); [reflexivity | exact Hk].
  - exact (known_so_far_next s n Hs Ht Hk).
Qed.

(** A conversion that returns has read known characters only. *)
Lemma rpn_Ok_known (s : list Symbol) (expr0 expr : list Part) :
  rpn s expr0 = Ok expr -> forallb known s = true.
Proof.
  intros H.
  destruct (@rpn_loop_invariant s (known_so_far s) (@known_so_far_step s)
              (mkScan 0 expr0 []) expr) as (st & [Hle Hk] & Hge & _).
  - split; [simpl; lia | reflexivity].
  - exact H.
  - rewrite firstn_all2 in Hk by exact Hge. exact Hk.
Qed.

(** X3.  An input that holds a character the classifier does not know is
    never evaluated: wherever the character stands, [rpn] stops the
    process, and so does [eval]. *)
Theorem unknown_character_is_fatal (fmod pow : double -> double -> double)
  (s : list Symbol) :
  forallb known s = false ->
  exists f, rpn s [] = Fatal f /\ eval fmod pow s = Fatal f.
Proof.
  intros Hs.
  destruct (rpn_Ok_or_Fatal s []) as [[expr H]|[f H]].
  - rewrite (rpn_Ok_known s [] H) in Hs. discriminate.
  - exists f. split; [exact H|]. unfold eval. rewrite H. reflexivity.
Qed.

Lemma unknown_character_is_fatal_witness :
  exists f,
    rpn (chars "2 * x") [] = Fatal f /\
    eval fmod_exact pow_integer (chars "2 * x") = Fatal f.
Proof.
  apply (@unknown_character_is_fatal fmod_exact pow_integer (chars "2 * x")).
  reflexivity.
Defined.

(** ** The output the conversion is given *)

Lemma pop_operators_onto (c : Symbol) (e0 : list Part) (o e : list Part) :
  pop_operators c (e0 ++ e) o =
  ('(e', o') <- pop_operators c e o ;; Ok (e0 ++ e', o')).
Proof.
  revert e. induction o as [|back o IH]; intros e; simpl; [reflexivity|].
  destruct (Ascii.eqb _ _); [reflexivity|].
  destruct (prec (symbol back)) as [pb| |]; cbn [bind]; try reflexivity.
  destruct (prec c) as [ps| |]; cbn [bind]; try reflexivity.
  rewrite <- app_assoc.
  destruct (pb <? ps)%Z; [apply IH|].
  destruct (associa c) as [a| |]; cbn [bind]; try reflexivity.
  destruct a; [|reflexivity].
  destruct (pb =? ps)%Z; [apply IH | reflexivity].
Qed.

Lemma pop_to_open_onto (e0 : list Part) (o e : list Part) :
  pop_to_open (e0 ++ e) o =
  (e0 ++ fst (pop_to_open e o), snd (pop_to_open e o)).
Proof.
  revert e. induction o as [|back o IH]; intros e; simpl; [reflexivity|].
  destruct (Ascii.eqb _ _); [reflexivity|].
  rewrite <- app_assoc. apply IH.
Qed.

Lemma rpn_drain_onto (e0 : list Part) (o e : list Part) :
  rpn_drain (e0 ++ e) o = (e' <- rpn_drain e o ;; Ok (e0 ++ e')).
Proof.
  revert e. induction o as [|back o IH]; intros e; simpl; [reflexivity|].
  destruct (Ascii.eqb _ _); [reflexivity|].
  rewrite <- app_assoc. apply IH.
Qed.

Lemma rpn_step_onto (s : list Symbol) (e0 : list Part) (st : scan) :
  rpn_step s (onto e0 st) = (st' <- rpn_step s st ;; Ok (onto e0 st')).
Proof.
  unfold rpn_step, onto. cbn [i expr oprs].
  destruct (type (nth (i st) s Symbol.null)) as [t| |]; cbn [bind];
    try reflexivity.
  destruct t; cbn [bind]; try reflexivity.
  - destruct (Part_value s (i st) (i st)) as [[p i']| |]; cbn [bind];
      try reflexivity.
    cbn [i expr oprs]. rewrite app_assoc. reflexivity.
  - rewrite pop_operators_onto.
    destruct (pop_operators _ (expr st) (oprs st)) as [[e' o']| |];
      reflexivity.
  - rewrite pop_to_open_onto.
    destruct (pop_to_open (expr st) (oprs st)) as [e' o']. cbn [fst snd].
    destruct o' as [|back o']; [reflexivity|].
    destruct (Ascii.eqb _ _); reflexivity.
Qed.

Lemma rpn_loop_onto (s : list Symbol) (e0 : list Part) (st : scan) :
  rpn_loop s (onto e0 st) = (e <- rpn_loop s st ;; Ok (e0 ++ e)).
Proof.
  induction st as [st IH] using (scan_ind s).
  rewrite (rpn_loop_eq s (onto e0 st)), (rpn_loop_eq s st).
  change (i (onto e0 st)) with (i st).
  destruct lt_dec as [Hlt|Hge].
  - rewrite rpn_step_onto.
    destruct (rpn_step s st) as [st'| |] eqn:Hst; cbn [bind]; try reflexivity.
    apply (IH st' Hlt eq_refl).
  - apply rpn_drain_onto.
Qed.

(** X4.  [rpn] appends.  Called with an output that holds parts
    already, it leaves them in front and puts behind them what it puts into
    an empty output; it stops the process on the same inputs, at the same
    place. *)
Theorem rpn_appends_to_its_output (s : list Symbol) (expr0 : list Part) :
  rpn s expr0 = (expr <- rpn s [] ;; Ok (expr0 ++ expr)).
Proof.
  unfold rpn.
  rewrite <- (rpn_loop_onto s expr0 (mkScan 0 [] [])).
  unfold onto. cbn [i expr oprs]. rewrite app_nil_r. reflexivity.
Qed.

(** ** The parts and the input *)

Lemma part_of_input_one (s : list Symbol) (n : nat) (c : Symbol)
  (rest : list Symbol) :
  skipn n s = c :: rest -> is_val c = false ->
  part_of_input s (mkPart n (n + 1) c).
Proof.
  intros Hs Hc. destruct (skipn_cons_nth s n Hs) as (Hlt & Hn & _).
  unfold part_of_input, is_number. cbn [start end_ symbol].
  rewrite Hc. repeat split; auto; lia.
Qed.

Lemma part_of_input_value (s : list Symbol) (n : nat) (l rest : list Symbol) :
  skipn n s = l ++ rest -> is_literal l = true ->
  part_of_input s (mkPart n (n + length l) (hd Symbol.null l)).
Proof.
  intros Hs Hl. destruct l as [|c l]; [discriminate|].
  destruct (@skipn_app_length s n (c :: l) rest Hs) as (_ & _ & Hle);
    [discriminate|].
  destruct (skipn_cons_nth s n Hs) as (_ & Hn & _).
  destruct (is_literal_cons c l Hl) as (Ht & _ & _).
  unfold part_of_input, is_number, span, is_val. cbn [start end_ symbol hd].
  rewrite Ht. repeat split; auto.
  - simpl. lia.
  - rewrite Hs. replace (n + length (c :: l) - n) with (length (c :: l)) by lia.
    rewrite firstn_app, firstn_all, Nat.sub_diag. cbn [firstn].
    rewrite app_nil_r. exact Hl.
Qed.

Lemma operator_no_digit (c : Symbol) (t : SymbolType.t) :
  type c = Ok t -> t <> SymbolType.val -> is_val c = false.
Proof.
  unfold is_val. intros -> H. destruct t; congruence.
Qed.

Lemma parts_of_input_step (s : list Symbol) (st st' : scan) :
  parts_of_input s st -> step s st st' -> parts_of_input s st'.
Proof.
  unfold parts_of_input. intros [He Ho] H.
  destruct H as [n e o l rest Hs Hl Hstop | n e o c rest e' o' Hs Ht Hp
                | n e o rest Hs | n e o rest e' back o' Hs Hp Hb
                | n e o c rest Hs Ht]; cbn [i expr oprs] in *.
  - split; [|exact Ho]. apply Forall_app. split; [exact He|].
    constructor; [|constructor]. exact (part_of_input_value s n l rest Hs Hl).
  - destruct (pop_operators_split _ _ _ Hp) as (popped & -> & -> & _).
    apply Forall_app in Ho as [Hpo Ho']. split.
    + apply Forall_app. split; assumption.
    + constructor; [|exact Ho'].
      apply (part_of_input_one s n Hs). apply (operator_no_digit c Ht). discriminate.
  - split; [exact He|]. constructor; [|exact Ho].
    apply (part_of_input_one s n Hs). reflexivity.
  - destruct (pop_to_open_split _ _ Hp) as (popped & -> & -> & _).
    apply Forall_app in Ho as [Hpo Ho']. inversion Ho'; subst.
    split; [|assumption]. apply Forall_app. split; assumption.
  - split; assumption.
Qed.

Lemma rpn_parts_of_input (s : list Symbol) (expr : list Part) :
  rpn s [] = Ok expr -> Forall (part_of_input s) expr.
Proof.
  intros H.
  destruct (@rpn_loop_invariant s (parts_of_input s) (@parts_of_input_step s)
              (mkScan 0 [] []) expr) as (st & [He Ho] & _ & Hd).
  - split; constructor.
  - exact H.
  - destruct (rpn_drain_split _ _ Hd) as (-> & _).
    apply Forall_app. split; assumption.
Qed.

(** [from_chars] finds a number in every value. *)
Lemma read_digits_count (cs : list ascii) (n : Z) (k : nat) :
  k <= snd (fst (read_digits cs n k)).
Proof.
  revert n k. induction cs as [|c cs IH]; intros n k; cbn [read_digits];
    [simpl; lia|].
  destruct (digit_value c) as [d|]; [|simpl; lia].
  pose proof (IH (10 * n + d)%Z (S k)). lia.
Qed.

Lemma literal_has_decimal_prefix (l : list Symbol) :
  is_literal l = true -> exists n k, decimal_prefix l = Some (n, k).
Proof.
  destruct l as [|c l]; [discriminate|]. intros H.
  destruct (is_literal_cons c l H) as (Ht & _ & _).
  assert (Hc : is_val c = true) by (unfold is_val; rewrite Ht; reflexivity).
  destruct (is_val_digit_value c Hc) as [d Hd].
  unfold decimal_prefix. cbn [read_digits]. rewrite Hd.
  pose proof (read_digits_count l (10 * 0 + d) 1) as Hcount.
  destruct (read_digits l (10 * 0 + d) 1) as [[n ni] rest]. cbn [fst snd] in Hcount.
  assert (Hni : (ni =? 0) = false) by (apply Nat.eqb_neq; lia).
  destruct rest as [|r rest]; [rewrite Hni; eauto|].
  destruct (Ascii.eqb_spec r "."%char) as [->|Hr].
  - destruct (read_digits rest n 0) as [[m nf] rest'].
    assert (Hnf : (ni + nf =? 0) = false) by (apply Nat.eqb_neq; lia).
    rewrite Hnf. eauto.
  - assert (E : match r with
                | "."%char =>
                    let '(m, nf, _) := read_digits rest n 0 in
                    if (ni + nf =? 0) then None else Some (m, nf)
                | _ => if (ni =? 0) then None else Some (n, 0)
                end = Some (n, 0)).
    { rewrite Hni.
      destruct r as [[] [] [] [] [] [] [] []]; try reflexivity. congruence. }
    exact (ex_intro _ n (ex_intro _ 0 E)).
Qed.

(** X5.  Every part of the postfix expression spans characters of the
    input: it is not empty, it ends within the input, and its symbol is the
    first of its characters.  A number spans a digit followed by digits and
    at most one period, and [from_chars] finds a number in it; any other
    part spans one character. *)
Theorem postfix_parts_span_the_input (s : list Symbol) (expr : list Part) :
  rpn s [] = Ok expr ->
  Forall (part_of_input s) expr /\
  forall p, In p expr -> is_number p = true ->
            exists n k, decimal_prefix (span s p) = Some (n, k).
Proof.
  intros H. pose proof (rpn_parts_of_input s H) as Hall.
  split; [exact Hall|]. intros p Hin Hp.
  rewrite Forall_forall in Hall. destruct (Hall p Hin) as (_ & _ & _ & Hl).
  rewrite Hp in Hl. exact (literal_has_decimal_prefix _ Hl).
Qed.

Lemma postfix_parts_span_the_input_witness :
  Forall (part_of_input (chars "(12.5+3)*4"))
    [mkPart 1 5 "1"%char; mkPart 6 7 "3"%char; mkPart 5 6 "+"%char;
     mkPart 9 10 "4"%char; mkPart 8 9 "*"%char].
Proof.
  apply (@postfix_parts_span_the_input (chars "(12.5+3)*4")).
  vm_compute. reflexivity.
Defined.

(** ** The numbers keep their order *)

Lemma numbers_app (a b : list Part) : numbers (a ++ b) = numbers a ++ numbers b.
Proof. apply filter_app. Qed.

Lemma numbers_nil_app (a b : list Part) :
  numbers (a ++ b) = [] -> numbers a = [] /\ numbers b = [].
Proof. rewrite numbers_app. apply app_eq_nil. Qed.

Lemma StronglySorted_snoc (A : Type) (R : A -> A -> Prop) (l : list A) (x : A) :
  StronglySorted R l -> Forall (fun y => R y x) l -> StronglySorted R (l ++ [x]).
Proof.
  induction 1 as [|a l Hl IH Ha]; intros Hx; simpl.
  - constructor; constructor.
  - inversion Hx as [|? ? Hax Hlx]; subst. constructor; [apply IH; exact Hlx|].
    apply Forall_app. split; [exact Ha | constructor; [exact Hax | constructor]].
Qed.

Lemma numbers_read_before (s : list Symbol) (n : nat) (ps : list Part) :
  Forall (fun p => end_ p < n \/
                   (end_ p = n /\ stops_value (skipn n s) = true)) ps ->
  forall m, n < m -> 
  Forall (fun p => end_ p < m \/
                   (end_ p = m /\ stops_value (skipn m s) = true)) ps.
Proof.
  intros H m Hm. apply (Forall_impl _ (P := fun p => end_ p < n \/
    (end_ p = n /\ stops_value (skipn n s) = true))); [|exact H].
  intros p [Hp|[Hp _]]; left; lia.
Qed.

Lemma numbers_in_order_step (s : list Symbol) (st st' : scan) :
  numbers_in_order s st -> step s st st' -> numbers_in_order s st'.
Proof.
  unfold numbers_in_order. intros (Hsorted & Hread & Hstack) H.
  destruct H as [n e o l rest Hs Hl Hstop | n e o c rest e' o' Hs Ht Hp
                | n e o rest Hs | n e o rest e' back o' Hs Hp Hb
                | n e o c rest Hs Ht]; cbn [i expr oprs] in *.
  - destruct l as [|c l]; [discriminate|].
    destruct (is_literal_cons c l Hl) as (Ht & _ & _).
    destruct (@skipn_app_length s n (c :: l) rest Hs) as (Hrest & _ & _);
      [discriminate|].
    assert (Hnum : numbers [mkPart n (n + length (c :: l)) (hd Symbol.null (c :: l))]
                   = [mkPart n (n + length (c :: l)) (hd Symbol.null (c :: l))]).
    { unfold numbers, is_number, is_val. cbn [filter symbol hd].
      rewrite Ht. reflexivity. }
    rewrite numbers_app, Hnum.
    assert (Hbefore : Forall (fun p => end_ p < n) (numbers e)).
    { apply (Forall_impl _ (P := fun p => end_ p < n \/
        (end_ p = n /\ stops_value (skipn n s) = true))); [|exact Hread].
      intros p [Hp|[_ Hp]]; [exact Hp|].
      rewrite Hs in Hp. simpl in Hp. rewrite Ht in Hp. discriminate. }
    repeat split.
    + apply StronglySorted_snoc; [exact Hsorted | exact Hbefore].
    + apply Forall_app. split.
      * apply (Forall_impl _ (P := fun p => end_ p < n)); [|exact Hbefore].
        intros p Hp. left. simpl. lia.
      * constructor; [|constructor]. right. cbn [end_].
        rewrite Hrest. auto.
    + exact Hstack.
  - destruct (pop_operators_split _ _ _ Hp) as (popped & -> & -> & _).
    destruct (numbers_nil_app _ _ Hstack) as [Hpo Ho'].
    rewrite numbers_app, Hpo, app_nil_r.
    repeat split; [exact Hsorted | apply (@numbers_read_before s n _ Hread); lia |].
    unfold numbers, is_number. cbn [filter symbol].
    rewrite (operator_no_digit c Ht) by discriminate. exact Ho'.
  - repeat split; [exact Hsorted | apply (@numbers_read_before s n _ Hread); lia |].
    exact Hstack.
  - destruct (pop_to_open_split _ _ Hp) as (popped & -> & -> & _).
    destruct (numbers_nil_app _ _ Hstack) as [Hpo Ho'].
    rewrite numbers_app, Hpo, app_nil_r.
    repeat split; [exact Hsorted | apply (@numbers_read_before s n _ Hread); lia |].
    change (back :: o') with ([back] ++ o') in Ho'.
    apply (numbers_nil_app _ _ Ho').
  - repeat split; [exact Hsorted | apply (@numbers_read_before s n _ Hread); lia |].
    exact Hstack.
Qed.

(** X6.  The conversion never swaps numbers: in the postfix expression
    they stand in the order of the input, each ending before the next
    begins. *)
Theorem numbers_keep_their_order (s : list Symbol) (expr : list Part) :
  rpn s [] = Ok expr -> StronglySorted apart (numbers expr).
Proof.
  intros H.
  destruct (@rpn_loop_invariant s (numbers_in_order s) (@numbers_in_order_step s)
              (mkScan 0 [] []) expr) as (st & (Hsorted & _ & Hstack) & _ & Hd).
  - repeat split; constructor.
  - exact H.
  - destruct (rpn_drain_split _ _ Hd) as (-> & _).
    rewrite numbers_app, Hstack, app_nil_r. exact Hsorted.
Qed.

Lemma numbers_keep_their_order_witness :
  StronglySorted apart
    (numbers [mkPart 0 1 "1"%char; mkPart 2 3 "2"%char; mkPart 4 5 "3"%char;
              mkPart 3 4 "*"%char; mkPart 1 2 "+"%char]).
Proof.
  apply (@numbers_keep_their_order (chars "1+2*3")).
  vm_compute. reflexivity.
Defined.

(** ** The operators of the input and of the output *)

Lemma operator_symbols_app (a b : list Part) :
  operator_symbols (a ++ b) = operator_symbols a ++ operator_symbols b.
Proof. unfold operator_symbols. rewrite map_app. apply filter_app. Qed.

Lemma value_no_operator (l : list Symbol) :
  forallb in_value l = true -> filter is_operator l = [].
Proof.
  induction l as [|c l IH]; intros H; [reflexivity|].
  simpl in H. apply andb_prop in H as [Hc Hl]. simpl.
  unfold is_operator at 1.
  destruct (in_value_type c Hc) as [[-> _]|[-> _]]; exact (IH Hl).
Qed.

Lemma is_operator_type (c : Symbol) (t : SymbolType.t) :
  type c = Ok t ->
  is_operator c = match t with SymbolType.opr => true | _ => false end.
Proof. unfold is_operator. intros ->. reflexivity. Qed.

Lemma operator_symbols_cons (p : Part) (o : list Part) :
  operator_symbols (p :: o) =
  (if is_operator (symbol p) then [symbol p] else []) ++ operator_symbols o.
Proof.
  unfold operator_symbols. cbn [map filter].
  destruct (is_operator (symbol p)); reflexivity.
Qed.

Lemma filter_operator_next (s : list Symbol) (n : nat) (c : Symbol)
  (rest : list Symbol) :
  skipn n s = c :: rest ->
  filter is_operator (firstn (S n) s) =
  filter is_operator (firstn n s) ++ (if is_operator c then [c] else []).
Proof.
  intros Hs. destruct (firstn_next s n Hs) as [-> _].
  rewrite filter_app. cbn [filter]. destruct (is_operator c); reflexivity.
Qed.

Lemma operators_kept_step (s : list Symbol) (st st' : scan) :
  operators_kept s st -> step s st st' -> operators_kept s st'.
Proof.
  unfold operators_kept. intros Hperm H.
  destruct H as [n e o l rest Hs Hl Hstop | n e o c rest e' o' Hs Ht Hp
                | n e o rest Hs | n e o rest e' back o' Hs Hp Hb
                | n e o c rest Hs Ht]; cbn [i expr oprs] in *.
  - destruct l as [|c l]; [discriminate|].
    destruct (is_literal_cons c l Hl) as (Ht & Hall & _).
    destruct (@skipn_app_length s n (c :: l) rest Hs) as (_ & Hf & _);
      [discriminate|].
    rewrite Hf, filter_app, (value_no_operator _ Hall), app_nil_r.
    rewrite operator_symbols_app, operator_symbols_cons. cbn [symbol hd].
    rewrite (is_operator_type c Ht). cbn [app].
    unfold operator_symbols at 2. cbn [map filter]. rewrite app_nil_r.
    exact Hperm.
  - destruct (pop_operators_split _ _ _ Hp) as (popped & -> & -> & _).
    rewrite (filter_operator_next s n Hs), operator_symbols_cons. cbn [symbol].
    rewrite (is_operator_type c Ht), !operator_symbols_app in *.
    rewrite app_assoc in Hperm.
    apply Permutation_sym.
    apply Permutation_trans with (c :: filter is_operator (firstn n s)).
    + apply Permutation_sym, Permutation_cons_append.
    + cbn [app]. apply Permutation_cons_app. apply Permutation_sym. exact Hperm.
  - rewrite (filter_operator_next s n Hs), operator_symbols_cons. cbn [symbol].
    rewrite (is_operator_type Symbol.open (t := SymbolType.open) eq_refl).
    rewrite app_nil_r. exact Hperm.
  - destruct (pop_to_open_split _ _ Hp) as (popped & -> & -> & _).
    rewrite (filter_operator_next s n Hs).
    rewrite (is_operator_type Symbol.close (t := SymbolType.close) eq_refl).
    rewrite app_nil_r.
    rewrite !operator_symbols_app, operator_symbols_cons, Hb in Hperm.
    rewrite (is_operator_type Symbol.open (t := SymbolType.open) eq_refl) in Hperm.
    rewrite operator_symbols_app, <- app_assoc. exact Hperm.
  - rewrite (filter_operator_next s n Hs), (is_operator_type c Ht), app_nil_r.
    exact Hperm.
Qed.

(** X7.  The conversion keeps the operators: the operator symbols of the
    postfix expression are those of the input, each as often as the input
    has it, in another order. *)
Theorem operators_are_kept (s : list Symbol) (expr : list Part) :
  rpn s [] = Ok expr ->
  Permutation (operator_symbols expr) (filter is_operator s).
Proof.
  intros H.
  destruct (@rpn_loop_invariant s (operators_kept s) (@operators_kept_step s)
              (mkScan 0 [] []) expr) as (st & Hperm & Hge & Hd).
  - constructor.
  - exact H.
  - destruct (rpn_drain_split _ _ Hd) as (-> & _).
    unfold operators_kept in Hperm. rewrite firstn_all2 in Hperm by exact Hge.
    rewrite operator_symbols_app. exact Hperm.
Qed.

Lemma operators_are_kept_witness :
  Permutation
    (operator_symbols
       [mkPart 1 2 "1"%char; mkPart 3 4 "2"%char; mkPart 2 3 "+"%char;
        mkPart 6 7 "3"%char; mkPart 5 6 "*"%char; mkPart 8 9 "4"%char;
        mkPart 7 8 "-"%char])
    (filter is_operator (chars "(1+2)*3-4")).
Proof.
  apply (@operators_are_kept (chars "(1+2)*3-4")).
  vm_compute. reflexivity.
Defined.

(** ** Two operators of different precedence *)

Lemma pop_operators_tighter (c : Symbol) (e : list Part) (back : Part)
  (o : list Part) (pb ps : Z) :
  prec (symbol back) = Ok pb -> prec c = Ok ps -> (pb < ps)%Z ->
  pop_operators c e (back :: o) = pop_operators c (e ++ [back]) o.
Proof.
  intros Hb Hc Hlt. simpl.
  assert (Hopen : Ascii.eqb (symbol back) Symbol.open = false).
  { apply Ascii.eqb_neq. intros H. rewrite H in Hb. discriminate. }
  rewrite Hopen, Hb, Hc. cbn [bind].
  destruct (Z.ltb_spec pb ps); [reflexivity | lia].
Qed.

Lemma pop_operators_looser (c : Symbol) (e : list Part) (back : Part)
  (o : list Part) (pb ps : Z) :
  prec (symbol back) = Ok pb -> prec c = Ok ps -> (ps < pb)%Z ->
  pop_operators c e (back :: o) = Ok (e, back :: o).
Proof.
  intros Hb Hc Hlt. simpl.
  assert (Hopen : Ascii.eqb (symbol back) Symbol.open = false).
  { apply Ascii.eqb_neq. intros H. rewrite H in Hb. discriminate. }
  destruct (operator_prec_associa c (prec_operator c Hc)) as (ps' & a & _ & Ha).
  rewrite Hopen, Hb, Hc, Ha. cbn [bind].
  destruct (Z.ltb_spec pb ps); [lia|].
  destruct a; [|reflexivity].
  destruct (Z.eqb_spec pb ps); [lia | reflexivity].
Qed.

Lemma operator_not_open (c : Symbol) :
  type c = Ok SymbolType.opr -> Ascii.eqb c Symbol.open = false.
Proof. intros H. apply Ascii.eqb_neq. intros ->. discriminate. Qed.

(** The first operator binds tighter: it is popped, and applied, before
    the second is pushed. *)
Lemma rpn_tighter_first (a b c : list Symbol) (op1 op2 : Symbol) (p1 p2 : Z) :
  is_literal a = true -> is_literal b = true -> is_literal c = true ->
  prec op1 = Ok p1 -> prec op2 = Ok p2 -> (p1 < p2)%Z ->
  exists expr,
    rpn (a ++ op1 :: b ++ op2 :: c) [] = Ok expr /\
    grouped_left (a ++ op1 :: b ++ op2 :: c) a b c op1 op2 expr.
Proof.
  intros Ha Hb Hc Hp1 Hp2 Hlt.
  pose proof (prec_operator op1 Hp1) as Ht1.
  pose proof (prec_operator op2 Hp2) as Ht2.
  remember (a ++ op1 :: b ++ op2 :: c) as s eqn:Hs.
  rewrite <- (app_nil_r c) in Hs.
  change (s = [] ++ a ++ op1 :: b ++ op2 :: c ++ []) in Hs.
  unfold rpn. change 0 with (length (@nil Symbol)).
  rewrite (@read_value _ _ _ _ _ _ Hs Ha (stops_value_operator op1 _ Ht1)).
  pose proof (@span_value _ _ _ _ Hs) as HA. apply read_on in Hs.
  rewrite (@read_operator _ _ _ _ _ _ _ _ Hs Ht1 (pop_operators_empty op1 _)).
  apply read_on_1 in Hs.
  rewrite (@read_value _ _ _ _ _ _ Hs Hb (stops_value_operator op2 _ Ht2)).
  pose proof (@span_value _ _ _ _ Hs) as HB. apply read_on in Hs.
  erewrite (@read_operator _ _ _ _ _ _ _ _ Hs Ht2);
    [|rewrite pop_operators_tighter with (pb := p1) (ps := p2);
      [reflexivity | exact Hp1 | exact Hp2 | exact Hlt]].
  apply read_on_1 in Hs.
  read_literal Hs Hc HC. read_to_end Hs.
  cbn [rpn_drain app symbol]. rewrite (operator_not_open op2 Ht2).
  eexists. split; [reflexivity|].
  do 5 eexists. split; [reflexivity|].
  cbn [symbol]. auto 10 using literal_head.
Qed.

(** The second operator binds tighter: the first stays on the stack
    under it, and is applied last. *)
Lemma rpn_tighter_second (a b c : list Symbol) (op1 op2 : Symbol) (p1 p2 : Z) :
  is_literal a = true -> is_literal b = true -> is_literal c = true ->
  prec op1 = Ok p1 -> prec op2 = Ok p2 -> (p2 < p1)%Z ->
  exists expr,
    rpn (a ++ op1 :: b ++ op2 :: c) [] = Ok expr /\
    grouped_right (a ++ op1 :: b ++ op2 :: c) a b c op1 op2 expr.
Proof.
  intros Ha Hb Hc Hp1 Hp2 Hlt.
  pose proof (prec_operator op1 Hp1) as Ht1.
  pose proof (prec_operator op2 Hp2) as Ht2.
  remember (a ++ op1 :: b ++ op2 :: c) as s eqn:Hs.
  rewrite <- (app_nil_r c) in Hs.
  change (s = [] ++ a ++ op1 :: b ++ op2 :: c ++ []) in Hs.
  unfold rpn. change 0 with (length (@nil Symbol)).
  rewrite (@read_value _ _ _ _ _ _ Hs Ha (stops_value_operator op1 _ Ht1)).
  pose proof (@span_value _ _ _ _ Hs) as HA. apply read_on in Hs.
  rewrite (@read_operator _ _ _ _ _ _ _ _ Hs Ht1 (pop_operators_empty op1 _)).
  apply read_on_1 in Hs.
  rewrite (@read_value _ _ _ _ _ _ Hs Hb (stops_value_operator op2 _ Ht2)).
  pose proof (@span_value _ _ _ _ Hs) as HB. apply read_on in Hs.
  erewrite (@read_operator _ _ _ _ _ _ _ _ Hs Ht2);
    [|apply pop_operators_looser with (pb := p1) (ps := p2);
      [exact Hp1 | exact Hp2 | exact Hlt]].
  apply read_on_1 in Hs.
  read_literal Hs Hc HC. read_to_end Hs.
  cbn [rpn_drain app symbol].
  rewrite (operator_not_open op2 Ht2), (operator_not_open op1 Ht1).
  eexists. split; [reflexivity|].
  do 5 eexists. split; [reflexivity|].
  cbn [symbol]. auto 10 using literal_head.
Qed.

Section TwoOperators.

Variable fmod : double -> double -> double.
Variable pow : double -> double -> double.

Lemma eval_grouped_right_operators (s a b c : list Symbol) (op1 op2 : Symbol)
  (expr : list Part) :
  type op1 = Ok SymbolType.opr -> type op2 = Ok SymbolType.opr ->
  rpn s [] = Ok expr -> grouped_right s a b c op1 op2 expr ->
  eval fmod pow s =
  (x <- literal_value a ;; y <- literal_value b ;; z <- literal_value c ;;
   yz <- applyOperator fmod pow y z op2 ;; applyOperator fmod pow x yz op1).
Proof.
  intros Ht1 Ht2 Hrpn
    (A & B & C & P1 & P2 & -> & [HtA HA] & [HtB HB] & [HtC HC] & H1 & H2).
  unfold eval. rewrite Hrpn. cbn [bind eval_loop].
  rewrite HtA, HtB, HtC, H1, H2, Ht1, Ht2, !computeVal_span, HA, HB, HC.
  cbn [bind].
  destruct (literal_value a) as [x| |]; cbn [bind]; try reflexivity.
  destruct (literal_value b) as [y| |]; cbn [bind]; try reflexivity.
  destruct (literal_value c) as [z| |]; cbn [bind]; try reflexivity.
  destruct (applyOperator_opr fmod pow y z op2 Ht2) as [yz Hyz].
  rewrite Hyz. cbn [bind].
  destruct (applyOperator_opr fmod pow x yz op1 Ht1) as [r Hr].
  rewrite Hr. reflexivity.
Qed.

End TwoOperators.

(** X8.  Of two operators of different precedence the one that binds
    tighter is applied first, wherever it stands: [a op1 b op2 c] is
    [(a op1 b) op2 c] where [op1] binds tighter, and [a op1 (b op2 c)]
    where [op2] does. *)
Theorem precedence_decides_grouping (fmod pow : double -> double -> double)
  (a b c : list Symbol) (op1 op2 : Symbol) (p1 p2 : Z) :
  is_literal a = true -> is_literal b = true -> is_literal c = true ->
  prec op1 = Ok p1 -> prec op2 = Ok p2 ->
  ((p1 < p2)%Z ->
   eval fmod pow (a ++ op1 :: b ++ op2 :: c) =
   (x <- literal_value a ;; y <- literal_value b ;; z <- literal_value c ;;
    xy <- applyOperator fmod pow x y op1 ;; applyOperator fmod pow xy z op2)) /\
  ((p2 < p1)%Z ->
   eval fmod pow (a ++ op1 :: b ++ op2 :: c) =
   (x <- literal_value a ;; y <- literal_value b ;; z <- literal_value c ;;
    yz <- applyOperator fmod pow y z op2 ;; applyOperator fmod pow x yz op1)).
Proof.
  intros Ha Hb Hc Hp1 Hp2.
  pose proof (prec_operator op1 Hp1) as Ht1.
  pose proof (prec_operator op2 Hp2) as Ht2.
  split; intros Hlt.
  - destruct (rpn_tighter_first a b c op1 op2 Ha Hb Hc Hp1 Hp2 Hlt)
      as (expr & Hrpn & Hexpr).
    exact (eval_grouped_left fmod pow Ht1 Ht2 Hrpn Hexpr).
  - destruct (rpn_tighter_second a b c op1 op2 Ha Hb Hc Hp1 Hp2 Hlt)
      as (expr & Hrpn & Hexpr).
    exact (eval_grouped_right_operators fmod pow Ht1 Ht2 Hrpn Hexpr).
Qed.

Lemma precedence_decides_grouping_witness :
  eval fmod_exact pow_integer (chars "2*3+4") = Ok (double_of_Z 10) /\
  eval fmod_exact pow_integer (chars "2+3*4") = Ok (double_of_Z 14).
Proof.
  split.
  - refine (eq_trans
      (proj1 (@precedence_decides_grouping fmod_exact pow_integer
                (chars "2") (chars "3") (chars "4") "*"%char "+"%char 2%Z 3%Z
                eq_refl eq_refl eq_refl eq_refl eq_refl) eq_refl) _).
    vm_compute. reflexivity.
  - refine (eq_trans
      (proj2 (@precedence_decides_grouping fmod_exact pow_integer
                (chars "2") (chars "3") (chars "4") "+"%char "*"%char 3%Z 2%Z
                eq_refl eq_refl eq_refl eq_refl eq_refl) eq_refl) _).
    vm_compute. reflexivity.
Defined.

(** ** Expressions and their grouping *)

Lemma pops_operators (c b : Symbol) :
  pops c b = true ->
  exists pb pc a, prec b = Ok pb /\ prec c = Ok pc /\ associa c = Ok a.
Proof.
  unfold pops.
  destruct (prec b) as [pb| |]; try discriminate.
  destruct (prec c) as [pc| |]; try discriminate.
  destruct (associa c) as [a| |]; try discriminate.
  eauto 6.
Qed.

Lemma pop_operators_pops (c : Symbol) (e : list Part) (back : Part)
  (o : list Part) :
  pops c (symbol back) = true ->
  pop_operators c e (back :: o) = pop_operators c (e ++ [back]) o.
Proof.
  intros H. destruct (pops_operators c (symbol back) H) as (pb & pc & a & Hb & Hc & Ha).
  unfold pops in H. rewrite Hb, Hc, Ha in H.
  assert (Hopen : Ascii.eqb (symbol back) Symbol.open = false).
  { apply Ascii.eqb_neq. intros E. rewrite E in Hb. discriminate. }
  simpl. rewrite Hopen, Hb, Hc, Ha. cbn [bind].
  destruct (pb <? pc)%Z; [reflexivity|].
  destruct a; [|discriminate]. simpl in H. rewrite H. reflexivity.
Qed.

Lemma pop_operators_stays (c : Symbol) (e : list Part) (back : Part)
  (o : list Part) :
  type c = Ok SymbolType.opr -> type (symbol back) = Ok SymbolType.opr ->
  pops c (symbol back) = false ->
  pop_operators c e (back :: o) = Ok (e, back :: o).
Proof.
  intros Hc Hb H.
  destruct (operator_prec_associa c Hc) as (pc & a & Hpc & Ha).
  destruct (operator_prec_associa _ Hb) as (pb & _ & Hpb & _).
  unfold pops in H. rewrite Hpb, Hpc, Ha in H.
  apply orb_false_iff in H as [Hlt Heq].
  simpl. rewrite (operator_not_open _ Hb), Hpb, Hpc, Ha. cbn [bind].
  rewrite Hlt. destruct a; [rewrite Heq|]; reflexivity.
Qed.

(** An operator that pops [b] pops what [b] has left under it. *)
Lemma pops_above (c b b' : Symbol) :
  pops c b = true -> type b' = Ok SymbolType.opr -> pops b' b = false ->
  pops c b' = true.
Proof.
  intros Hcb Hb' Hb'b.
  destruct (pops_operators c b Hcb) as (pb & pc & a & Hpb & Hpc & Ha).
  destruct (operator_prec_associa b' Hb') as (pb' & a' & Hpb' & Ha').
  unfold pops in *. rewrite Hpb, Hpc, Ha, Hpb', ?Ha' in *.
  apply orb_false_iff in Hb'b as [H1 H2].
  apply orb_true_iff. apply orb_true_iff in Hcb.
  destruct (Z.ltb_spec pb pb'); [discriminate|].
  destruct (Z.ltb_spec pb' pc); [auto|]. right.
  destruct Hcb as [Hcb|Hcb]; [destruct (Z.ltb_spec pb pc); [lia | discriminate]|].
  destruct a; [|discriminate].
  apply Z.eqb_eq in Hcb. apply Z.eqb_eq. lia.
Qed.

(** An operator that [c] pops leaves on the stack what [c] leaves. *)
Lemma pops_below (c b top : Symbol) :
  pops c top = false -> type top = Ok SymbolType.opr -> pops c b = true ->
  pops b top = false.
Proof.
  intros Hct Htop Hcb.
  destruct (pops_operators c b Hcb) as (pb & pc & a & Hpb & Hpc & Ha).
  destruct (operator_prec_associa top Htop) as (pt & at' & Hpt & _).
  assert (Hb : type b = Ok SymbolType.opr) by exact (prec_operator b Hpb).
  destruct (operator_prec_associa b Hb) as (pb' & ab & Hpb' & Hab).
  unfold pops in *. rewrite Hpb, Hpc, Ha, Hpt, ?Hab in *.
  apply orb_false_iff in Hct as [H1 H2].
  apply orb_true_iff in Hcb. apply orb_false_iff.
  destruct (Z.ltb_spec pt pc); [discriminate|].
  split.
  - destruct (Z.ltb_spec pt pb); [|reflexivity].
    destruct Hcb as [Hcb|Hcb].
    + destruct (Z.ltb_spec pb pc); [lia | discriminate].
    + destruct a; [|discriminate]. apply Z.eqb_eq in Hcb. lia.
  - destruct ab; [|reflexivity].
    destruct (Z.eqb_spec pt pb); [|reflexivity].
    destruct Hcb as [Hcb|Hcb].
    + destruct (Z.ltb_spec pb pc); [lia | discriminate].
    + destruct a; [|discriminate]. apply Z.eqb_eq in Hcb.
      apply Z.eqb_neq in H2. lia.
Qed.

Lemma pop_to_open_popped (po : list Part) (back : Part) (o e : list Part) :
  Forall not_open po -> symbol back = Symbol.open ->
  pop_to_open e (po ++ back :: o) = (e ++ po, back :: o).
Proof.
  intros Hpo Hb. revert e.
  induction Hpo as [|p po Hp _ IH]; intros e; simpl.
  - rewrite Hb, Ascii.eqb_refl, app_nil_r. reflexivity.
  - apply Ascii.eqb_neq in Hp. rewrite Hp, IH, <- app_assoc. reflexivity.
Qed.

Lemma rpn_drain_not_open (po e : list Part) :
  Forall not_open po -> rpn_drain e po = Ok (e ++ po).
Proof.
  intros Hpo. revert e.
  induction Hpo as [|p po Hp _ IH]; intros e; simpl.
  - rewrite app_nil_r. reflexivity.
  - apply Ascii.eqb_neq in Hp. rewrite Hp, IH, <- app_assoc. reflexivity.
Qed.

Lemma is_operator_true (c : Symbol) :
  is_operator c = true -> type c = Ok SymbolType.opr.
Proof.
  unfold is_operator. destruct (type c) as [t| |]; try discriminate.
  destruct t; try discriminate. reflexivity.
Qed.

(** The operator of an expression finds a stack that holds. *)
Lemma pop_operators_holds (op : Symbol) (x y : term) (e g : list Part) :
  type op = Ok SymbolType.opr -> holds g (bin op x y) ->
  pop_operators op e g = Ok (e, g).
Proof.
  intros Hop Hg. destruct g as [|back g]; [reflexivity|].
  cbn [holds root] in Hg. destruct Hg as [Hg|[Hb Hg]].
  - simpl. rewrite Hg, Ascii.eqb_refl. reflexivity.
  - exact (@pop_operators_stays op e back g Hop Hb Hg).
Qed.

Lemma grouped_root (z : term) (oz : Symbol) :
  grouped z = true -> root z = Some oz -> type oz = Ok SymbolType.opr.
Proof.
  destruct z as [l|z|op x y]; try discriminate.
  cbn [grouped root]. intros H E. injection E as <-.
  apply andb_prop in H as [H _]. apply andb_prop in H as [H _].
  apply andb_prop in H as [H _]. apply andb_prop in H as [H _].
  exact (is_operator_true op H).
Qed.

Section TermsRead.

Variable fmod : double -> double -> double.
Variable pow : double -> double -> double.

Lemma pushes_lit (s pre l suf : list Symbol) :
  s = pre ++ l ++ suf -> is_literal l = true ->
  pushes fmod pow s
    [mkPart (length pre) (length (pre ++ l)) (hd Symbol.null l)] (lit l).
Proof.
  intros Hs Hl evld. cbn [eval_loop symbol value].
  rewrite (literal_head l Hl), computeVal_span, (span_value pre l suf Hs).
  cbn [bind]. destruct (literal_value l); reflexivity.
Qed.

Lemma text_read (z : term) : grouped z = true -> reads fmod pow z.
Proof.
  induction z as [l|z IH|op x IHx y IHy]; intros Hz s pre suf e0 g Hs Hstop Hg.
  - (* a number *)
    cbn [text grouped] in *.
    exists [mkPart (length pre) (length (pre ++ l)) (hd Symbol.null l)], [].
    split; [exact (@read_value s pre suf e0 g l Hs Hz Hstop)|].
    split; [constructor|]. rewrite app_nil_r.
    split; [exact (@pushes_lit s pre l suf Hs Hz)|].
    intros c e o _. cbn [app]. rewrite app_nil_r. reflexivity.
  - (* parentheses *)
    cbn [text grouped] in *.
    assert (Hs1 : s = pre ++ Symbol.open :: text z ++ Symbol.close :: suf).
    { rewrite Hs. cbn [app]. rewrite <- app_assoc. reflexivity. }
    rewrite (@read_open s pre (text z ++ Symbol.close :: suf) e0 g Hs1).
    apply read_on_1 in Hs1.
    destruct (IH Hz s (pre ++ [Symbol.open]) (Symbol.close :: suf) e0
                (mkPart (length pre) (length (pre ++ [Symbol.open])) Symbol.open :: g)
                Hs1 eq_refl)
      as (pz & sz & Hloop & Hsz & Hpush & _).
    { unfold holds. destruct (root z); [left; reflexivity | exact I]. }
    rewrite Hloop. apply read_on in Hs1.
    rewrite (@read_close s ((pre ++ [Symbol.open]) ++ text z) suf (e0 ++ pz)
               (sz ++ mkPart (length pre) (length (pre ++ [Symbol.open])) Symbol.open :: g)
               ((e0 ++ pz) ++ sz)
               (mkPart (length pre) (length (pre ++ [Symbol.open])) Symbol.open) g
               Hs1
               (@pop_to_open_popped sz
                  (mkPart (length pre) (length (pre ++ [Symbol.open])) Symbol.open)
                  g (e0 ++ pz) Hsz eq_refl)
               eq_refl).
    exists (pz ++ sz), []. split; [|split; [constructor|split]].
    + f_equal. f_equal.
      * f_equal. rewrite <- !app_assoc. reflexivity.
      * symmetry. apply app_assoc.
    + rewrite app_nil_r. exact Hpush.
    + intros c e o _. cbn [app]. rewrite app_nil_r. reflexivity.
  - (* an operator and its operands *)
    cbn [grouped] in Hz.
    apply andb_prop in Hz as [Hz Hy']. apply andb_prop in Hz as [Hz Hx'].
    apply andb_prop in Hz as [Hz Hy]. apply andb_prop in Hz as [Hop Hx].
    apply is_operator_true in Hop.
    cbn [text] in *.
    assert (Hs1 : s = pre ++ text x ++ op :: text y ++ suf).
    { rewrite Hs, <- app_assoc. reflexivity. }
    destruct (IHx Hx s pre (op :: text y ++ suf) e0 g Hs1
                (@stops_value_operator op _ Hop))
      as (px & sx & Hloopx & Hsx & Hpx & Hwx).
    { unfold holds. destruct (root x) as [ox|] eqn:Hrx; [|exact I].
      destruct g as [|back g]; [exact I|].
      cbn [holds root] in Hg. destruct Hg as [Hg|[Hb Hg]]; [left; exact Hg|].
      right. split; [exact Hb|]. exact (@pops_below op ox (symbol back) Hg Hb Hx'). }
    rewrite Hloopx. apply read_on in Hs1.
    assert (Hpop : pop_operators op (e0 ++ px) (sx ++ g) =
                   Ok ((e0 ++ px) ++ sx, g)).
    { rewrite (Hwx op (e0 ++ px) g) by (destruct (root x); [exact Hx' | exact I]).
      exact (@pop_operators_holds op x y ((e0 ++ px) ++ sx) g Hop Hg). }
    rewrite (@read_operator s (pre ++ text x) (text y ++ suf) (e0 ++ px) (sx ++ g)
               op _ _ Hs1 Hop Hpop).
    apply read_on_1 in Hs1.
    destruct (IHy Hy s ((pre ++ text x) ++ [op]) suf ((e0 ++ px) ++ sx)
                (mkPart (length (pre ++ text x))
                   (length ((pre ++ text x) ++ [op])) op :: g) Hs1 Hstop)
      as (py & sy & Hloopy & Hsy & Hpy & Hwy).
    { unfold holds. destruct (root y) as [oy|] eqn:Hry; [|exact I].
      right. cbn [symbol]. split; [exact Hop|].
      apply negb_true_iff. exact Hy'. }
    rewrite Hloopy.
    exists ((px ++ sx) ++ py),
      (sy ++ [mkPart (length (pre ++ text x)) (length ((pre ++ text x) ++ [op])) op]).
    split; [|split; [|split]].
    + f_equal. f_equal.
      * f_equal. rewrite <- !app_assoc. reflexivity.
      * rewrite <- !app_assoc. reflexivity.
      * rewrite <- !app_assoc. reflexivity.
    + apply Forall_app. split; [exact Hsy|].
      constructor; [|constructor]. unfold not_open. cbn [symbol].
      intros ->. discriminate.
    + intros evld.
      replace (((px ++ sx) ++ py) ++ sy ++
               [mkPart (length (pre ++ text x)) (length ((pre ++ text x) ++ [op])) op])
        with ((px ++ sx) ++ (py ++ sy) ++
              [mkPart (length (pre ++ text x)) (length ((pre ++ text x) ++ [op])) op])
        by (rewrite <- !app_assoc; reflexivity).
      rewrite eval_loop_app, Hpx. cbn [value].
      destruct (value fmod pow x) as [a| |]; cbn [bind]; try reflexivity.
      rewrite eval_loop_app, Hpy.
      destruct (value fmod pow y) as [b| |]; cbn [bind]; try reflexivity.
      cbn [eval_loop symbol]. rewrite Hop. cbn [bind].
      destruct (applyOperator fmod pow a b op); reflexivity.
    + intros c e o Hc. cbn [root] in Hc.
      rewrite <- app_assoc. cbn [app].
      rewrite (Hwy c e _).
      * rewrite (@pop_operators_pops c (e ++ sy) _ o) by exact Hc.
        rewrite <- app_assoc. reflexivity.
      * destruct (root y) as [oy|] eqn:Hry; [|exact I].
        apply (@pops_above c op oy Hc (@grouped_root y oy Hy Hry)).
        apply negb_true_iff. exact Hy'.
Qed.

Lemma eval_text (z : term) :
  grouped z = true -> eval fmod pow (text z) = value fmod pow z.
Proof.
  intros Hz.
  destruct (@text_read z Hz (text z) [] [] [] [])
    as (pz & sz & Hloop & Hsz & Hpush & _).
  - rewrite app_nil_r. reflexivity.
  - reflexivity.
  - unfold holds. destruct (root z); exact I.
  - unfold eval, rpn. change 0 with (length (@nil Symbol)).
    rewrite Hloop, rpn_loop_end by (cbn [i app]; lia).
    cbn [expr oprs app]. rewrite app_nil_r, (@rpn_drain_not_open _ _ Hsz).
    cbn [bind]. rewrite Hpush.
    destruct (value fmod pow z); reflexivity.
Qed.

End TermsRead.

(** X9.  [eval] computes the value of an expression by the grouping
    rules of its operators.  For every expression tree whose text has
    parentheses wherever the tree needs them (a left operand without
    parentheses has an operator that the operator behind it pops, a right
    operand without parentheses an operator that leaves the operator before
    it on the stack), [eval] of the text is the value of the tree, the
    operands of every operator taken from left to right. *)
Theorem eval_follows_the_grouping (fmod pow : double -> double -> double)
  (z : term) :
  grouped z = true -> eval fmod pow (text z) = value fmod pow z.
Proof. exact (eval_text fmod pow z). Qed.

Lemma eval_follows_the_grouping_witness :
  text (bin "-"%char
          (bin "-"%char (lit (chars "9"))
             (bin "*"%char (lit (chars "2"))
                (bin "^"%char (lit (chars "2")) (lit (chars "2")))))
          (par (bin "-"%char (lit (chars "4")) (lit (chars "3"))))) =
  chars "9-2*2^2-(4-3)" /\
  eval fmod_exact pow_integer (chars "9-2*2^2-(4-3)") = Ok (double_of_Z 0).
Proof.
  split; [reflexivity|].
  refine (eq_trans
    (@eval_follows_the_grouping fmod_exact pow_integer
       (bin "-"%char
          (bin "-"%char (lit (chars "9"))
             (bin "*"%char (lit (chars "2"))
                (bin "^"%char (lit (chars "2")) (lit (chars "2")))))
          (par (bin "-"%char (lit (chars "4")) (lit (chars "3")))))
       eq_refl) _).
  vm_compute. reflexivity.
Defined.

(** ** Tokens *)

Lemma blank_no_value (c : Symbol) : is_blank c = true -> in_value c = false.
Proof.
  unfold is_blank, in_value, is_val, is_period.
  destruct (type c) as [t| |]; try discriminate. destruct t; try discriminate.
  reflexivity.
Qed.

Lemma tokens_blank (c : Symbol) (r : list Symbol) :
  is_blank c = true -> tokens (c :: r) = tokens r.
Proof.
  intros H. unfold tokens. cbn [tokens_from].
  rewrite (blank_no_value c H), H. reflexivity.
Qed.

Lemma tokens_symbol (c : Symbol) (r : list Symbol) :
  in_value c = false -> is_blank c = false -> tokens (c :: r) = [c] :: tokens r.
Proof.
  intros Hv Hb. unfold tokens. cbn [tokens_from]. rewrite Hv, Hb. reflexivity.
Qed.

Lemma tokens_from_run (s run : list Symbol) :
  run ++ value_run s <> [] ->
  tokens_from run s =
  (run ++ value_run s) :: tokens (skipn (length (value_run s)) s).
Proof.
  revert run. induction s as [|c s IH]; intros run Hrun.
  - simpl in *. rewrite app_nil_r in *.
    destruct run; [congruence | reflexivity].
  - cbn [tokens_from value_run] in *. destruct (in_value c) eqn:Hc.
    + rewrite IH.
      * rewrite <- app_assoc. reflexivity.
      * rewrite <- app_assoc. simpl. destruct run; discriminate.
    + rewrite app_nil_r in *. cbn [length skipn].
      unfold tokens. cbn [tokens_from]. rewrite Hc.
      destruct run; [congruence | reflexivity].
Qed.

Lemma tokens_value (c : Symbol) (r : list Symbol) :
  in_value c = true ->
  tokens (c :: r) =
  value_run (c :: r) :: tokens (skipn (length (value_run (c :: r))) (c :: r)).
Proof.
  intros Hc. unfold tokens at 1.
  rewrite tokens_from_run; [reflexivity|].
  simpl. rewrite Hc. discriminate.
Qed.

(** Behind the run stands no digit and no period. *)
Lemma value_run_maximal (r : list Symbol) :
  match skipn (length (value_run r)) r with
  | [] => True
  | d :: _ => in_value d = false
  end.
Proof.
  induction r as [|c r IH]; simpl; [exact I|].
  destruct (in_value c) eqn:Hc; simpl; [exact IH | exact Hc].
Qed.

(** The loop of [rpn] goes over blanks. *)
Lemma rpn_loop_blanks (s : list Symbol) (e o : list Part) (r : list Symbol) :
  forall n, skipn n s = r ->
  exists m,
    rpn_loop s (mkScan n e o) = rpn_loop s (mkScan m e o) /\
    tokens (skipn m s) = tokens r /\
    match skipn m s with
    | [] => True
    | c :: _ => is_blank c = false
    end.
Proof.
  induction r as [|c r IH]; intros n Hn.
  - exists n. rewrite Hn. auto.
  - destruct (is_blank c) eqn:Hc.
    + destruct (skipn_next s n Hn) as [Hn' _].
      destruct (IH (S n) Hn') as (m & Hloop & Htok & Hhead).
      exists m. split; [|split; [|exact Hhead]].
      * rewrite <- Hloop. apply rpn_loop_step.
        apply (step_blank s n e o Hn).
        unfold is_blank in Hc. destruct (type c) as [t| |]; try discriminate.
        destruct t; try discriminate. reflexivity.
      * rewrite Htok, (tokens_blank c r Hc). reflexivity.
    + exists n. rewrite Hn, Hc. auto.
Qed.

Lemma type_Fatal_unknown (c : Symbol) :
  in_value c = false -> stops_value (c :: nil) = false -> type c = Fatal abort_type.
Proof.
  unfold in_value, is_val, is_period. simpl.
  destruct (type c) as [t|f|u] eqn:Ht.
  - destruct t; discriminate.
  - rewrite (type_fault c Ht). reflexivity.
  - destruct (type_defined _ Ht).
Qed.

Lemma stops_value_head (c : Symbol) (r : list Symbol) :
  stops_value (c :: r) = stops_value [c].
Proof. reflexivity. Qed.

(** Where the next token is an unknown character the conversion aborts. *)
Lemma unknown_token_aborts (s : list Symbol) (e o : list Part) (n : nat)
  (u : Symbol) (ts : list (list Symbol)) :
  tokens (skipn n s) = [u] :: ts -> type u = Fatal abort_type ->
  rpn_loop s (mkScan n e o) = Fatal abort_type.
Proof.
  intros Htok Hu.
  destruct (@rpn_loop_blanks s e o (skipn n s) n eq_refl) as (m & -> & Hm & Hhead).
  rewrite Htok in Hm.
  destruct (skipn m s) as [|c r] eqn:Hs; [discriminate|].
  assert (Hc : c = u).
  { destruct (in_value c) eqn:Hv.
    - rewrite (tokens_value c r Hv) in Hm. simpl in Hm. rewrite Hv in Hm.
      assert (Hcu : c = u) by congruence. subst c.
      unfold in_value, is_val, is_period in Hv. rewrite Hu in Hv. discriminate.
    - rewrite (tokens_symbol c r Hv Hhead) in Hm. congruence. }
  subst c. destruct (skipn_cons_nth s m Hs) as (Hlt & Hnth & _).
  apply (rpn_loop_fault s (mkScan m e o) Hlt). unfold rpn_step. cbn [i].
  rewrite Hnth, Hu. reflexivity.
Qed.

(** ** The conversion reads tokens *)

Lemma same_parts_snoc (s s' : list Symbol) (e e' : list Part) (p p' : Part) :
  same_parts s s' e e' -> same_part s s' p p' ->
  same_parts s s' (e ++ [p]) (e' ++ [p']).
Proof.
  intros He Hp. apply Forall2_app; [exact He|]. constructor; [exact Hp | constructor].
Qed.

Lemma pop_operators_same (s s' : list Symbol) (c : Symbol) (o o' : list Part) :
  same_parts s s' o o' ->
  forall e e', same_parts s s' e e' ->
  same_outcome (same_pair s s') (pop_operators c e o) (pop_operators c e' o').
Proof.
  induction 1 as [|back back' o o' Hb Ho IH]; intros e e' He; simpl.
  - split; [exact He | constructor].
  - assert (Hstop : same_pair s s' (e, back :: o) (e', back' :: o')).
    { split; [exact He | constructor; assumption]. }
    pose proof (IH _ _ (same_parts_snoc He Hb)) as Hpop.
    destruct Hb as [Hsym _]. rewrite <- Hsym.
    destruct (Ascii.eqb (symbol back) Symbol.open); [exact Hstop|].
    destruct (prec (symbol back)) as [pb| |]; cbn [bind]; try reflexivity.
    destruct (prec c) as [ps| |]; cbn [bind]; try reflexivity.
    destruct (pb <? ps)%Z; [exact Hpop|].
    destruct (associa c) as [a| |]; cbn [bind]; try reflexivity.
    destruct a; [|exact Hstop].
    destruct (pb =? ps)%Z; [exact Hpop | exact Hstop].
Qed.

Lemma pop_to_open_same (s s' : list Symbol) (o o' : list Part) :
  same_parts s s' o o' ->
  forall e e', same_parts s s' e e' ->
  same_pair s s' (pop_to_open e o) (pop_to_open e' o').
Proof.
  induction 1 as [|back back' o o' Hb Ho IH]; intros e e' He; simpl.
  - split; [exact He | constructor].
  - pose proof (IH _ _ (same_parts_snoc He Hb)) as Hpop.
    assert (Hstop : same_pair s s' (e, back :: o) (e', back' :: o')).
    { split; [exact He | constructor; assumption]. }
    destruct Hb as [Hsym _]. rewrite <- Hsym.
    destruct (Ascii.eqb (symbol back) Symbol.open); [exact Hstop | exact Hpop].
Qed.

Lemma rpn_drain_same (s s' : list Symbol) (o o' : list Part) :
  same_parts s s' o o' ->
  forall e e', same_parts s s' e e' ->
  same_outcome (same_parts s s') (rpn_drain e o) (rpn_drain e' o').
Proof.
  induction 1 as [|back back' o o' Hb Ho IH]; intros e e' He; simpl.
  - exact He.
  - pose proof (IH _ _ (same_parts_snoc He Hb)) as Hpop.
    destruct Hb as [Hsym _]. rewrite <- Hsym.
    destruct (Ascii.eqb (symbol back) Symbol.open); [reflexivity | exact Hpop].
Qed.

Lemma skipn_nil_length (s : list Symbol) (m : nat) :
  skipn m s = [] -> length s <= m.
Proof.
  intros H. pose proof (length_skipn m s) as Hlen. rewrite H in Hlen.
  simpl in Hlen. lia.
Qed.

Lemma tokens_cons_not_nil (c : Symbol) (r : list Symbol) :
  is_blank c = false -> tokens (c :: r) <> [].
Proof.
  intros Hb. destruct (in_value c) eqn:Hv.
  - rewrite (tokens_value c r Hv). discriminate.
  - rewrite (tokens_symbol c r Hv Hb). discriminate.
Qed.

(** The loop at a digit: the whole run becomes one number. *)
Lemma rpn_loop_value (s : list Symbol) (e o : list Part) (m : nat)
  (c : Symbol) (r : list Symbol) :
  skipn m s = c :: r -> is_val c = true ->
  rpn_loop s (mkScan m e o) =
  if periods (value_run (c :: r)) <=? 1 then
    if stops_value (skipn (m + length (value_run (c :: r))) s)
    then rpn_loop s (mkScan (m + length (value_run (c :: r)))
                       (e ++ [mkPart m (m + length (value_run (c :: r))) c]) o)
    else Fatal abort_type
  else Fatal abort_second_period.
Proof.
  intros Hs Hc. destruct (skipn_cons_nth s m Hs) as (Hlt & Hnth & _).
  rewrite (rpn_loop_next s (mkScan m e o) Hlt).
  rewrite (rpn_step_digit s (mkScan m e o)) by (cbn [i]; rewrite Hnth; exact Hc).
  cbn [i expr oprs]. cbv zeta. rewrite Hs, Hnth.
  destruct (periods _ <=? 1); [|reflexivity].
  destruct (stops_value _); reflexivity.
Qed.

(** The loop at any other character. *)
Lemma rpn_loop_symbol (s : list Symbol) (e o : list Part) (m : nat)
  (c : Symbol) (r : list Symbol) :
  skipn m s = c :: r ->
  rpn_loop s (mkScan m e o) =
  (st' <- rpn_step s (mkScan m e o) ;; rpn_loop s st') /\
  nth m s Symbol.null = c /\ skipn (S m) s = r /\
  span s (mkPart m (m + 1) c) = [c].
Proof.
  intros Hs. destruct (skipn_cons_nth s m Hs) as (Hlt & Hnth & Hr).
  repeat split; try assumption.
  - apply (rpn_loop_next s (mkScan m e o) Hlt).
  - unfold span. cbn [start end_]. rewrite Hs.
    replace (m + 1 - m) with 1 by lia. reflexivity.
Qed.

Lemma unknown_behind_run (rest : list Symbol) :
  stops_value rest = false ->
  match rest with [] => True | d :: _ => in_value d = false end ->
  exists u ts, tokens rest = [u] :: ts /\ type u = Fatal abort_type.
Proof.
  destruct rest as [|u rest]; [discriminate|]. intros Hstop Hv.
  rewrite stops_value_head in Hstop.
  pose proof (type_Fatal_unknown u Hv Hstop) as Hu.
  exists u, (tokens rest). split; [|exact Hu].
  apply tokens_symbol; [exact Hv|]. unfold is_blank. rewrite Hu. reflexivity.
Qed.

Lemma value_run_cons (c : Symbol) (r : list Symbol) :
  in_value c = true -> value_run (c :: r) = c :: value_run r.
Proof. intros H. simpl. rewrite H. reflexivity. Qed.

Lemma rpn_loop_same_tokens (s s' : list Symbol) (ts : list (list Symbol)) :
  forall n n' e e' o o',
    tokens (skipn n s) = ts -> tokens (skipn n' s') = ts ->
    same_parts s s' e e' -> same_parts s s' o o' ->
    same_outcome (same_parts s s')
      (rpn_loop s (mkScan n e o)) (rpn_loop s' (mkScan n' e' o')).
Proof.
  induction ts as [|t ts IH]; intros n n' e e' o o' Hn Hn' He Ho;
    destruct (@rpn_loop_blanks s e o (skipn n s) n eq_refl)
      as (m & -> & Hm & Hhead);
    destruct (@rpn_loop_blanks s' e' o' (skipn n' s') n' eq_refl)
      as (m' & -> & Hm' & Hhead');
    rewrite Hn in Hm; rewrite Hn' in Hm'; clear Hn Hn' n n'.
  - (* no token is left *)
    destruct (skipn m s) as [|c r] eqn:Hs;
      [|destruct (tokens_cons_not_nil c r Hhead Hm)].
    destruct (skipn m' s') as [|c' r'] eqn:Hs';
      [|destruct (tokens_cons_not_nil c' r' Hhead' Hm')].
    rewrite (rpn_loop_end s (mkScan m e o) (skipn_nil_length s m Hs)).
    rewrite (rpn_loop_end s' (mkScan m' e' o') (skipn_nil_length s' m' Hs')).
    exact (rpn_drain_same Ho He).
  - destruct (skipn m s) as [|c r] eqn:Hs; [discriminate|].
    destruct (skipn m' s') as [|c' r'] eqn:Hs'; [discriminate|].
    destruct (in_value c) eqn:Hv.
    + (* a run of digits and periods *)
      rewrite (tokens_value c r Hv) in Hm.
      assert (Hv' : in_value c' = true).
      { destruct (in_value c') eqn:Hv'; [reflexivity|].
        rewrite (tokens_symbol c' r' Hv' Hhead'), <- Hm, (value_run_cons c r Hv) in Hm'.
        assert (c' = c) by congruence. congruence. }
      rewrite (tokens_value c' r' Hv') in Hm'.
      assert (Ht : value_run (c :: r) = t) by congruence.
      assert (Ht' : value_run (c' :: r') = t) by congruence.
      assert (Hts : tokens (skipn (m + length t) s) = ts).
      { rewrite Nat.add_comm, <- skipn_skipn, Hs, <- Ht. congruence. }
      assert (Hts' : tokens (skipn (m' + length t) s') = ts).
      { rewrite Nat.add_comm, <- skipn_skipn, Hs', <- Ht'. congruence. }
      assert (Hmax : match skipn (m + length t) s with
                     | [] => True | d :: _ => in_value d = false end).
      { rewrite Nat.add_comm, <- skipn_skipn, Hs, <- Ht. apply value_run_maximal. }
      assert (Hmax' : match skipn (m' + length t) s' with
                      | [] => True | d :: _ => in_value d = false end).
      { rewrite Nat.add_comm, <- skipn_skipn, Hs', <- Ht'. apply value_run_maximal. }
      assert (Hc : c' = c).
      { rewrite (value_run_cons c r Hv) in Ht.
        rewrite (value_run_cons c' r' Hv') in Ht'. congruence. }
      subst c'.
      destruct (in_value_type c Hv) as [[Htc _]|[Htc _]].
      * assert (Hval : is_val c = true) by (unfold is_val; rewrite Htc; reflexivity).
        rewrite (rpn_loop_value s e o m Hs Hval), (rpn_loop_value s' e' o' m' Hs' Hval).
        rewrite Ht, Ht'.
        destruct (periods t <=? 1); [|reflexivity].
        destruct (stops_value (skipn (m + length t) s)) eqn:Hstop;
          destruct (stops_value (skipn (m' + length t) s')) eqn:Hstop'.
        -- apply IH; try assumption. apply same_parts_snoc; [exact He|].
           split; [reflexivity|].
           pose proof (span_value_run s m c) as Hspan.
           pose proof (span_value_run s' m' c) as Hspan'.
           rewrite Hs, Ht in Hspan. rewrite Hs', Ht' in Hspan'. congruence.
        -- destruct (unknown_behind_run _ Hstop' Hmax') as (u & ts' & Hu & Htu).
           rewrite (@unknown_token_aborts s _ o _ u ts'); [reflexivity | congruence | exact Htu].
        -- destruct (unknown_behind_run _ Hstop Hmax) as (u & ts' & Hu & Htu).
           rewrite (@unknown_token_aborts s' _ o' _ u ts'); [reflexivity | congruence | exact Htu].
        -- reflexivity.
      * destruct (rpn_loop_symbol s e o m Hs) as (-> & Hnth & _).
        destruct (rpn_loop_symbol s' e' o' m' Hs') as (-> & Hnth' & _).
        unfold rpn_step. cbn [i]. rewrite Hnth, Hnth', Htc. reflexivity.
    + (* any other character *)
      rewrite (tokens_symbol c r Hv Hhead) in Hm.
      assert (Hv' : in_value c' = false).
      { destruct (in_value c') eqn:Hv'; [|reflexivity].
        rewrite (tokens_value c' r' Hv'), <- Hm, (value_run_cons c' r' Hv') in Hm'.
        assert (c' = c) by congruence. congruence. }
      rewrite (tokens_symbol c' r' Hv' Hhead') in Hm'.
      assert (Hc : c' = c) by congruence. subst c'.
      assert (Hts : tokens r = ts) by congruence.
      assert (Hts' : tokens r' = ts) by congruence.
      destruct (rpn_loop_symbol s e o m Hs) as (-> & Hnth & Hr & Hspan).
      destruct (rpn_loop_symbol s' e' o' m' Hs') as (-> & Hnth' & Hr' & Hspan').
      assert (Hpart : same_part s s' (mkPart m (m + 1) c) (mkPart m' (m' + 1) c)).
      { split; [reflexivity | congruence]. }
      unfold rpn_step, Part_opr. cbn [i expr oprs]. rewrite Hnth, Hnth'.
      destruct (type c) as [ty|f|u] eqn:Htc; cbn [bind]; try reflexivity.
      destruct ty; cbn [bind]; try reflexivity.
      * unfold in_value, is_val in Hv. rewrite Htc in Hv. discriminate.
      * pose proof (pop_operators_same c Ho He) as Hpop.
        destruct (pop_operators c e o) as [[e1 o1]|f|u];
          destruct (pop_operators c e' o') as [[e1' o1']|f'|u'];
          cbn [same_outcome] in Hpop; try contradiction; cbn [bind];
          try (rewrite Hpop; reflexivity).
        destruct Hpop as [He1 Ho1]. cbn [fst snd] in *.
        apply IH; [rewrite Hr; exact Hts | rewrite Hr'; exact Hts' | exact He1 |].
        constructor; assumption.
      * apply IH; [rewrite Hr; exact Hts | rewrite Hr'; exact Hts' | exact He |].
        constructor; assumption.
      * pose proof (pop_to_open_same Ho He) as Hpop.
        destruct (pop_to_open e o) as [e1 o1].
        destruct (pop_to_open e' o') as [e1' o1'].
        destruct Hpop as [He1 Ho1]. cbn [fst snd] in *.
        destruct Ho1 as [|back back' o1 o1' [Hsym _] Ho1]; [reflexivity|].
        rewrite <- Hsym.
        destruct (Ascii.eqb (symbol back) Symbol.open); [|reflexivity].
        apply IH; [rewrite Hr; exact Hts | rewrite Hr'; exact Hts' | exact He1 | exact Ho1].
      * unfold is_blank in Hhead. rewrite Htc in Hhead. discriminate.
Qed.

Section SameTokens.

Variable fmod : double -> double -> double.
Variable pow : double -> double -> double.

Lemma eval_loop_same (s s' : list Symbol) (expr expr' : list Part) :
  same_parts s s' expr expr' ->
  forall evld,
    eval_loop fmod pow s expr evld = eval_loop fmod pow s' expr' evld.
Proof.
  induction 1 as [|p p' expr expr' [Hsym Hspan] _ IH]; intros evld; simpl;
    [reflexivity|].
  rewrite <- Hsym, !computeVal_span, <- Hspan.
  destruct (type (symbol p)) as [t| |]; cbn [bind]; try reflexivity.
  destruct t; try reflexivity.
  - destruct (literal_value (span s p)); cbn [bind]; try reflexivity. apply IH.
  - destruct evld as [|b [|a evld]]; try reflexivity.
    destruct (applyOperator fmod pow a b (symbol p)); cbn [bind]; try reflexivity.
    apply IH.
Qed.

Lemma eval_same_tokens (s s' : list Symbol) :
  tokens s = tokens s' -> eval fmod pow s = eval fmod pow s'.
Proof.
  intros H.
  pose proof (@rpn_loop_same_tokens s s' (tokens s') 0 0 [] [] [] []
                H eq_refl (Forall2_nil _) (Forall2_nil _)) as Hrpn.
  unfold eval, rpn.
  destruct (rpn_loop s (mkScan 0 [] [])) as [expr|f|u];
    destruct (rpn_loop s' (mkScan 0 [] [])) as [expr'|f'|u'];
    cbn [same_outcome] in Hrpn; try contradiction; cbn [bind];
    try (rewrite Hrpn; reflexivity).
  rewrite (eval_loop_same Hrpn). reflexivity.
Qed.

End SameTokens.

(** X10.  [eval] depends on its input through the tokens only: two inputs
    with the same numbers, operators, parentheses and unknown characters in
    the same order have the same outcome, whatever blanks they hold. *)
Theorem eval_reads_tokens_only (fmod pow : double -> double -> double)
  (s s' : list Symbol) :
  tokens s = tokens s' -> eval fmod pow s = eval fmod pow s'.
Proof. exact (eval_same_tokens fmod pow s s'). Qed.

Lemma eval_reads_tokens_only_witness :
  tokens (chars " 12 +3* ( 4-1 )") = [chars "12"; chars "+"; chars "3"; chars "*";
                                       chars "("; chars "4"; chars "-"; chars "1";
                                       chars ")"] /\
  eval fmod_exact pow_integer (chars " 12 +3* ( 4-1 )") =
  eval fmod_exact pow_integer (chars "12+3*(4-1)").
Proof.
  split; [reflexivity|].
  apply (@eval_reads_tokens_only fmod_exact pow_integer). reflexivity.
Defined.

(** ** Blanks between tokens *)

Lemma last_cons (c d : Symbol) (l : list Symbol) :
  l <> [] -> last (c :: l) d = last l d.
Proof. destruct l; [congruence | reflexivity]. Qed.

(** The tokens of [l ++ x]: those that end in [l], then the tokens of
    [x] behind the run [l] ends with. *)
Lemma tokens_from_app (l : list Symbol) :
  forall run, exists front run',
    (forall x, tokens_from run (l ++ x) = front ++ tokens_from run' x) /\
    (run' = [] \/ in_value (last l Symbol.space) = true \/ (l = [] /\ run' = run)).
Proof.
  induction l as [|c l IH]; intros run.
  - exists [], run. split; [reflexivity | auto].
  - cbn [app tokens_from]. destruct (in_value c) eqn:Hc.
    + destruct (IH (run ++ [c])) as (front & run' & Hx & Hrun).
      exists front, run'. split; [exact Hx|].
      destruct Hrun as [Hrun|[Hrun|[-> _]]]; [auto | | simpl; auto].
      destruct l as [|d l]; [simpl; auto|].
      right. left. rewrite last_cons by discriminate. exact Hrun.
    + destruct (IH []) as (front & run' & Hx & Hrun).
      exists (close_run run ++ (if is_blank c then [] else [[c]]) ++ front), run'.
      split; [intros x; rewrite Hx, <- !app_assoc; reflexivity|].
      destruct Hrun as [Hrun|[Hrun|[-> ->]]]; [auto | | auto].
      destruct l as [|d l]; [simpl in Hrun; discriminate|].
      right. left. rewrite last_cons by discriminate. exact Hrun.
Qed.

Lemma whitespace_is_blank (c : Symbol) : whitespace c -> is_blank c = true.
Proof. intros H. unfold is_blank. rewrite (whitespace_blank H). reflexivity. Qed.

Lemma tokens_blanks (b r : list Symbol) :
  Forall whitespace b -> tokens (b ++ r) = tokens r.
Proof.
  induction 1 as [|c b Hc _ IH]; [reflexivity|].
  cbn [app]. rewrite (tokens_blank c _ (whitespace_is_blank Hc)). exact IH.
Qed.

Lemma tokens_from_blanks (run b r : list Symbol) :
  Forall whitespace b -> b <> [] ->
  tokens_from run (b ++ r) = close_run run ++ tokens r.
Proof.
  intros Hb Hne. destruct Hb as [|c b Hc Hb]; [congruence|].
  pose proof (whitespace_is_blank Hc) as Hblank.
  cbn [app tokens_from]. rewrite (blank_no_value c Hblank), Hblank.
  cbn [app]. f_equal. exact (tokens_blanks r Hb).
Qed.

Lemma tokens_from_apart (run r : list Symbol) :
  run = [] \/ in_value (hd Symbol.space r) = false ->
  tokens_from run r = close_run run ++ tokens r.
Proof.
  intros [->|Hr]; [reflexivity|].
  destruct r as [|c r]; [simpl; rewrite app_nil_r; reflexivity|].
  simpl in Hr. unfold tokens. cbn [tokens_from]. rewrite Hr. reflexivity.
Qed.

Lemma tokens_apart (l b r : list Symbol) :
  Forall whitespace b -> joined l r = false ->
  tokens (l ++ b ++ r) = tokens (l ++ r).
Proof.
  intros Hb Hj. destruct b as [|c b]; [reflexivity|].
  destruct (tokens_from_app l []) as (front & run' & Hx & Hrun).
  unfold tokens. rewrite !Hx.
  rewrite (tokens_from_blanks run' r Hb) by discriminate.
  rewrite tokens_from_apart; [reflexivity|].
  unfold joined in Hj. apply andb_false_iff in Hj.
  destruct Hrun as [Hrun|[Hrun|[_ Hrun]]]; auto.
  destruct Hj as [Hj|Hj]; [congruence | auto].
Qed.

(** X11.  Blanks between two tokens change nothing: with or without
    them [eval] has the same outcome, unless they stand between two
    characters that would be read as one number without them. *)
Theorem blanks_between_tokens_are_ignored
  (fmod pow : double -> double -> double) (l b r : list Symbol) :
  Forall whitespace b -> joined l r = false ->
  eval fmod pow (l ++ b ++ r) = eval fmod pow (l ++ r).
Proof.
  intros Hb Hj. apply eval_same_tokens. exact (tokens_apart l r Hb Hj).
Qed.

Lemma blanks_between_tokens_are_ignored_witness :
  eval fmod_exact pow_integer (chars "(1+" ++ [Symbol.space; Symbol.tab] ++ chars "2)*3") =
  eval fmod_exact pow_integer (chars "(1+" ++ chars "2)*3").
Proof.
  apply (@blanks_between_tokens_are_ignored fmod_exact pow_integer).
  - apply Forall_cons; [left; reflexivity|].
    apply Forall_cons; [right; left; reflexivity | apply Forall_nil].
  - reflexivity.
Defined.

(** ** Division by zero *)

Lemma ddiv_zero (x : double) :
  ddiv x (S754_zero false) =
  match x with
  | S754_zero _ | S754_nan => S754_nan
  | S754_infinity sx | S754_finite sx _ _ => S754_infinity sx
  end.
Proof. destruct x as [sx|sx| |sx m e]; try reflexivity; destruct sx; reflexivity. Qed.

(** X12.  Division by zero does not stop the process: [a/0] evaluates to
    an infinity where [a] is not zero, and to a NaN where it is. *)
Theorem division_by_zero_is_no_fault (fmod pow : double -> double -> double)
  (a : list Symbol) (x : double) :
  is_literal a = true -> literal_value a = Ok x ->
  eval fmod pow (a ++ chars "/0") =
  Ok (match x with
      | S754_zero _ | S754_nan => S754_nan
      | S754_infinity sx | S754_finite sx _ _ => S754_infinity sx
      end).
Proof.
  intros Ha Hx.
  assert (Hz : grouped (bin "/"%char (lit a) (lit (chars "0"))) = true).
  { cbn [grouped root]. rewrite Ha. reflexivity. }
  pose proof (eval_text fmod pow _ Hz) as H.
  cbn [text value] in H. rewrite Hx in H. cbn [bind] in H.
  rewrite <- ddiv_zero. exact H.
Qed.

Lemma division_by_zero_is_no_fault_witness :
  eval fmod_exact pow_integer (chars "12.5/0") = Ok (S754_infinity false) /\
  eval fmod_exact pow_integer (chars "0/0") = Ok S754_nan.
Proof.
  split.
  - apply (@division_by_zero_is_no_fault fmod_exact pow_integer (chars "12.5")
             (double_of_dyadic 25 (-1))); vm_compute; reflexivity.
  - apply (@division_by_zero_is_no_fault fmod_exact pow_integer (chars "0")
             (S754_zero false)); vm_compute; reflexivity.
Defined.

(** ** A sign in front of a number *)

Lemma rpn_leading_operator (op : Symbol) (a : list Symbol) :
  type op = Ok SymbolType.opr -> is_literal a = true ->
  exists A P,
    rpn (op :: a) [] = Ok [A; P] /\
    (type (symbol A) = Ok SymbolType.val /\ span (op :: a) A = a) /\
    symbol P = op.
Proof.
  intros Hop Ha.
  remember (op :: a) as s eqn:Hs.
  rewrite <- (app_nil_r a) in Hs.
  change (s = [] ++ op :: a ++ []) in Hs.
  unfold rpn. change 0 with (length (@nil Symbol)).
  rewrite (@read_operator _ _ _ _ _ _ _ _ Hs Hop (pop_operators_empty op _)).
  apply read_on_1 in Hs.
  read_literal Hs Ha HA. read_to_end Hs.
  cbn [rpn_drain app symbol]. rewrite (operator_not_open op Hop).
  do 2 eexists. split; [reflexivity|].
  cbn [symbol]. auto using literal_head.
Qed.

(** X13.  A sign in front of a number is no part of the number: in
    [op a] the operator finds one value on the stack, and [eval] reads
    [evld] out of its bounds, with no check, unless the number is out of
    the range of [double]. *)
Theorem leading_operator_lacks_a_value (fmod pow : double -> double -> double)
  (op : Symbol) (a : list Symbol) :
  type op = Ok SymbolType.opr -> is_literal a = true ->
  eval fmod pow (op :: a) =
  (x <- literal_value a ;; Undefined evld_out_of_bounds).
Proof.
  intros Hop Ha.
  destruct (rpn_leading_operator op a Hop Ha) as (A & P & Hrpn & [HtA HA] & HP).
  unfold eval. rewrite Hrpn. cbn [bind eval_loop].
  rewrite HtA, HP, Hop, computeVal_span, HA. cbn [bind].
  destruct (literal_value a); reflexivity.
Qed.

Lemma leading_operator_lacks_a_value_witness :
  eval fmod_exact pow_integer (chars "-1") = Undefined evld_out_of_bounds.
Proof.
  refine (eq_trans
    (@leading_operator_lacks_a_value fmod_exact pow_integer "-"%char (chars "1")
       eq_refl eq_refl) _).
  vm_compute. reflexivity.
Defined.

(** ** The grouping of an input *)

Lemma unwind_spec (stop : Symbol -> bool) (G : list frame) :
  forall u,
    chain G -> grouped u = true -> rests u G ->
    chain (fst (unwind stop G u)) /\
    grouped (snd (unwind stop G u)) = true /\
    frames_tokens (fst (unwind stop G u)) ++ term_tokens (snd (unwind stop G u)) =
    frames_tokens G ++ term_tokens u /\
    match fst (unwind stop G u) with
    | left_operand _ op :: _ => stop op = true
    | _ => True
    end /\
    (root (snd (unwind stop G u)) = root u \/
     exists op, root (snd (unwind stop G u)) = Some op /\ stop op = false).
Proof.
  induction G as [|f G IH]; intros u HG Hu Hr.
  - simpl. repeat split; auto.
  - destruct f as [|t op]; [simpl; repeat split; auto|].
    cbn [unwind]. destruct (stop op) eqn:Hstop.
    + cbn [fst snd]. split; [exact HG|]. split; [exact Hu|].
      split; [reflexivity|]. split; [exact Hstop|]. left. reflexivity.
    + cbn [chain] in HG. destruct HG as (Ht & Hop & Hleft & Hunder & HG).
      assert (Hbin : grouped (bin op t u) = true).
      { cbn [grouped]. unfold is_operator. rewrite Hop, Ht, Hu. cbn [andb].
        apply andb_true_intro. split.
        - destruct (root t); [exact Hleft | reflexivity].
        - unfold rests in Hr. destruct (root u); [|reflexivity].
          rewrite Hr. reflexivity. }
      assert (Hrests : rests (bin op t u) G).
      { unfold rests. cbn [root]. destruct G as [|[|t0 op0] G]; auto. }
      destruct (IH (bin op t u) HG Hbin Hrests) as (H1 & H2 & H3 & H4 & H5).
      repeat split; try assumption.
      * rewrite H3. cbn [frames_tokens frame_tokens term_tokens].
        rewrite <- !app_assoc. reflexivity.
      * right. destruct H5 as [H5|H5]; [|exact H5].
        exists op. split; [exact H5 | exact Hstop].
Qed.

Lemma aligned_cons (o : list Part) (f : frame) (G : list frame) :
  map symbol o = map frame_symbol (f :: G) ->
  exists back o', o = back :: o' /\ symbol back = frame_symbol f /\
                  map symbol o' = map frame_symbol G.
Proof.
  destruct o as [|back o']; [discriminate|]. simpl. intros H.
  injection H as H1 H2. eauto.
Qed.

Lemma pop_operators_unwind (c : Symbol) (G : list frame) :
  forall o e e' o' u,
    type c = Ok SymbolType.opr ->
    map symbol o = map frame_symbol G -> chain G ->
    pop_operators c e o = Ok (e', o') ->
    map symbol o' = map frame_symbol (fst (unwind (fun op => negb (pops c op)) G u)).
Proof.
  intros o e e' o' u Hc. revert o e e' o' u.
  induction G as [|f G IH]; intros o e e' o' u Ho HG Hp.
  - destruct o; [|discriminate]. simpl in Hp. injection Hp as _ <-. reflexivity.
  - destruct (@aligned_cons o f G Ho) as (back & o1 & -> & Hb & Ho1).
    destruct f as [|t op]; cbn [frame_symbol] in Hb.
    + simpl in Hp. rewrite Hb, Ascii.eqb_refl in Hp. injection Hp as _ <-.
      exact Ho.
    + cbn [chain] in HG. destruct HG as (_ & Hop & _ & _ & HG).
      cbn [unwind]. destruct (pops c op) eqn:Hpops; cbn [negb].
      * rewrite pop_operators_pops in Hp by (rewrite Hb; exact Hpops).
        exact (IH o1 _ e' o' _ Ho1 HG Hp).
      * rewrite (@pop_operators_stays c e back o1 Hc) in Hp;
          [|rewrite Hb; exact Hop | rewrite Hb; exact Hpops].
        injection Hp as _ <-. exact Ho.
Qed.

Lemma pop_to_open_unwind (G : list frame) :
  forall o e u,
    map symbol o = map frame_symbol G -> chain G ->
    map symbol (snd (pop_to_open e o)) =
    map frame_symbol (fst (unwind (fun _ => false) G u)).
Proof.
  induction G as [|f G IH]; intros o e u Ho HG.
  - destruct o; [reflexivity | discriminate].
  - destruct (@aligned_cons o f G Ho) as (back & o1 & -> & Hb & Ho1).
    destruct f as [|t op]; cbn [frame_symbol] in Hb.
    + simpl. rewrite Hb, Ascii.eqb_refl. exact Ho.
    + cbn [chain] in HG. destruct HG as (_ & Hop & _ & _ & HG).
      simpl. rewrite Hb, (operator_not_open op Hop). exact (IH o1 _ _ Ho1 HG).
Qed.

Lemma unwind_not_open (G : list frame) :
  forall o u,
    map symbol o = map frame_symbol G -> Forall not_open o ->
    fst (unwind (fun _ => false) G u) = [].
Proof.
  induction G as [|f G IH]; intros o u Ho Hn; [reflexivity|].
  destruct (@aligned_cons o f G Ho) as (back & o1 & -> & Hb & Ho1).
  inversion Hn as [|? ? Hback Hn1]; subst.
  destruct f as [|t op]; cbn [frame_symbol] in Hb; [contradiction|].
  simpl. exact (IH o1 _ Ho1 Hn1).
Qed.

(** ** Tokens of texts that stand apart *)

Lemma tokens_app_apart (l x : list Symbol) :
  joined l x = false -> tokens (l ++ x) = tokens l ++ tokens x.
Proof.
  intros Hj.
  destruct (tokens_from_app l []) as (front & run' & Hx & Hrun).
  assert (H1 : tokens (l ++ x) = front ++ tokens_from run' x) by apply Hx.
  assert (H2 : tokens l = front ++ close_run run').
  { pose proof (Hx []) as H. rewrite app_nil_r in H. exact H. }
  rewrite H1, H2, <- app_assoc. f_equal. apply tokens_from_apart.
  unfold joined in Hj. apply andb_false_iff in Hj.
  destruct Hrun as [Hrun|[Hrun|[_ Hrun]]]; auto.
  destruct Hj as [Hj|Hj]; [congruence | auto].
Qed.

Lemma value_run_all (l : list Symbol) :
  forallb in_value l = true -> value_run l = l.
Proof.
  induction l as [|c l IH]; intros H; [reflexivity|].
  simpl in H. apply andb_prop in H as [Hc Hl].
  simpl. rewrite Hc, (IH Hl). reflexivity.
Qed.

Lemma tokens_literal (l : list Symbol) :
  is_literal l = true -> tokens l = [l].
Proof.
  intros H. destruct l as [|c l]; [discriminate|].
  destruct (is_literal_cons c l H) as (_ & Hall & _).
  pose proof (value_run_all _ Hall) as Hrun.
  assert (Hc : in_value c = true) by (simpl in Hall; apply andb_prop in Hall; tauto).
  rewrite (tokens_value c l Hc), Hrun, skipn_all. reflexivity.
Qed.

Lemma tokens_one (c : Symbol) (t : SymbolType.t) :
  type c = Ok t -> t <> SymbolType.val -> t <> SymbolType.period ->
  in_value c = false /\
  tokens [c] = if is_blank c then [] else [[c]].
Proof.
  intros Ht Hv Hp.
  assert (H : in_value c = false).
  { unfold in_value, is_val, is_period. rewrite Ht.
    destruct t; simpl; congruence. }
  split; [exact H|]. unfold tokens. cbn [tokens_from]. rewrite H.
  destruct (is_blank c); reflexivity.
Qed.

Lemma joined_right (l : list Symbol) (x y : list Symbol) :
  hd Symbol.space x = hd Symbol.space y -> joined l x = joined l y.
Proof. unfold joined. intros ->. reflexivity. Qed.

Lemma joined_last (l : list Symbol) (c : Symbol) (r : list Symbol) :
  in_value c = false -> joined (l ++ [c]) r = false.
Proof. intros H. unfold joined. rewrite last_last, H. reflexivity. Qed.

Lemma joined_first (l : list Symbol) (c : Symbol) (r : list Symbol) :
  in_value c = false -> joined l (c :: r) = false.
Proof. intros H. unfold joined. cbn [hd]. rewrite H. apply andb_false_r. Qed.

Lemma joined_stops (l r : list Symbol) :
  stops_value r = true -> joined l r = false.
Proof.
  intros H. unfold joined. apply andb_false_iff. right.
  destruct r as [|c r]; [reflexivity|].
  cbn [hd]. unfold in_value, is_val, is_period. simpl in H.
  destruct (type c) as [t| |]; try reflexivity. destruct t; try reflexivity; discriminate.
Qed.

Lemma tokens_text (z : term) :
  grouped z = true -> tokens (text z) = term_tokens z.
Proof.
  induction z as [l|z IH|op x IHx y IHy]; intros Hz.
  - exact (tokens_literal l Hz).
  - cbn [text term_tokens grouped] in *.
    destruct (@tokens_one Symbol.open SymbolType.open eq_refl) as [Ho Hto];
      try discriminate.
    destruct (@tokens_one Symbol.close SymbolType.close eq_refl) as [Hc Htc];
      try discriminate.
    change (Symbol.open :: text z ++ [Symbol.close])
      with ([Symbol.open] ++ text z ++ [Symbol.close]).
    rewrite tokens_app_apart by (apply joined_last with (l := []); exact Ho).
    rewrite tokens_app_apart by (apply joined_first; exact Hc).
    rewrite Hto, Htc, (IH Hz). reflexivity.
  - cbn [grouped] in Hz.
    apply andb_prop in Hz as [Hz _]. apply andb_prop in Hz as [Hz _].
    apply andb_prop in Hz as [Hz Hy]. apply andb_prop in Hz as [Hop Hx].
    apply is_operator_true in Hop.
    destruct (@tokens_one op SymbolType.opr Hop) as [Hv Hto]; try discriminate.
    assert (Hb : is_blank op = false) by (unfold is_blank; rewrite Hop; reflexivity).
    rewrite Hb in Hto.
    cbn [text term_tokens].
    rewrite tokens_app_apart by (apply joined_first; exact Hv).
    change (op :: text y) with ([op] ++ text y).
    rewrite tokens_app_apart by (apply joined_last with (l := []); exact Hv).
    rewrite Hto, (IHx Hx), (IHy Hy). reflexivity.
Qed.

(** ** Every input in turn has a grouping *)

Lemma parsed_step (s : list Symbol) (qf : position) (st st' : scan) :
  parsed s qf st -> step s st st' -> parsed s qf st'.
Proof.
  unfold parsed.
  intros (q & G & cur & Hq & Hstops & Hcur & Hlast & Hal & HG & Htok & Hj) H.
  destruct H as [n e o l rest Hs Hl Hstop | n e o c rest e' o' Hs Ht Hp
                | n e o rest Hs | n e o rest e' back o' Hs Hp Hb
                | n e o c rest Hs Ht]; cbn [i expr oprs] in *.
  - (* a number *)
    destruct l as [|c l]; [discriminate|].
    destruct (is_literal_cons c l Hl) as (Ht & Hall & _).
    destruct (@skipn_app_length s n (c :: l) rest Hs) as (Hs' & Hf & _);
      [discriminate|].
    rewrite Hs in Hq, Hstops, Hj.
    assert (Hwant : q = want_operand).
    { destruct q; [reflexivity | |].
      - specialize (Hstops eq_refl). simpl in Hstops. rewrite Ht in Hstops.
        discriminate.
      - simpl in Hq. unfold next_position in Hq. rewrite Ht in Hq. discriminate. }
    subst q. assert (Hnone : cur = None) by (apply Hcur; reflexivity). subst cur.
    exists in_number, G, (Some (lit (c :: l))).
    rewrite Hs', Hf.
    simpl in Hq. unfold next_position in Hq. rewrite Ht in Hq.
    simpl in Hall. apply andb_prop in Hall as [_ Hall].
    rewrite positions_app, (positions_in_number l Hall) in Hq.
    split; [exact Hq|]. split; [intros _; exact Hstop|].
    split; [split; discriminate|]. split; [split; [exact Hl | reflexivity]|].
    split; [exact Hal|]. split; [exact HG|]. split.
    + rewrite tokens_app_apart by exact Hj.
      rewrite Htok, (tokens_literal _ Hl). cbn [operand_tokens term_tokens].
      rewrite app_nil_r. reflexivity.
    + apply joined_stops. exact Hstop.
  - (* an operator *)
    destruct (skipn_next s n Hs) as [Hs' _]. destruct (firstn_next s n Hs) as [Hf _].
    rewrite Hs in Hq. simpl in Hq. unfold next_position in Hq. rewrite Ht in Hq.
    destruct cur as [u|]; [|rewrite (proj1 Hcur eq_refl) in Hq; discriminate].
    destruct Hlast as [Hu Hroot].
    destruct (@tokens_one c SymbolType.opr Ht) as [Hv Htc]; try discriminate.
    assert (Hblank : is_blank c = false) by (unfold is_blank; rewrite Ht; reflexivity).
    rewrite Hblank in Htc.
    destruct (@unwind_spec (fun op => negb (pops c op)) G u HG Hu)
      as (H1 & H2 & H3 & H4 & H5).
    { unfold rests. rewrite Hroot. exact I. }
    pose proof (@pop_operators_unwind c G o e e' o' u Ht Hal HG Hp) as Hal'.
    destruct (unwind (fun op => negb (pops c op)) G u) as [G1 u1].
    cbn [fst snd] in *.
    exists want_operand, (left_operand u1 c :: G1), None.
    rewrite Hs', Hf.
    split; [destruct q; [discriminate | exact Hq | exact Hq]|].
    split; [discriminate|]. split; [split; reflexivity|]. split; [exact I|].
    split; [cbn [map symbol frame_symbol]; f_equal; exact Hal'|].
    split; [|split].
    + cbn [chain]. split; [exact H2|]. split; [exact Ht|]. split; [|split; [|exact H1]].
      * destruct H5 as [H5|(op & H5 & Hop)]; rewrite H5; [rewrite Hroot; exact I|].
        apply negb_false_iff. exact Hop.
      * destruct G1 as [|[|t0 op0] G1]; try exact I.
        apply negb_true_iff. exact H4.
    + rewrite tokens_app_apart by (apply joined_first; exact Hv).
      rewrite Htc, Htok. cbn [operand_tokens frames_tokens frame_tokens].
      rewrite app_nil_r, <- H3, app_assoc. reflexivity.
    + apply joined_last. exact Hv.
  - (* an open parenthesis *)
    destruct (skipn_next s n Hs) as [Hs' _]. destruct (firstn_next s n Hs) as [Hf _].
    rewrite Hs in Hq. simpl in Hq.
    destruct q; try discriminate.
    assert (Hnone : cur = None) by (apply Hcur; reflexivity). subst cur.
    destruct (@tokens_one Symbol.open SymbolType.open eq_refl) as [Hv Htc];
      try discriminate.
    exists want_operand, (left_open :: G), None.
    rewrite Hs', Hf.
    split; [exact Hq|]. split; [discriminate|]. split; [split; reflexivity|].
    split; [exact I|].
    split; [cbn [map symbol frame_symbol]; f_equal; exact Hal|].
    split; [exact HG|]. split.
    + rewrite tokens_app_apart by (apply joined_first; exact Hv).
      rewrite Htc, Htok. cbn [operand_tokens frames_tokens frame_tokens].
      rewrite !app_nil_r. reflexivity.
    + apply joined_last. exact Hv.
  - (* a close parenthesis *)
    destruct (skipn_next s n Hs) as [Hs' _]. destruct (firstn_next s n Hs) as [Hf _].
    rewrite Hs in Hq. simpl in Hq.
    destruct cur as [u|]; [|rewrite (proj1 Hcur eq_refl) in Hq; discriminate].
    destruct Hlast as [Hu Hroot].
    destruct (@tokens_one Symbol.close SymbolType.close eq_refl) as [Hv Htc];
      try discriminate.
    destruct (@unwind_spec (fun _ => false) G u HG Hu) as (H1 & H2 & H3 & H4 & _).
    { unfold rests. rewrite Hroot. exact I. }
    pose proof (@pop_to_open_unwind G o e u Hal HG) as Hal'.
    rewrite Hp in Hal'. cbn [snd] in Hal'.
    destruct (unwind (fun _ => false) G u) as [G1 u1]. cbn [fst snd] in *.
    destruct G1 as [|f G1]; [discriminate|].
    destruct f as [|t0 op0]; [|discriminate].
    exists after_operand, G1, (Some (par u1)).
    rewrite Hs', Hf.
    split; [destruct q; [discriminate | exact Hq | exact Hq]|].
    split; [discriminate|]. split; [split; discriminate|].
    split; [split; [exact H2 | reflexivity]|].
    split; [cbn [map] in Hal'; congruence|].
    split; [exact H1|]. split.
    + rewrite tokens_app_apart by (apply joined_first; exact Hv).
      rewrite Htc, Htok. cbn [operand_tokens]. rewrite <- H3.
      cbn [frames_tokens frame_tokens term_tokens].
      rewrite <- !app_assoc. reflexivity.
    + apply joined_last. exact Hv.
  - (* a blank *)
    destruct (skipn_next s n Hs) as [Hs' _]. destruct (firstn_next s n Hs) as [Hf _].
    rewrite Hs in Hq. simpl in Hq. unfold next_position in Hq. rewrite Ht in Hq.
    destruct (@tokens_one c SymbolType.blank Ht) as [Hv Htc]; try discriminate.
    assert (Hblank : is_blank c = true) by (unfold is_blank; rewrite Ht; reflexivity).
    rewrite Hblank in Htc.
    assert (Htok' : tokens (firstn n s ++ [c]) =
                    frames_tokens G ++ operand_tokens cur).
    { rewrite tokens_app_apart by (apply joined_first; exact Hv).
      rewrite Htc, app_nil_r. exact Htok. }
    pose proof (joined_last (firstn n s) c rest Hv) as Hj'.
    rewrite Hs', Hf.
    destruct q.
    + exists want_operand, G, cur. repeat split; auto; try discriminate;
        apply Hcur; auto.
    + exists after_operand, G, cur. repeat split; auto; try discriminate.
      intros E. apply Hcur in E. discriminate.
    + exists after_operand, G, cur. repeat split; auto; try discriminate.
      intros E. apply Hcur in E. discriminate.
Qed.

(** An input in which operands and operators take turns, and that the
    conversion accepts, is the text of a grouped expression, blanks
    aside. *)
Lemma rpn_parsed (s : list Symbol) (expr : list Part) :
  alternates s = true -> rpn s [] = Ok expr ->
  exists z, grouped z = true /\ tokens (text z) = tokens s.
Proof.
  unfold alternates. intros Halt H.
  destruct (positions want_operand s) as [qf|] eqn:Hqf; [|discriminate].
  destruct (@rpn_loop_invariant s (parsed s qf) (@parsed_step s qf)
              (mkScan 0 [] []) expr)
    as (st & (q & G & cur & Hq & _ & Hcur & Hlast & Hal & HG & Htok & _) & Hge & Hdrain).
  - exists want_operand, [], None. cbn [i oprs skipn firstn].
    repeat split; auto; try discriminate.
  - exact H.
  - rewrite skipn_all2 in Hq by exact Hge. simpl in Hq. injection Hq as ->.
    rewrite firstn_all2 in Htok by exact Hge.
    destruct cur as [u|]; [|rewrite (proj1 Hcur eq_refl) in Halt; discriminate].
    destruct Hlast as [Hu Hroot].
    destruct (rpn_drain_split _ _ Hdrain) as (_ & Hn).
    destruct (@unwind_spec (fun _ => false) G u HG Hu) as (_ & H2 & H3 & _ & _).
    { unfold rests. rewrite Hroot. exact I. }
    rewrite (@unwind_not_open G (oprs st) u Hal Hn) in H3.
    exists (snd (unwind (fun _ => false) G u)). split; [exact H2|].
    rewrite (tokens_text _ H2), Htok. exact H3.
Qed.

(** X14.  [eval] computes what the grouping rules say, on every input in
    which operands and operators take turns and that the conversion
    accepts: such an input is, blanks aside, the text of an expression
    tree with the parentheses it needs, and [eval] returns the value of
    that tree. *)
Theorem input_in_turn_has_its_value (fmod pow : double -> double -> double)
  (s : list Symbol) (expr : list Part) :
  alternates s = true -> rpn s [] = Ok expr ->
  exists z,
    grouped z = true /\ tokens (text z) = tokens s /\
    eval fmod pow s = value fmod pow z.
Proof.
  intros Halt H. destruct (rpn_parsed s Halt H) as (z & Hz & Htok).
  exists z. split; [exact Hz|]. split; [exact Htok|].
  rewrite <- (eval_text fmod pow z Hz).
  apply eval_same_tokens. symmetry. exact Htok.
Qed.

Lemma input_in_turn_has_its_value_witness :
  exists z,
    grouped z = true /\
    tokens (text z) = tokens (chars "3 + 4 * 2 / (1 - 5) ^ 2 ^ 3") /\
    eval fmod_exact pow_integer (chars "3 + 4 * 2 / (1 - 5) ^ 2 ^ 3") =
    value fmod_exact pow_integer z.
Proof.
  apply (@input_in_turn_has_its_value fmod_exact pow_integer
           (chars "3 + 4 * 2 / (1 - 5) ^ 2 ^ 3")
           [mkPart 0 1 "3"%char; mkPart 4 5 "4"%char; mkPart 8 9 "2"%char;
            mkPart 6 7 "*"%char; mkPart 13 14 "1"%char; mkPart 17 18 "5"%char;
            mkPart 15 16 "-"%char; mkPart 22 23 "2"%char; mkPart 26 27 "3"%char;
            mkPart 24 25 "^"%char; mkPart 20 21 "^"%char; mkPart 10 11 "/"%char;
            mkPart 2 3 "+"%char]).
  - vm_compute. reflexivity.
  - vm_compute. reflexivity.
Defined.

(** ** The inputs in turn that the conversion accepts *)

Lemma in_turn_state_step (s : list Symbol) (qf : position) (st st' : scan) :
  in_turn_state s qf st -> step s st st' -> in_turn_state s qf st'.
Proof.
  intros (H1 & H2 & H3) H. split; [|split].
  - exact (parsed_step H1 H).
  - exact (depth_on_stack_step H2 H).
  - exact (parts_sorted_out_step H3 H).
Qed.

(** A conversion that stops the process does so in an iteration, or in
    the final loop, from a state that the iterations before have kept. *)
Lemma rpn_loop_stops (s : list Symbol) (Inv : scan -> Prop) :
  (forall st st', Inv st -> step s st st' -> Inv st') ->
  forall st f,
    Inv st -> rpn_loop s st = Fatal f ->
    exists st', Inv st' /\
                ((i st' < length s /\ rpn_step s st' = Fatal f) \/
                 (length s <= i st' /\ rpn_drain (expr st') (oprs st') = Fatal f)).
Proof.
  intros Hkeep st. induction st as [st IH] using (scan_ind s).
  intros f Hinv H. rewrite rpn_loop_eq in H.
  destruct lt_dec as [Hlt|Hge].
  - destruct (rpn_step s st) as [st'|f'|u] eqn:Hst; simpl in H; try discriminate.
    + apply (IH st' Hlt eq_refl f); [|exact H].
      apply (Hkeep st st' Hinv). apply rpn_step_step. exact Hst.
    + injection H as <-. exists st. split; [exact Hinv|]. left. auto.
  - exists st. split; [exact Hinv|]. right. split; [lia | exact H].
Qed.

Lemma rpn_drain_open (o e : list Part) (f : fault) :
  rpn_drain e o = Fatal f -> 0 < opens o.
Proof.
  revert e. induction o as [|back o IH]; intros e; simpl; [discriminate|].
  rewrite opens_cons.
  destruct (Ascii.eqb (symbol back) Symbol.open); [lia|].
  intros H. apply IH in H. simpl. exact H.
Qed.

Lemma term_tokens_periods (z : term) :
  grouped z = true ->
  forallb (fun t => periods t <=? 1) (term_tokens z) = true.
Proof.
  induction z as [l|z IH|op x IHx y IHy]; intros Hz.
  - cbn [grouped term_tokens forallb] in *. destruct l as [|c l]; [discriminate|].
    destruct (is_literal_cons c l Hz) as (_ & _ & Hp).
    apply Nat.leb_le in Hp. rewrite Hp. reflexivity.
  - cbn [grouped term_tokens forallb] in *.
    rewrite forallb_app, (IH Hz). reflexivity.
  - cbn [grouped] in Hz.
    apply andb_prop in Hz as [Hz _]. apply andb_prop in Hz as [Hz _].
    apply andb_prop in Hz as [Hz Hy]. apply andb_prop in Hz as [Hop Hx].
    apply is_operator_true in Hop.
    cbn [term_tokens]. rewrite forallb_app. cbn [forallb].
    rewrite (IHx Hx), (IHy Hy).
    assert (Hp : periods [op] = 0).
    { unfold periods, is_period. cbn [filter]. rewrite Hop. reflexivity. }
    rewrite Hp. reflexivity.
Qed.

(** No iteration stops the process on an input in turn whose
    parentheses balance and whose numbers have one period at most. *)
Lemma in_turn_step_returns (s : list Symbol) (qf : position) (st : scan)
  (f : fault) :
  balanced s = true -> single_periods s = true ->
  in_turn_state s qf st -> i st < length s -> rpn_step s st = Fatal f -> False.
Proof.
  intros Hbal Hper ((q & G & cur & Hq & Hstops & _ & _ & _ & _ & Htok & Hj) &
                    [_ Hdepth] & [_ Hoo]) Hlt Hst.
  pose proof (skipn_nth s Hlt) as Hs.
  set (c := nth (i st) s Symbol.null) in *.
  rewrite Hs in Hq, Hstops, Hj.
  pose proof Hq as Hq0.
  cbn [positions] in Hq.
  destruct (next_position q c) as [q'|] eqn:Hnext; [|discriminate].
  unfold next_position in Hnext.
  destruct (type c) as [t| |] eqn:Ht; try discriminate.
  destruct t; try discriminate.
  - (* a digit *)
    assert (Hval : is_val c = true) by (unfold is_val; rewrite Ht; reflexivity).
    rewrite (rpn_step_digit s st) in Hst by exact Hval. cbv zeta in Hst.
    rewrite Hs in Hst. fold c in Hst.
    assert (Hv : in_value c = true) by (unfold in_value; rewrite Hval; reflexivity).
    assert (Hrun : (periods (value_run (c :: skipn (S (i st)) s)) <=? 1) = true).
    { unfold single_periods in Hper.
      rewrite <- (firstn_skipn (i st) s), Hs in Hper.
      rewrite tokens_app_apart in Hper by exact Hj.
      rewrite forallb_app in Hper. apply andb_prop in Hper as [_ Hper].
      rewrite (tokens_value c _ Hv) in Hper. cbn [forallb] in Hper.
      apply andb_prop in Hper as [Hper _]. exact Hper. }
    rewrite Hrun in Hst.
    rewrite Nat.add_comm, <- skipn_skipn, Hs in Hst.
    destruct (stops_value _) eqn:Hstop in Hst; [discriminate Hst|].
    pose proof (value_run_maximal (c :: skipn (S (i st)) s)) as Hmax.
    pose proof (value_run_prefix (c :: skipn (S (i st)) s)) as Hpre.
    destruct (skipn (length (value_run (c :: skipn (S (i st)) s)))
                (c :: skipn (S (i st)) s)) as [|d rest];
      [discriminate Hstop|].
    rewrite stops_value_head in Hstop.
    pose proof (type_Fatal_unknown d Hmax Hstop) as Hd.
    rewrite Hpre, positions_app in Hq0.
    destruct (positions q (value_run (c :: skipn (S (i st)) s))); [|discriminate].
    cbn [positions] in Hq0. unfold next_position in Hq0. rewrite Hd in Hq0.
    discriminate.
  - (* an operator *)
    unfold rpn_step in Hst. fold c in Hst. rewrite Ht in Hst. cbn [bind] in Hst.
    destruct (@pop_operators_returns c (oprs st) (expr st) Ht Hoo) as (e' & o' & Hp).
    rewrite Hp in Hst. discriminate.
  - (* an open parenthesis *)
    unfold rpn_step in Hst. fold c in Hst. rewrite Ht in Hst. discriminate.
  - (* a close parenthesis *)
    unfold rpn_step in Hst. fold c in Hst. rewrite Ht in Hst. cbn [bind] in Hst.
    destruct (pop_to_open (expr st) (oprs st)) as [e' o'] eqn:Hp.
    destruct o' as [|back o'].
    + destruct (pop_to_open_split _ _ Hp) as (popped & Ho & _ & Hn).
      rewrite app_nil_r in Ho. rewrite Ho, (opens_not_open Hn) in Hdepth.
      unfold balanced in Hbal.
      rewrite <- (firstn_skipn (i st) s), Hs, paren_depth_app, Hdepth in Hbal.
      fold c in Hbal. rewrite (type_close c Ht) in Hbal. discriminate.
    + rewrite (pop_to_open_stops _ _ Hp), Ascii.eqb_refl in Hst. discriminate.
  - (* a period *)
    destruct q; try discriminate.
    specialize (Hstops eq_refl). simpl in Hstops. rewrite Ht in Hstops.
    discriminate.
  - (* a blank *)
    unfold rpn_step in Hst. fold c in Hst. rewrite Ht in Hst. discriminate.
Qed.

Lemma in_turn_returns (s : list Symbol) :
  alternates s = true -> balanced s = true -> single_periods s = true ->
  exists expr, rpn s [] = Ok expr.
Proof.
  intros Halt Hbal Hper.
  destruct (rpn_Ok_or_Fatal s []) as [H|[f H]]; [exact H|]. exfalso.
  unfold alternates in Halt.
  destruct (positions want_operand s) as [qf|] eqn:Hqf; [|discriminate].
  destruct (@rpn_loop_stops s (in_turn_state s qf) (@in_turn_state_step s qf)
              (mkScan 0 [] []) f)
    as (st & Hinv & [[Hlt Hst]|[Hge Hdrain]]).
  - split; [|split].
    + exists want_operand, [], None. cbn [i oprs skipn firstn].
      repeat split; auto; try discriminate.
    + split; [simpl; lia | reflexivity].
    + split; constructor.
  - exact H.
  - exact (in_turn_step_returns Hbal Hper Hinv Hlt Hst).
  - destruct Hinv as (_ & [_ Hdepth] & _).
    rewrite firstn_all2 in Hdepth by exact Hge.
    unfold balanced in Hbal. rewrite Hdepth in Hbal.
    pose proof (rpn_drain_open _ _ Hdrain) as Hopen.
    destruct (opens (oprs st)); [lia | discriminate].
Qed.

(** X15.  Of the inputs in which operands and operators take turns the
    conversion accepts those, and only those, whose parentheses balance and
    whose numbers have one period at most. *)
Theorem inputs_in_turn_that_are_accepted (s : list Symbol) :
  alternates s = true ->
  (exists expr, rpn s [] = Ok expr) <->
  balanced s = true /\ single_periods s = true.
Proof.
  intros Halt. split.
  - intros [expr H]. split; [exact (rpn_Ok_balanced s [] H)|].
    destruct (rpn_parsed s Halt H) as (z & Hz & Htok).
    unfold single_periods. rewrite <- Htok, (tokens_text z Hz).
    exact (term_tokens_periods z Hz).
  - intros [Hbal Hper]. exact (in_turn_returns s Halt Hbal Hper).
Qed.

Lemma inputs_in_turn_that_are_accepted_witness :
  (exists expr, rpn (chars "(1.5 + 2) * 3") [] = Ok expr) <->
  balanced (chars "(1.5 + 2) * 3") = true /\
  single_periods (chars "(1.5 + 2) * 3") = true.
Proof.
  apply (@inputs_in_turn_that_are_accepted (chars "(1.5 + 2) * 3")).
  reflexivity.
Defined.
